(** * RG_praser: regular expression -> minimal DFA -> right-linear grammar

    A shallow embedding of [src/main.cpp] (the first translation unit, whose
    [main] runs parse, Thompson, EpsilonRemover, SubsetConstruction,
    DFAMinimizer, TrapRemover and DFAPrinter) and the proofs of the properties
    the specification states about it.

    Conventions of the embedding.
    - A C++ [int] is a [Z] where the code stores [-1] in it (DFA indices,
      class ids) and a [nat] where it only ever holds an index of a vector
      (NFA state ids).  Every integer of the program is bounded by the size
      of a vector, so no 32-bit wrap-around is written out.
    - [vector<T>] is [list T]; [v[i]] out of range is undefined in C++ and
      reads a default here, writes out of range leave the list unchanged.
      The theorems state the well-formedness under which no such access
      happens.
    - [set<int>] is a strictly increasing [list nat]; [map<K,V>] is an
      association list kept sorted by key, as iteration over a [std::map]
      sees it.
    - A [while] loop is a [Fixpoint] on a fuel argument returning [option];
      the functions that call the loop pass enough fuel, and the theorems
      prove that the result is [Some]. *)

From Stdlib Require Import Ascii String DecimalString DecimalNat.
From Stdlib Require Import ZArith Lia Bool Arith List Sorted Permutation.
Import ListNotations.

Set Implicit Arguments.

(** ** Vectors *)

Section Vectors.
Context {A : Type}.

(** [v[i] = f(v[i])] *)
Fixpoint upd_nth (i : nat) (f : A -> A) (l : list A) : list A :=
  match l, i with
  | [], _ => []
  | x :: l', O => f x :: l'
  | x :: l', S i' => x :: upd_nth i' f l'
  end.

(** [v[i] = x] *)
Definition set_nth (i : nat) (x : A) (l : list A) : list A :=
  upd_nth i (fun _ => x) l.

Lemma length_upd_nth i f l : length (upd_nth i f l) = length l.
Proof.
  revert i; induction l as [|x l IH]; intros [|i]; simpl; auto.
Qed.

Lemma nth_error_upd_nth_eq i f l x :
  nth_error l i = Some x -> nth_error (upd_nth i f l) i = Some (f x).
Proof.
  revert i; induction l as [|y l IH]; intros [|i]; simpl; try discriminate.
  - now intros [= ->].
  - apply IH.
Qed.

Lemma nth_error_upd_nth_ne i j f l :
  i <> j -> nth_error (upd_nth i f l) j = nth_error l j.
Proof.
  revert i j; induction l as [|y l IH]; intros [|i] [|j] H; simpl; auto.
  congruence.
Qed.

Lemma nth_error_upd_nth i j f l :
  nth_error (upd_nth i f l) j =
  if Nat.eqb i j then option_map f (nth_error l j) else nth_error l j.
Proof.
  destruct (Nat.eqb_spec i j) as [->|Hne].
  - destruct (nth_error l j) eqn:E.
    + now apply nth_error_upd_nth_eq.
    + apply nth_error_None. rewrite length_upd_nth. now apply nth_error_None.
  - now apply nth_error_upd_nth_ne.
Qed.

Lemma length_set_nth i x l : length (set_nth i x l) = length l.
Proof. apply length_upd_nth. Qed.

Lemma nth_set_nth_eq i x l d : i < length l -> nth i (set_nth i x l) d = x.
Proof.
  intros H. apply nth_error_nth.
  destruct (nth_error l i) eqn:E.
  - unfold set_nth. now rewrite (nth_error_upd_nth_eq _ _ _ E).
  - apply nth_error_None in E. lia.
Qed.

Lemma nth_set_nth_ne i j x l d : i <> j -> nth j (set_nth i x l) d = nth j l d.
Proof.
  intros H. unfold set_nth.
  pose proof (nth_error_upd_nth_ne (fun _ => x) l H) as E.
  destruct (nth_error l j) eqn:El.
  - now rewrite (nth_error_nth _ _ d E), (nth_error_nth _ _ d El).
  - rewrite !nth_overflow; auto.
    + now apply nth_error_None.
    + rewrite length_upd_nth. now apply nth_error_None.
Qed.

End Vectors.

(** ** The deterministic automaton ([struct DFA]) *)

Record DState : Type := mkDState {
  d_id : Z;          (* int id *)
  d_accept : bool;   (* bool accept *)
  d_t0 : Z;          (* int t0 *)
  d_t1 : Z           (* int t1 *)
}.

Record DFA : Type := mkDFA {
  d_states : list DState;   (* vector<State> states *)
  d_start : Z;              (* int start *)
  d_trap : Z                (* int trap *)
}.

(** [(int) dfa.states.size()] *)
Definition d_size (d : DFA) : Z := Z.of_nat (length (d_states d)).

(** [0 <= i && i < (int) dfa.states.size()] *)
Definition in_range (d : DFA) (i : Z) : bool :=
  (0 <=? i)%Z && (i <? d_size d)%Z.

(** [dfa.states[i]], when [i] is an index of the vector. *)
Definition d_get (d : DFA) (i : Z) : option DState :=
  if (i <? 0)%Z then None else nth_error (d_states d) (Z.to_nat i).

(** ** TrapRemover::remove_trap *)

Definition retarget (t : Z) (st : DState) : DState :=
  mkDState (d_id st) (d_accept st)
           (if (d_t0 st =? t)%Z then (-1)%Z else d_t0 st)
           (if (d_t1 st =? t)%Z then (-1)%Z else d_t1 st).

Definition clear_state (st : DState) : DState :=
  mkDState (d_id st) false (-1)%Z (-1)%Z.

Definition remove_trap (dfa : DFA) : DFA :=
  let t := d_trap dfa in
  if (t =? -1)%Z then dfa
  else
    let sts := map (retarget t) (d_states dfa) in
    let sts' :=
      if (0 <=? t)%Z && (t <? Z.of_nat (length sts))%Z
      then upd_nth (Z.to_nat t) clear_state sts
      else sts in
    mkDFA sts' (d_start dfa) (-1)%Z.

Section TrapRemoverFacts.
Local Open Scope Z_scope.

Lemma remove_trap_none (dfa : DFA) : d_trap dfa = -1 -> remove_trap dfa = dfa.
Proof. unfold remove_trap. now intros ->. Qed.

Lemma remove_trap_states (dfa : DFA) :
  d_trap dfa <> -1 ->
  d_states (remove_trap dfa) =
    (if in_range dfa (d_trap dfa)
     then upd_nth (Z.to_nat (d_trap dfa)) clear_state
                  (map (retarget (d_trap dfa)) (d_states dfa))
     else map (retarget (d_trap dfa)) (d_states dfa)).
Proof.
  intros H. unfold remove_trap, in_range, d_size.
  destruct (Z.eqb_spec (d_trap dfa) (-1)); [contradiction|].
  simpl. now rewrite length_map.
Qed.

Lemma remove_trap_length (dfa : DFA) :
  length (d_states (remove_trap dfa)) = length (d_states dfa).
Proof.
  destruct (Z.eq_dec (d_trap dfa) (-1)) as [E|E].
  - now rewrite remove_trap_none.
  - rewrite remove_trap_states by assumption.
    destruct (in_range dfa (d_trap dfa));
      now rewrite ?length_upd_nth, length_map.
Qed.

Lemma remove_trap_start (dfa : DFA) : d_start (remove_trap dfa) = d_start dfa.
Proof. unfold remove_trap. now destruct (d_trap dfa =? -1). Qed.

Lemma remove_trap_trap (dfa : DFA) : d_trap (remove_trap dfa) = -1.
Proof.
  unfold remove_trap. destruct (Z.eqb_spec (d_trap dfa) (-1)); auto.
Qed.

Lemma remove_trap_nth (dfa : DFA) (i : nat) (st : DState) :
  d_trap dfa <> -1 ->
  nth_error (d_states dfa) i = Some st ->
  nth_error (d_states (remove_trap dfa)) i =
    Some (if Z.of_nat i =? d_trap dfa
          then clear_state (retarget (d_trap dfa) st)
          else retarget (d_trap dfa) st).
Proof.
  intros Ht Hi. rewrite remove_trap_states by assumption.
  assert (Hlt : (i < length (d_states dfa))%nat)
    by (apply nth_error_Some; congruence).
  assert (Hm : nth_error (map (retarget (d_trap dfa)) (d_states dfa)) i
               = Some (retarget (d_trap dfa) st))
    by (now rewrite nth_error_map, Hi).
  unfold in_range, d_size.
  destruct (Z.eqb_spec (Z.of_nat i) (d_trap dfa)) as [E|E].
  - rewrite <- E in Hm |- *.
    replace (0 <=? Z.of_nat i) with true by (symmetry; apply Z.leb_le; lia).
    replace (Z.of_nat i <? Z.of_nat (length (d_states dfa))) with true
      by (symmetry; apply Z.ltb_lt; lia).
    simpl. rewrite Nat2Z.id. now apply nth_error_upd_nth_eq.
  - destruct ((0 <=? d_trap dfa) && _) eqn:R; auto.
    rewrite nth_error_upd_nth_ne; auto.
    apply andb_prop in R as [R1 R2]. apply Z.leb_le in R1. lia.
Qed.

End TrapRemoverFacts.

(** ** Running a DFA on a word

    A word over {0,1} is a [list bool] ([false] is the symbol 0, [true] the
    symbol 1).  A transition [-1] (or any index that is not a state) means
    that the word is rejected. *)

Definition d_step (d : DFA) (s : Z) (b : bool) : Z :=
  match d_get d s with
  | Some st => if b then d_t1 st else d_t0 st
  | None => (-1)%Z
  end.

Fixpoint d_run (d : DFA) (s : Z) (w : list bool) : Z :=
  match w with
  | [] => s
  | b :: w' => d_run d (d_step d s b) w'
  end.

Definition d_accepting (d : DFA) (s : Z) : bool :=
  match d_get d s with
  | Some st => d_accept st
  | None => false
  end.

Definition d_accepts_from (d : DFA) (s : Z) (w : list bool) : bool :=
  d_accepting d (d_run d s w).

Definition d_accepts (d : DFA) (w : list bool) : bool :=
  d_accepts_from d (d_start d) w.

(** [s'] is reached from [s] along transitions that lead to existing states. *)
Inductive d_reach (d : DFA) (s : Z) : Z -> Prop :=
| d_reach_refl : d_reach d s s
| d_reach_step s' b :
    d_reach d s s' -> in_range d (d_step d s' b) = true ->
    d_reach d s (d_step d s' b).

(** Every transition is [-1] or an existing state (a partial DFA). *)
Definition d_partial (d : DFA) : Prop :=
  forall st, In st (d_states d) ->
    (d_t0 st = -1 \/ in_range d (d_t0 st) = true)%Z /\
    (d_t1 st = -1 \/ in_range d (d_t1 st) = true)%Z.

(** Every transition, the start and the trap are existing states (a total
    DFA with its trap, as subset construction and minimization produce). *)
Definition d_total (d : DFA) : Prop :=
  (forall st, In st (d_states d) ->
     in_range d (d_t0 st) = true /\ in_range d (d_t1 st) = true) /\
  in_range d (d_start d) = true /\ in_range d (d_trap d) = true.

(** ** DFAPrinter *)

(** [to_string(k)] of a non-negative [int]. *)
Definition to_string (k : nat) : string :=
  NilEmpty.string_of_uint (Nat.to_uint k).

(** [stoi(s)] on a string of decimal digits; [None] where [stoi] throws.
    (The program calls it on the digits of a state name only.) *)
Definition stoi (s : string) : option nat :=
  match s with
  | EmptyString => None
  | _ => option_map Nat.of_uint (NilEmpty.uint_of_string s)
  end.

(** ["q" + to_string(k)] *)
Definition qn (k : nat) : string := String "q"%char (to_string k).

Definition dflt_state : DState := mkDState 0 false (-1) (-1).

(** [idfa.states[i]] *)
Definition d_at (d : DFA) (i : nat) : DState := nth i (d_states d) dflt_state.

(** The local variables of [name_states]. *)
Record Naming : Type := mkNaming {
  nm_queue : list Z;          (* queue<int> Q *)
  nm_visited : list bool;     (* vector<bool> visited *)
  nm_qname : list string;     (* vector<string> qname *)
  nm_count : nat              (* int qid_count *)
}.

(** The body of [for (int i = 0; i < 2; i++)] for one [v = nxts[i]]. *)
Definition visit (d : DFA) (v : Z) (s : Naming) : Naming :=
  if in_range d v && negb (nth (Z.to_nat v) (nm_visited s) false)
  then mkNaming (nm_queue s ++ [v])
                (set_nth (Z.to_nat v) true (nm_visited s))
                (set_nth (Z.to_nat v) (qn (nm_count s)) (nm_qname s))
                (S (nm_count s))
  else s.

(** [while (!Q.empty())] *)
Fixpoint name_loop (fuel : nat) (d : DFA) (s : Naming) : option Naming :=
  match fuel with
  | O => None
  | S fuel' =>
      match nm_queue s with
      | [] => Some s
      | u :: rest =>
          let s1 := mkNaming rest (nm_visited s) (nm_qname s) (nm_count s) in
          let st := d_at d (Z.to_nat u) in
          name_loop fuel' d (visit d (d_t1 st) (visit d (d_t0 st) s1))
      end
  end.

Definition name_init (d : DFA) : Naming :=
  let n := length (d_states d) in
  mkNaming [d_start d]
           (set_nth (Z.to_nat (d_start d)) true (repeat false n))
           (set_nth (Z.to_nat (d_start d)) "q0"%string (repeat ""%string n))
           1.

Definition name_states (d : DFA) : option (list string) :=
  let n := length (d_states d) in
  if in_range d (d_start d)
  then option_map nm_qname (name_loop (S n) d (name_init d))
  else Some (repeat ""%string n).

(** [pair<int,int>] compared as [std::sort] does. *)
Definition pair_leb (a b : nat * nat) : bool :=
  (fst a <? fst b) || ((fst a =? fst b) && (snd a <=? snd b)).

Fixpoint insert_pair (a : nat * nat) (l : list (nat * nat)) : list (nat * nat) :=
  match l with
  | [] => [a]
  | b :: l' => if pair_leb a b then a :: l else b :: insert_pair a l'
  end.

(** [sort(order.begin(), order.end())]: the pairs are pairwise different, so
    the sorted vector is the one insertion sort gives. *)
Definition sort_pairs (l : list (nat * nat)) : list (nat * nat) :=
  fold_right insert_pair [] l.

(** The loop of [get_order], from index [i] on. *)
Fixpoint collect_order (i : nat) (qname : list string)
  : option (list (nat * nat)) :=
  match qname with
  | [] => Some []
  | String "q" digits :: rest =>
      match stoi digits, collect_order (S i) rest with
      | Some idx, Some o => Some ((idx, i) :: o)
      | _, _ => None
      end
  | _ :: rest => collect_order (S i) rest
  end.

Definition get_order (qname : list string) : option (list (nat * nat)) :=
  option_map sort_pairs (collect_order 0 qname).

Definition is_empty (s : string) : bool :=
  match s with EmptyString => true | _ => false end.

(** [nxt == -1 || nxt >= (int) qname.size() || qname[nxt].empty()] *)
Definition no_target (qname : list string) (nxt : Z) : bool :=
  (nxt =? -1)%Z || (nxt >=? Z.of_nat (length qname))%Z
  || is_empty (nth (Z.to_nat nxt) qname ""%string).

(** What [print_transition] writes. *)
Definition print_transition (tid : Z) (qname : list string) : string :=
  if no_target qname tid then "N"%string
  else nth (Z.to_nat tid) qname ""%string.

(** One line of the transition table, before it is written. *)
Record Row : Type := mkRow {
  r_start : bool;
  r_accept : bool;
  r_name : string;
  r_c0 : string;
  r_c1 : string
}.

Definition render_row (r : Row) : string :=
  ((if r_start r then "(s)" else "") ++ (if r_accept r then "(e)" else "")
   ++ r_name r ++ " " ++ r_c0 r ++ " " ++ r_c1 r)%string.

Definition table_row (d : DFA) (qname : list string) (i : nat) : Row :=
  mkRow (Z.of_nat i =? d_start d)%Z (d_accept (d_at d i))
        (nth i qname ""%string)
        (print_transition (d_t0 (d_at d i)) qname)
        (print_transition (d_t1 (d_at d i)) qname).

(** A production [lhs -> sym rhs]; [rhs] is empty in [lhs -> sym]. *)
Record Production : Type := mkProd {
  p_lhs : string;
  p_sym : nat;
  p_rhs : string
}.

(** [lhs + "->" + to_string(c) + qname[nxt]] and [lhs + "->" + to_string(c)] *)
Definition render_prod (p : Production) : string :=
  (p_lhs p ++ "->" ++ to_string (p_sym p) ++ p_rhs p)%string.

(** The body of [for (int c = 0; c < 2; c++)] in [process_symbol]; the pair
    is ([productions], [production0]). *)
Definition symbol_step (d : DFA) (stid : nat) (qname : list string) (c : nat)
    (acc : list Production * list Production)
  : list Production * list Production :=
  let nxt := if c =? 0 then d_t0 (d_at d stid) else d_t1 (d_at d stid) in
  if no_target qname nxt then acc
  else
    let lhs := nth stid qname ""%string in
    let tgt := d_at d (Z.to_nat nxt) in
    let next_is_accept := d_accept tgt in
    let productions :=
      if negb (next_is_accept && (d_t0 tgt =? -1)%Z && (d_t1 tgt =? -1)%Z)
      then fst acc ++ [mkProd lhs c (nth (Z.to_nat nxt) qname ""%string)]
      else fst acc in
    let production0 :=
      if next_is_accept then snd acc ++ [mkProd lhs c ""%string]
      else snd acc in
    (productions, production0).

Definition process_symbol (d : DFA) (stid : nat) (qname : list string)
    (productions : list Production) : list Production :=
  let r := symbol_step d stid qname 1 (symbol_step d stid qname 0 (productions, [])) in
  fst r ++ snd r.

(** The rows and the productions [print_and_convert_to_RG] writes. *)
Definition table_of (d : DFA) (qname : list string) (order : list (nat * nat))
  : list Row :=
  map (fun pr => table_row d qname (snd pr)) order.

Definition grammar_of (d : DFA) (qname : list string) (order : list (nat * nat))
  : list Production :=
  flat_map (fun p => process_symbol d (snd p) qname []) order.

Definition print_and_convert_to_RG (d : DFA) : option (list string) :=
  match name_states d with
  | None => None
  | Some qname =>
      match get_order qname with
      | None => None
      | Some order =>
          Some ("      0 1"%string :: map render_row (table_of d qname order)
                ++ [""%string]
                ++ map render_prod (grammar_of d qname order))
      end
  end.

(** The grammar alone. *)
Definition emit_grammar (d : DFA) : option (list Production) :=
  match name_states d with
  | None => None
  | Some qname =>
      match get_order qname with
      | None => None
      | Some order => Some (grammar_of d qname order)
      end
  end.

(** Derivations of a right-linear grammar: [derives G A w] when the
    nonterminal [A] rewrites to the terminal word [w]. *)
Definition sym_of (b : bool) : nat := if b then 1 else 0.

Inductive derives (G : list Production) : string -> list bool -> Prop :=
| derives_last A c :
    In (mkProd A (sym_of c) ""%string) G -> derives G A [c]
| derives_step A c B w :
    B <> ""%string -> In (mkProd A (sym_of c) B) G -> derives G B w ->
    derives G A (c :: w).

(** ** Facts about state names *)

Lemma to_string_inj k k' : to_string k = to_string k' -> k = k'.
Proof.
  unfold to_string. intros H.
  apply DecimalNat.Unsigned.to_uint_inj.
  assert (E : NilEmpty.uint_of_string (NilEmpty.string_of_uint (Nat.to_uint k))
              = NilEmpty.uint_of_string (NilEmpty.string_of_uint (Nat.to_uint k')))
    by now rewrite H.
  rewrite !NilEmpty.usu in E. congruence.
Qed.

Lemma to_uint_nonnil k : Nat.to_uint k <> Decimal.Nil.
Proof.
  intros H. pose proof (DecimalNat.Unsigned.of_to k) as E.
  rewrite H in E. simpl in E. subst k. discriminate.
Qed.

Lemma stoi_to_string k : stoi (to_string k) = Some k.
Proof.
  unfold stoi, to_string.
  destruct (NilEmpty.string_of_uint (Nat.to_uint k)) eqn:E.
  - destruct (Nat.to_uint k) eqn:U; try discriminate.
    now apply to_uint_nonnil in U.
  - rewrite <- E, NilEmpty.usu. simpl. now rewrite DecimalNat.Unsigned.of_to.
Qed.

Lemma qn_inj k k' : qn k = qn k' -> k = k'.
Proof. unfold qn. intros [= H]. now apply to_string_inj. Qed.

Lemma qn_nonempty k : qn k <> ""%string.
Proof. discriminate. Qed.

Lemma in_range_spec d i :
  in_range d i = true <-> (0 <= i < Z.of_nat (length (d_states d)))%Z.
Proof.
  unfold in_range, d_size. rewrite andb_true_iff, Z.leb_le, Z.ltb_lt. tauto.
Qed.

Lemma d_get_at d u :
  in_range d u = true -> d_get d u = Some (d_at d (Z.to_nat u)).
Proof.
  intros H. apply in_range_spec in H. unfold d_get, d_at.
  destruct (Z.ltb_spec u 0); [lia|].
  apply nth_error_nth'. lia.
Qed.

Lemma d_get_in d u st : d_get d u = Some st -> In st (d_states d).
Proof.
  unfold d_get. destruct (u <? 0)%Z; [discriminate|]. apply nth_error_In.
Qed.

Lemma d_get_range d u st : d_get d u = Some st -> in_range d u = true.
Proof.
  unfold d_get. destruct (Z.ltb_spec u 0) as [Hneg|Hpos]; [discriminate|].
  intros Hg. apply in_range_spec.
  assert (Z.to_nat u < length (d_states d)) by (apply nth_error_Some; congruence).
  lia.
Qed.

Lemma d_get_none d u : in_range d u = false -> d_get d u = None.
Proof.
  intros H. destruct (d_get d u) eqn:E; auto.
  apply d_get_range in E. congruence.
Qed.

Lemma d_step_at d u b :
  in_range d u = true ->
  d_step d u b = if b then d_t1 (d_at d (Z.to_nat u)) else d_t0 (d_at d (Z.to_nat u)).
Proof. intros H. unfold d_step. now rewrite d_get_at. Qed.

(** ** name_states: the breadth-first naming *)

Definition named (qname : list string) (i : nat) : Prop :=
  nth i qname ""%string <> ""%string.

Definition count_false (l : list bool) : nat := length (filter negb l).

Lemma count_false_set_true i l :
  nth i l true = false ->
  S (count_false (set_nth i true l)) = count_false l.
Proof.
  unfold count_false, set_nth. revert i.
  induction l as [|x l IH]; intros [|i]; simpl; try discriminate.
  - now intros ->.
  - intros H. destruct x; simpl; rewrite <- (IH i H); reflexivity.
Qed.

Section NameStates.
Variable d : DFA.
Let n := length (d_states d).

Record name_inv (pend : list Z) (s : Naming) : Prop := mkNameInv {
  ni_len_v : length (nm_visited s) = n;
  ni_len_q : length (nm_qname s) = n;
  ni_vis : forall i, i < n ->
      (nth i (nm_visited s) false = true <-> named (nm_qname s) i);
  ni_qn : forall i, i < n -> named (nm_qname s) i ->
      exists k, k < nm_count s /\ nth i (nm_qname s) ""%string = qn k;
  ni_inj : forall i j, i < n -> j < n -> named (nm_qname s) i ->
      nth i (nm_qname s) ""%string = nth j (nm_qname s) ""%string -> i = j;
  ni_queue : forall u, In u (nm_queue s) ->
      in_range d u = true /\ nth (Z.to_nat u) (nm_visited s) false = true;
  ni_closed : forall i, i < n -> nth i (nm_visited s) false = true ->
      In (Z.of_nat i) (nm_queue s ++ pend) \/
      forall b, in_range d (d_step d (Z.of_nat i) b) = true ->
        nth (Z.to_nat (d_step d (Z.of_nat i) b)) (nm_visited s) false = true;
  ni_reach : forall i, i < n -> nth i (nm_visited s) false = true ->
      d_reach d (d_start d) (Z.of_nat i);
  ni_start : nth (Z.to_nat (d_start d)) (nm_qname s) ""%string = "q0"%string
}.

Lemma visit_mono s v i :
  nth i (nm_visited s) false = true ->
  nth i (nm_visited (visit d v s)) false = true.
Proof.
  intros H. unfold visit.
  destruct (in_range d v && negb _) eqn:G; auto. simpl.
  destruct (Nat.eq_dec (Z.to_nat v) i) as [<-|Hne].
  - apply nth_set_nth_eq.
    destruct (Nat.lt_ge_cases (Z.to_nat v) (length (nm_visited s))) as [L|L]; auto.
    rewrite nth_overflow in H by assumption. discriminate.
  - now rewrite nth_set_nth_ne.
Qed.

Lemma visit_visited s v :
  length (nm_visited s) = n -> in_range d v = true ->
  nth (Z.to_nat v) (nm_visited (visit d v s)) false = true.
Proof.
  intros Hl Hv. unfold visit. rewrite Hv. simpl.
  destruct (nth (Z.to_nat v) (nm_visited s) false) eqn:E; simpl; auto.
  apply nth_set_nth_eq. apply in_range_spec in Hv. fold n in Hv. lia.
Qed.

Lemma visit_measure s v :
  length (nm_visited s) = n ->
  count_false (nm_visited (visit d v s)) + length (nm_queue (visit d v s))
  = count_false (nm_visited s) + length (nm_queue s).
Proof.
  intros Hl. unfold visit.
  destruct (in_range d v && negb _) eqn:G; auto. simpl.
  apply andb_prop in G as [Hv G]. apply negb_true_iff in G.
  apply in_range_spec in Hv. fold n in Hv.
  rewrite length_app. simpl.
  rewrite <- (@count_false_set_true (Z.to_nat v) (nm_visited s)).
  - lia.
  - rewrite (nth_indep _ true false); auto. lia.
Qed.

Lemma visit_inv pend s v :
  name_inv pend s ->
  (in_range d v = true -> d_reach d (d_start d) v) ->
  in_range d (d_start d) = true ->
  name_inv pend (visit d v s).
Proof.
  intros I Hr Hs. unfold visit.
  destruct (in_range d v && negb _) eqn:G; auto.
  apply andb_prop in G as [Hv G]. apply negb_true_iff in G.
  pose proof Hv as Hv'. apply in_range_spec in Hv'. fold n in Hv'.
  assert (Hvn : Z.to_nat v < n) by lia.
  destruct I as [Lv Lq Vis Qn Inj Qu Cl Re St].
  assert (Hunnamed : nth (Z.to_nat v) (nm_qname s) ""%string = ""%string).
  { destruct (string_dec (nth (Z.to_nat v) (nm_qname s) ""%string) ""%string) as [E|E]; auto.
    apply Vis in E; auto. congruence. }
  constructor; simpl.
  - now rewrite length_set_nth.
  - now rewrite length_set_nth.
  - intros i Hi. unfold named.
    destruct (Nat.eq_dec (Z.to_nat v) i) as [<-|Hne].
    + rewrite !nth_set_nth_eq by lia. split; auto. intros _. apply qn_nonempty.
    + rewrite !nth_set_nth_ne by assumption. now apply Vis.
  - intros i Hi. unfold named.
    destruct (Nat.eq_dec (Z.to_nat v) i) as [<-|Hne].
    + rewrite !nth_set_nth_eq by lia. intros _. exists (nm_count s). split; auto.
    + rewrite !nth_set_nth_ne by assumption. intros H.
      destruct (Qn i Hi H) as (k & Hk & E). exists k. split; auto.
  - intros i j Hi Hj. unfold named.
    destruct (Nat.eq_dec (Z.to_nat v) i) as [<-|Hni];
      destruct (Nat.eq_dec (Z.to_nat v) j) as [<-|Hnj]; auto.
    + rewrite nth_set_nth_eq by lia. rewrite nth_set_nth_ne by assumption.
      intros _ E.
      destruct (Qn j Hj) as (k & Hk & E').
      { unfold named. rewrite <- E. apply qn_nonempty. }
      rewrite E' in E. apply qn_inj in E. lia.
    + rewrite nth_set_nth_eq by lia. rewrite nth_set_nth_ne by assumption.
      intros Hnm E.
      destruct (Qn i Hi Hnm) as (k & Hk & E').
      rewrite E' in E. apply qn_inj in E. lia.
    + rewrite !nth_set_nth_ne by assumption. now apply Inj.
  - intros u Hu. apply in_app_or in Hu as [Hu|[<-|[]]].
    + destruct (Qu u Hu) as [R V]. split; auto.
      destruct (Nat.eq_dec (Z.to_nat v) (Z.to_nat u)) as [E|Hne].
      * rewrite <- E. apply nth_set_nth_eq. lia.
      * now rewrite nth_set_nth_ne.
    + split; auto. apply nth_set_nth_eq. lia.
  - intros i Hi.
    destruct (Nat.eq_dec (Z.to_nat v) i) as [<-|Hne].
    + intros _. left. rewrite Z2Nat.id by lia.
      apply in_or_app. left. apply in_or_app. right. now left.
    + rewrite nth_set_nth_ne by assumption. intros H.
      destruct (Cl i Hi H) as [Hin|Hsucc].
      * left. apply in_app_or in Hin as [Hin|Hin]; apply in_or_app; auto.
        left. apply in_or_app. now left.
      * right. intros b Hb. specialize (Hsucc b Hb).
        destruct (Nat.eq_dec (Z.to_nat v) (Z.to_nat (d_step d (Z.of_nat i) b))) as [E|Hne'].
        -- rewrite <- E. apply nth_set_nth_eq. lia.
        -- now rewrite nth_set_nth_ne.
  - intros i Hi.
    destruct (Nat.eq_dec (Z.to_nat v) i) as [<-|Hne].
    + intros _. rewrite Z2Nat.id by lia. auto.
    + rewrite nth_set_nth_ne by assumption. now apply Re.
  - destruct (Nat.eq_dec (Z.to_nat v) (Z.to_nat (d_start d))) as [E|Hne].
    + rewrite E in Hunnamed. rewrite St in Hunnamed. discriminate.
    + now rewrite nth_set_nth_ne.
Qed.

Lemma name_init_inv :
  in_range d (d_start d) = true -> name_inv [] (name_init d).
Proof.
  intros Hs. pose proof Hs as Hs'. apply in_range_spec in Hs'. fold n in Hs'.
  assert (Hsn : Z.to_nat (d_start d) < n) by lia.
  unfold name_init. fold n.
  assert (Hrf : forall i, nth i (repeat false n) false = false).
  { intros i. destruct (Nat.lt_ge_cases i n).
    - now rewrite nth_repeat_lt.
    - apply nth_overflow. now rewrite repeat_length. }
  assert (Hre : forall i, nth i (repeat ""%string n) ""%string = ""%string).
  { intros i. destruct (Nat.lt_ge_cases i n).
    - now rewrite nth_repeat_lt.
    - apply nth_overflow. now rewrite repeat_length. }
  constructor; simpl.
  - now rewrite length_set_nth, repeat_length.
  - now rewrite length_set_nth, repeat_length.
  - intros i Hi. unfold named.
    destruct (Nat.eq_dec (Z.to_nat (d_start d)) i) as [<-|Hne].
    + rewrite !nth_set_nth_eq by (rewrite repeat_length; lia).
      split; auto. discriminate.
    + rewrite !nth_set_nth_ne by assumption. rewrite Hrf, Hre.
      split; [discriminate|congruence].
  - intros i Hi. unfold named.
    destruct (Nat.eq_dec (Z.to_nat (d_start d)) i) as [<-|Hne].
    + rewrite !nth_set_nth_eq by (rewrite repeat_length; lia).
      intros _. exists 0. split; auto.
    + rewrite !nth_set_nth_ne by assumption. rewrite Hre. congruence.
  - intros i j Hi Hj. unfold named.
    destruct (Nat.eq_dec (Z.to_nat (d_start d)) i) as [<-|Hni];
      destruct (Nat.eq_dec (Z.to_nat (d_start d)) j) as [<-|Hnj]; auto.
    + rewrite nth_set_nth_eq by (rewrite repeat_length; lia).
      rewrite nth_set_nth_ne by assumption. rewrite Hre. discriminate.
    + rewrite nth_set_nth_ne by assumption. rewrite Hre. congruence.
    + rewrite nth_set_nth_ne by assumption. rewrite Hre. congruence.
  - intros u [<-|[]]. split; auto.
    apply nth_set_nth_eq. rewrite repeat_length. lia.
  - intros i Hi.
    destruct (Nat.eq_dec (Z.to_nat (d_start d)) i) as [<-|Hne].
    + intros _. left. rewrite Z2Nat.id by lia. now left.
    + rewrite nth_set_nth_ne by assumption. rewrite Hrf. discriminate.
  - intros i Hi.
    destruct (Nat.eq_dec (Z.to_nat (d_start d)) i) as [<-|Hne].
    + intros _. rewrite Z2Nat.id by lia. constructor.
    + rewrite nth_set_nth_ne by assumption. rewrite Hrf. discriminate.
  - apply nth_set_nth_eq. rewrite repeat_length. lia.
Qed.

Lemma name_loop_inv fuel s :
  name_inv [] s ->
  in_range d (d_start d) = true ->
  count_false (nm_visited s) + length (nm_queue s) < fuel ->
  exists s', name_loop fuel d s = Some s' /\ name_inv [] s' /\ nm_queue s' = [].
Proof.
  revert s. induction fuel as [|fuel IH]; intros s I Hs Hm; [lia|].
  simpl. destruct (nm_queue s) as [|u rest] eqn:Q.
  - exists s. auto.
  - set (s1 := mkNaming rest (nm_visited s) (nm_qname s) (nm_count s)).
    destruct (ni_queue I u) as [Hu Hvu]; [rewrite Q; now left|].
    pose proof Hu as Hu'. apply in_range_spec in Hu'. fold n in Hu'.
    assert (Hreach : d_reach d (d_start d) u).
    { rewrite <- (Z2Nat.id u) by lia. apply (ni_reach I); auto. lia. }
    assert (I1 : name_inv [u] s1).
    { destruct I as [Lv Lq Vis Qn Inj Qu Cl Re St].
      constructor; simpl; auto.
      - intros x Hx. apply Qu. rewrite Q. now right.
      - intros i Hi Hv. destruct (Cl i Hi Hv) as [Hin|Hc]; auto.
        left. rewrite Q, app_nil_r in Hin. destruct Hin as [<-|Hin].
        + apply in_or_app. right. now left.
        + apply in_or_app. now left. }
    set (st := d_at d (Z.to_nat u)).
    assert (I2 : name_inv [u] (visit d (d_t0 st) s1)).
    { apply visit_inv; auto. intros Hr.
      replace (d_t0 st) with (d_step d u false) in * by now rewrite d_step_at.
      now apply d_reach_step. }
    assert (I3 : name_inv [u] (visit d (d_t1 st) (visit d (d_t0 st) s1))).
    { apply visit_inv; auto. intros Hr.
      replace (d_t1 st) with (d_step d u true) in * by now rewrite d_step_at.
      now apply d_reach_step. }
    apply IH; auto.
    + destruct I3 as [Lv Lq Vis Qn Inj Qu Cl Re St].
      constructor; auto.
      intros i Hi Hv. destruct (Cl i Hi Hv) as [Hin|Hc]; auto.
      apply in_app_or in Hin as [Hin|[E|[]]].
      * left. now rewrite app_nil_r.
      * right. rewrite <- E. intros b Hb.
        rewrite d_step_at in Hb |- * by assumption.
        fold st in Hb |- *. destruct b.
        -- apply visit_visited; auto. apply (ni_len_v I2).
        -- apply visit_mono. apply visit_visited; auto. apply (ni_len_v I1).
    + rewrite visit_measure by apply (ni_len_v I2).
      rewrite visit_measure by apply (ni_len_v I1).
      subst s1. simpl. simpl in Hm. lia.
Qed.

End NameStates.

(** What [name_states] returns. *)
Record names_ok (d : DFA) (qname : list string) : Prop := mkNamesOk {
  no_len : length qname = length (d_states d);
  no_qn : forall i, named qname i -> exists k, nth i qname ""%string = qn k;
  no_inj : forall i j, named qname i ->
      nth i qname ""%string = nth j qname ""%string -> i = j;
  no_reach : forall i, i < length (d_states d) ->
      (named qname i <->
       in_range d (d_start d) = true /\ d_reach d (d_start d) (Z.of_nat i));
  no_start : in_range d (d_start d) = true ->
      nth (Z.to_nat (d_start d)) qname ""%string = "q0"%string
}.

Lemma named_lt qname i : named qname i -> i < length qname.
Proof.
  intros H. destruct (Nat.lt_ge_cases i (length qname)) as [L|L]; auto.
  unfold named in H. now rewrite nth_overflow in H.
Qed.

Lemma d_reach_in_range d s s' :
  in_range d s = true -> d_reach d s s' -> in_range d s' = true.
Proof. intros Hs H. induction H; auto. Qed.

Lemma name_states_ok (d : DFA) :
  exists qname, name_states d = Some qname /\ names_ok d qname.
Proof.
  unfold name_states.
  destruct (in_range d (d_start d)) eqn:Hs.
  - destruct (@name_loop_inv d (S (length (d_states d))) (name_init d))
      as (s' & E & I & Q); auto.
    + now apply name_init_inv.
    + unfold name_init. simpl.
      apply in_range_spec in Hs.
      pose proof (@count_false_set_true (Z.to_nat (d_start d))
                    (repeat false (length (d_states d)))) as C.
      assert (F : forall m, count_false (repeat false m) = m).
      { induction m; simpl; auto. unfold count_false in *. simpl. now rewrite IHm. }
      rewrite F in C.
      assert (C' : nth (Z.to_nat (d_start d)) (repeat false (length (d_states d))) true = false)
        by (apply nth_repeat_lt; lia).
      specialize (C C'). lia.
    + exists (nm_qname s'). rewrite E. split; auto.
      destruct I as [Lv Lq Vis Qn Inj Qu Cl Re St].
      constructor; auto.
      * intros i Hn. pose proof (named_lt Hn) as L. rewrite Lq in L.
        destruct (Qn i L Hn) as (k & _ & Ek). eauto.
      * intros i j Hn E'. pose proof (named_lt Hn) as L. rewrite Lq in L.
        assert (Hn' : named (nm_qname s') j) by (unfold named in *; congruence).
        pose proof (named_lt Hn') as L'. rewrite Lq in L'.
        now apply Inj.
      * intros i Hi. split.
        -- intros Hn. split; auto. apply Re; auto. now apply Vis.
        -- intros [_ R]. apply Vis; auto.
           remember (Z.of_nat i) as z eqn:Ez.
           revert i Hi Ez. induction R as [|s1 b R IH Hb]; intros i Hi Ez.
           ++ apply Vis; auto. unfold named.
              replace i with (Z.to_nat (d_start d)) by lia. rewrite St. discriminate.
           ++ pose proof (d_reach_in_range Hs R) as Hr1.
              apply in_range_spec in Hr1.
              specialize (IH (Z.to_nat s1)).
              rewrite Z2Nat.id in IH by lia.
              assert (V1 : nth (Z.to_nat s1) (nm_visited s') false = true)
                by (apply IH; auto; lia).
              destruct (Cl (Z.to_nat s1)) as [Hin|Hc]; auto; [lia| |].
              ** rewrite Q in Hin. destruct Hin.
              ** rewrite Z2Nat.id in Hc by lia.
                 specialize (Hc b Hb). rewrite Ez in Hc.
                 now rewrite Nat2Z.id in Hc.
  - exists (repeat ""%string (length (d_states d))). split; auto.
    assert (Hre : forall i, nth i (repeat ""%string (length (d_states d))) ""%string = ""%string).
    { intros i. destruct (Nat.lt_ge_cases i (length (d_states d))).
      - now rewrite nth_repeat_lt.
      - apply nth_overflow. now rewrite repeat_length. }
    constructor; unfold named.
    + apply repeat_length.
    + intros i. rewrite Hre. congruence.
    + intros i j. rewrite Hre. congruence.
    + intros i _. rewrite Hre. split; [congruence|]. intros [X _]. congruence.
    + congruence.
Qed.

(** ** get_order *)

Lemma in_insert_pair a x l : In x (insert_pair a l) <-> x = a \/ In x l.
Proof.
  induction l as [|b l IH]; simpl.
  - intuition.
  - destruct (pair_leb a b); simpl; rewrite ?IH; intuition.
Qed.

Lemma in_sort_pairs x l : In x (sort_pairs l) <-> In x l.
Proof.
  induction l as [|a l IH]; simpl; [tauto|].
  rewrite in_insert_pair, IH. intuition.
Qed.

Lemma collect_order_ok qname : forall i0,
  (forall i, named qname i -> exists k, nth i qname ""%string = qn k) ->
  exists o, collect_order i0 qname = Some o /\
    forall k i, In (k, i) o <->
      (i0 <= i /\ nth (i - i0) qname ""%string = qn k).
Proof.
  induction qname as [|nm rest IH]; intros i0 H.
  - exists []. split; auto. intros k i. split; [intros []|].
    intros [_ E]. destruct (i - i0); discriminate.
  - destruct (IH (S i0)) as (o & Eo & Ho).
    { intros i Hn. apply (H (S i)). exact Hn. }
    assert (Hshift : forall k i, In (k, i) o <->
              (i0 < i /\ nth (i - i0) (nm :: rest) ""%string = qn k)).
    { intros k i. rewrite Ho. split; intros [L E]; split; try lia.
      - replace (i - i0) with (S (i - S i0)) by lia. exact E.
      - replace (i - i0) with (S (i - S i0)) in E by lia. exact E. }
    destruct (string_dec nm ""%string) as [->|Hne].
    + exists o. simpl. split; auto. intros k i. rewrite Hshift.
      split; intros [L E]; split; auto; try lia.
      destruct (Nat.eq_dec i i0) as [->|]; [|lia].
      rewrite Nat.sub_diag in E. discriminate.
    + destruct (H 0 Hne) as (k0 & Ek). simpl in Ek. subst nm.
      exists ((k0, i0) :: o). simpl.
      fold (to_string k0). rewrite stoi_to_string, Eo. split; auto.
      intros k i. simpl. rewrite Hshift. split.
      * intros [[= <- <-]|[L E]].
        -- split; auto. now rewrite Nat.sub_diag.
        -- split; auto. lia.
      * intros [L E]. destruct (Nat.eq_dec i i0) as [->|Hn].
        -- left. rewrite Nat.sub_diag in E. apply qn_inj in E. congruence.
        -- right. split; auto. lia.
Qed.

Lemma get_order_ok d qname :
  names_ok d qname ->
  exists order, get_order qname = Some order /\
    forall k i, In (k, i) order <-> nth i qname ""%string = qn k.
Proof.
  intros N. destruct (@collect_order_ok qname 0 (no_qn N)) as (o & Eo & Ho).
  exists (sort_pairs o). unfold get_order. rewrite Eo. split; auto.
  intros k i. rewrite in_sort_pairs, Ho, Nat.sub_0_r. intuition lia.
Qed.

(** ** process_symbol and the emitted grammar *)

(** [idfa.states[i].t0] or [.t1], by symbol. *)
Definition d_tr (d : DFA) (i : nat) (b : bool) : Z :=
  if b then d_t1 (d_at d i) else d_t0 (d_at d i).

(** [next_is_accept && t0 == -1 && t1 == -1] *)
Definition pure_sink (st : DState) : bool :=
  d_accept st && (d_t0 st =? -1)%Z && (d_t1 st =? -1)%Z.

Definition long_prods (d : DFA) (i : nat) (qname : list string) (b : bool)
  : list Production :=
  if no_target qname (d_tr d i b) then []
  else if negb (pure_sink (d_at d (Z.to_nat (d_tr d i b))))
       then [mkProd (nth i qname ""%string) (sym_of b)
                    (nth (Z.to_nat (d_tr d i b)) qname ""%string)]
       else [].

Definition short_prods (d : DFA) (i : nat) (qname : list string) (b : bool)
  : list Production :=
  if no_target qname (d_tr d i b) then []
  else if d_accept (d_at d (Z.to_nat (d_tr d i b)))
       then [mkProd (nth i qname ""%string) (sym_of b) ""%string]
       else [].

Lemma process_symbol_eq d i qname :
  process_symbol d i qname [] =
  (long_prods d i qname false ++ long_prods d i qname true)
  ++ (short_prods d i qname false ++ short_prods d i qname true).
Proof.
  unfold process_symbol, symbol_step, long_prods, short_prods, pure_sink, d_tr.
  simpl.
  destruct (no_target qname (d_t0 (d_at d i)));
    destruct (no_target qname (d_t1 (d_at d i))); simpl;
    repeat match goal with
           | |- context [if ?c then _ else _] => destruct c; simpl
           end; reflexivity.
Qed.

Lemma in_process_symbol d i qname p :
  In p (process_symbol d i qname []) <->
  exists b,
    no_target qname (d_tr d i b) = false /\
    ((pure_sink (d_at d (Z.to_nat (d_tr d i b))) = false /\
      p = mkProd (nth i qname ""%string) (sym_of b)
                 (nth (Z.to_nat (d_tr d i b)) qname ""%string))
     \/ (d_accept (d_at d (Z.to_nat (d_tr d i b))) = true /\
         p = mkProd (nth i qname ""%string) (sym_of b) ""%string)).
Proof.
  rewrite process_symbol_eq, !in_app_iff.
  unfold long_prods, short_prods. split.
  - intros [[H|H]|[H|H]];
      [exists false|exists true|exists false|exists true];
      destruct (no_target _ _); try (now destruct H); split; auto.
    + destruct (pure_sink _); simpl in H; try (now destruct H).
      destruct H as [<-|[]]. auto.
    + destruct (pure_sink _); simpl in H; try (now destruct H).
      destruct H as [<-|[]]. auto.
    + destruct (d_accept _); simpl in H; try (now destruct H).
      destruct H as [<-|[]]. auto.
    + destruct (d_accept _); simpl in H; try (now destruct H).
      destruct H as [<-|[]]. auto.
  - intros (b & Hn & [[Hs ->]|[Ha ->]]); destruct b; rewrite Hn.
    + left; right. rewrite Hs. now left.
    + left; left. rewrite Hs. now left.
    + right; right. rewrite Ha. now left.
    + right; left. rewrite Ha. now left.
Qed.

Lemma in_grammar_of d qname order p :
  In p (grammar_of d qname order) <->
  exists k i, In (k, i) order /\ In p (process_symbol d i qname []).
Proof.
  unfold grammar_of. rewrite in_flat_map. split.
  - intros ([k i] & Hin & Hp). eauto.
  - intros (k & i & Hin & Hp). exists (k, i). auto.
Qed.

Lemma no_target_false qname nxt :
  no_target qname nxt = false ->
  nxt <> (-1)%Z /\ (nxt < Z.of_nat (length qname))%Z
  /\ nth (Z.to_nat nxt) qname ""%string <> ""%string.
Proof.
  unfold no_target. intros H.
  apply orb_false_iff in H as [H H3]. apply orb_false_iff in H as [H1 H2].
  apply Z.eqb_neq in H1. rewrite Z.geb_leb in H2. apply Z.leb_gt in H2.
  repeat split; auto.
  intros E. rewrite E in H3. discriminate.
Qed.

Lemma d_accepts_from_out d s w :
  in_range d s = false -> d_accepts_from d s w = false.
Proof.
  unfold d_accepts_from. revert s. induction w as [|b w IH]; intros s H; simpl.
  - unfold d_accepting. now rewrite d_get_none.
  - apply IH. unfold d_step. now rewrite d_get_none.
Qed.

Lemma d_tr_step d i b :
  i < length (d_states d) -> d_step d (Z.of_nat i) b = d_tr d i b.
Proof.
  intros H. rewrite d_step_at by (apply in_range_spec; lia).
  unfold d_tr. now rewrite Nat2Z.id.
Qed.

Section GrammarOfDFA.
Variable d : DFA.
Variable qname : list string.
Variable order : list (nat * nat).
Hypothesis Hpartial : d_partial d.
Hypothesis Hnames : names_ok d qname.
Hypothesis Horder : forall k i, In (k, i) order <-> nth i qname ""%string = qn k.

Let G := grammar_of d qname order.

Lemma named_in_order i : named qname i <-> exists k, In (k, i) order.
Proof.
  split.
  - intros H. destruct (no_qn Hnames H) as (k & E). exists k. now apply Horder.
  - intros (k & H). apply Horder in H. unfold named. rewrite H. apply qn_nonempty.
Qed.

Lemma named_succ i b :
  named qname i -> in_range d (d_tr d i b) = true ->
  named qname (Z.to_nat (d_tr d i b)).
Proof.
  intros Hn Hr. pose proof (named_lt Hn) as L. rewrite (no_len Hnames) in L.
  apply (no_reach Hnames) in Hn as [Hs R]; auto.
  pose proof Hr as Hr'. apply in_range_spec in Hr'.
  apply (no_reach Hnames); [lia|]. split; auto.
  rewrite Z2Nat.id by lia. rewrite <- d_tr_step by assumption.
  apply d_reach_step; auto; now rewrite d_tr_step.
Qed.

Lemma d_tr_partial i b :
  i < length (d_states d) ->
  d_tr d i b = (-1)%Z \/ in_range d (d_tr d i b) = true.
Proof.
  intros L. destruct (Hpartial (d_at d i)) as [H0 H1].
  - unfold d_at. now apply nth_In.
  - unfold d_tr. now destruct b.
Qed.

Lemma no_target_iff i b :
  named qname i ->
  (no_target qname (d_tr d i b) = false <-> in_range d (d_tr d i b) = true).
Proof.
  intros Hn. pose proof (named_lt Hn) as L. rewrite (no_len Hnames) in L.
  split.
  - intros H. apply no_target_false in H as (H1 & H2 & H3).
    destruct (d_tr_partial b L) as [E|E]; auto; contradiction.
  - intros Hr. pose proof (named_succ b Hn Hr) as Hn'.
    apply in_range_spec in Hr. unfold no_target.
    rewrite (no_len Hnames).
    apply orb_false_iff. split; [apply orb_false_iff; split|].
    + apply Z.eqb_neq. lia.
    + rewrite Z.geb_leb. apply Z.leb_gt. lia.
    + unfold named in Hn'. now destruct (nth _ qname ""%string).
Qed.

Lemma pure_sink_rejects s b w :
  in_range d s = true -> pure_sink (d_at d (Z.to_nat s)) = true ->
  d_accepts_from d s (b :: w) = false.
Proof.
  intros Hr Hp. unfold d_accepts_from. simpl.
  fold (d_accepts_from d (d_step d s b) w). apply d_accepts_from_out.
  rewrite d_step_at by assumption.
  unfold pure_sink in Hp.
  apply andb_prop in Hp as [Hp H1]. apply andb_prop in Hp as [_ H0].
  apply Z.eqb_eq in H0, H1. destruct b; rewrite ?H0, ?H1; reflexivity.
Qed.

Lemma accepts_derives w : forall i,
  named qname i -> w <> [] ->
  d_accepts_from d (Z.of_nat i) w = true ->
  derives G (nth i qname ""%string) w.
Proof.
  induction w as [|b w IH]; intros i Hn Hw Ha; [congruence|].
  pose proof (named_lt Hn) as L. rewrite (no_len Hnames) in L.
  unfold d_accepts_from in Ha. simpl in Ha.
  rewrite d_tr_step in Ha by assumption.
  fold (d_accepts_from d (d_tr d i b) w) in Ha.
  assert (Hr : in_range d (d_tr d i b) = true).
  { destruct (in_range d (d_tr d i b)) eqn:E; auto.
    rewrite d_accepts_from_out in Ha by assumption. discriminate. }
  pose proof (named_succ b Hn Hr) as Hn'.
  pose proof (proj2 (no_target_iff b Hn) Hr) as Hnt.
  destruct (named_in_order i) as [Ho _]. destruct (Ho Hn) as (k & Hk).
  pose proof Hr as Hr'. apply in_range_spec in Hr'.
  destruct w as [|b' w'].
  - apply derives_last. apply in_grammar_of. exists k, i. split; auto.
    apply in_process_symbol. exists b. split; auto. right. split; auto.
    unfold d_accepts_from in Ha. simpl in Ha. unfold d_accepting in Ha.
    now rewrite d_get_at in Ha.
  - apply derives_step with (B := nth (Z.to_nat (d_tr d i b)) qname ""%string).
    + exact Hn'.
    + apply in_grammar_of. exists k, i. split; auto.
      apply in_process_symbol. exists b. split; auto. left. split; auto.
      destruct (pure_sink _) eqn:Ps; auto.
      rewrite pure_sink_rejects in Ha by assumption. discriminate.
    + apply IH; auto; [discriminate|]. now rewrite Z2Nat.id by lia.
Qed.

Lemma production_source p :
  In p G ->
  exists i b, named qname i /\ in_range d (d_tr d i b) = true
    /\ p_lhs p = nth i qname ""%string /\ p_sym p = sym_of b
    /\ ((p_rhs p = nth (Z.to_nat (d_tr d i b)) qname ""%string
         /\ p_rhs p <> ""%string
         /\ pure_sink (d_at d (Z.to_nat (d_tr d i b))) = false)
        \/ (p_rhs p = ""%string
            /\ d_accept (d_at d (Z.to_nat (d_tr d i b))) = true)).
Proof.
  intros H. apply in_grammar_of in H as (k & i & Hk & Hp).
  apply in_process_symbol in Hp as (b & Hnt & Hcase).
  assert (Hn : named qname i) by (apply named_in_order; eauto).
  exists i, b. split; auto. split; [now apply no_target_iff|].
  apply no_target_false in Hnt as (_ & _ & Hne).
  destruct Hcase as [[Hs ->]|[Ha ->]]; simpl; auto 10.
Qed.

Lemma sym_of_inj b b' : sym_of b = sym_of b' -> b = b'.
Proof. destruct b, b'; simpl; congruence. Qed.

Lemma derives_accepts A w :
  derives G A w ->
  forall i, named qname i -> nth i qname ""%string = A ->
  d_accepts_from d (Z.of_nat i) w = true.
Proof.
  induction 1 as [A c Hin|A c B w HB Hin Hd IH]; intros i Hn HA.
  - apply production_source in Hin
      as (j & b & Hnj & Hr & Hl & Hsy & [(_ & Hne & _)|(_ & Hacc)]);
      simpl in *; [congruence|].
    assert (j = i) by (apply (no_inj Hnames); auto; congruence). subst j.
    apply sym_of_inj in Hsy. subst b.
    pose proof (named_lt Hn) as L. rewrite (no_len Hnames) in L.
    unfold d_accepts_from. simpl. rewrite d_tr_step by assumption.
    unfold d_accepting. now rewrite d_get_at.
  - apply production_source in Hin
      as (j & b & Hnj & Hr & Hl & Hsy & [(Hrhs & Hne & _)|(Hrhs & _)]);
      simpl in *; [|congruence].
    assert (j = i) by (apply (no_inj Hnames); auto; congruence). subst j.
    apply sym_of_inj in Hsy. subst b.
    pose proof (named_lt Hn) as L. rewrite (no_len Hnames) in L.
    unfold d_accepts_from. simpl. rewrite d_tr_step by assumption.
    fold (d_accepts_from d (d_tr d i c) w).
    pose proof Hr as Hr'. apply in_range_spec in Hr'.
    rewrite <- (Z2Nat.id (d_tr d i c)) by lia.
    apply IH; auto. apply named_succ; auto.
Qed.

End GrammarOfDFA.

(** The grammar and the automaton agree on every non-empty word. *)
Lemma grammar_matches_dfa (d : DFA) :
  d_partial d -> in_range d (d_start d) = true ->
  exists G, emit_grammar d = Some G /\
    forall w, w <> [] ->
      (derives G "q0"%string w <-> d_accepts d w = true).
Proof.
  intros Hp Hs.
  destruct (name_states_ok d) as (qname & Eq & N).
  destruct (get_order_ok N) as (order & Eo & Ho).
  exists (grammar_of d qname order). unfold emit_grammar. rewrite Eq, Eo.
  split; auto. intros w Hw.
  pose proof Hs as Hs'. apply in_range_spec in Hs'.
  assert (Hn : named qname (Z.to_nat (d_start d))).
  { unfold named. rewrite (no_start N Hs). discriminate. }
  assert (E : d_accepts d w
              = d_accepts_from d (Z.of_nat (Z.to_nat (d_start d))) w)
    by (unfold d_accepts; now rewrite Z2Nat.id by lia).
  rewrite E. split.
  - intros H. eapply derives_accepts; eauto. now apply (no_start N).
  - intros H. rewrite <- (no_start N Hs). now apply accepts_derives.
Qed.

(** No production derives the empty word. *)
Lemma derives_nonempty G A w : derives G A w -> w <> [].
Proof. destruct 1; discriminate. Qed.

(** ** DFAMinimizer *)

(** [array<int,3>] with the lexicographic order of [std::map]. *)
Definition Key : Type := (Z * Z * Z)%type.

Definition key_compare (a b : Key) : comparison :=
  let '(a1, a2, a3) := a in
  let '(b1, b2, b3) := b in
  match Z.compare a1 b1 with
  | Eq => match Z.compare a2 b2 with
          | Eq => Z.compare a3 b3
          | c => c
          end
  | c => c
  end.

Definition key_lt (a b : Key) : Prop := key_compare a b = Lt.

(** [map<array<int,3>, vector<int>> groups], in the order of iteration. *)
Definition Groups : Type := list (Key * list nat).

(** [groups[key].push_back(i)] *)
Fixpoint group_add (k : Key) (i : nat) (g : Groups) : Groups :=
  match g with
  | [] => [(k, [i])]
  | (k', v) :: g' =>
      match key_compare k k' with
      | Lt => (k, [i]) :: g
      | Eq => (k', v ++ [i]) :: g'
      | Gt => (k', v) :: group_add k i g'
      end
  end.

(** [partition[z]] for an [int] index. *)
Definition pclass (P : list Z) (z : Z) : Z := nth (Z.to_nat z) P 0%Z.

(** [{partition[i], partition[t0], partition[t1]}] *)
Definition key_of (d : DFA) (P : list Z) (i : nat) : Key :=
  (nth i P 0%Z, pclass P (d_t0 (d_at d i)), pclass P (d_t1 (d_at d i))).

Definition build_groups (d : DFA) (P : list Z) : Groups :=
  fold_left (fun g i => group_add (key_of d P i) i g)
            (seq 0 (length (d_states d))) [].

(** [for (auto &g : groups) { for (auto s : g.second) new_partition[s] =
    new_class; new_class++; }] *)
Fixpoint assign_classes (g : Groups) (new_class : Z) (np : list Z) : list Z :=
  match g with
  | [] => np
  | (_, members) :: g' =>
      assign_classes g' (new_class + 1)%Z
        (fold_left (fun np s => set_nth s new_class np) members np)
  end.

(** One pass of the [while (changed)] loop: the new partition. *)
Definition refine (d : DFA) (P : list Z) : list Z :=
  assign_classes (build_groups d P) 0%Z (repeat 0%Z (length (d_states d))).

Definition partition_eqb (P Q : list Z) : bool :=
  if list_eq_dec Z.eq_dec P Q then true else false.

(** The [while (changed)] loop; the result is the final partition and the
    number of passes made. *)
Fixpoint refine_loop (fuel : nat) (d : DFA) (P : list Z) (passes : nat)
  : option (list Z * nat) :=
  match fuel with
  | O => None
  | S fuel' =>
      let np := refine d P in
      if partition_eqb np P then Some (P, S passes)
      else refine_loop fuel' d np (S passes)
  end.

Definition initial_partition (d : DFA) : list Z :=
  map (fun st => if d_accept st then 1%Z else 0%Z) (d_states d).

(** [*max_element(partition.begin(), partition.end())] *)
Definition max_element (P : list Z) : Z :=
  match P with
  | [] => 0%Z
  | x :: r => fold_left Z.max r x
  end.

(** [for (i...) if (repr[partition[i]] < 0) repr[partition[i]] = i;] *)
Definition representatives (P : list Z) (count_classes : nat) : list Z :=
  fold_left
    (fun repr i =>
       if (nth (Z.to_nat (nth i P 0%Z)) repr (-1)%Z <? 0)%Z
       then set_nth (Z.to_nat (nth i P 0%Z)) (Z.of_nat i) repr
       else repr)
    (seq 0 (length P)) (repeat (-1)%Z count_classes).

(** [class_accept] of class [c]. *)
Definition class_accept (d : DFA) (P : list Z) (c : Z) : bool :=
  existsb (fun i => (nth i P 0%Z =? c)%Z && d_accept (d_at d i))
          (seq 0 (length (d_states d))).

Definition class_state (d : DFA) (P : list Z) (repr : list Z) (c : nat)
  : DState :=
  let s := Z.to_nat (nth c repr (-1)%Z) in
  mkDState (Z.of_nat c) (class_accept d P (Z.of_nat c))
           (pclass P (d_t0 (d_at d s))) (pclass P (d_t1 (d_at d s))).

(** The DFA built from the final partition. *)
Definition quotient (d : DFA) (P : list Z) : DFA :=
  let count_classes := Z.to_nat (max_element P + 1) in
  let repr := representatives P count_classes in
  mkDFA (map (class_state d P repr) (seq 0 count_classes))
        (pclass P (d_start d)) (pclass P (d_trap d)).

Definition minimize_passes (d : DFA) : option (DFA * nat) :=
  match refine_loop (S (S (length (d_states d)))) d (initial_partition d) 0 with
  | Some (P, passes) => Some (quotient d P, passes)
  | None => None
  end.

Definition minimize (d : DFA) : option DFA :=
  option_map fst (minimize_passes d).

(** *** The order on keys *)

Lemma key_compare_eq a b : key_compare a b = Eq <-> a = b.
Proof.
  destruct a as [[a1 a2] a3], b as [[b1 b2] b3]. simpl.
  destruct (Z.compare_spec a1 b1); destruct (Z.compare_spec a2 b2);
    destruct (Z.compare_spec a3 b3); split; intros E; try discriminate;
    try (injection E as -> -> ->); subst; auto; lia.
Qed.

Lemma key_compare_refl a : key_compare a a = Eq.
Proof. now apply key_compare_eq. Qed.

Lemma key_compare_antisym a b : key_compare a b = CompOpp (key_compare b a).
Proof.
  destruct a as [[a1 a2] a3], b as [[b1 b2] b3]. simpl.
  rewrite (Z.compare_antisym b1 a1), (Z.compare_antisym b2 a2),
          (Z.compare_antisym b3 a3).
  destruct (b1 ?= a1)%Z; simpl; auto.
  destruct (b2 ?= a2)%Z; simpl; auto.
Qed.

Lemma key_lt_trans a b c : key_lt a b -> key_lt b c -> key_lt a c.
Proof.
  unfold key_lt.
  destruct a as [[a1 a2] a3], b as [[b1 b2] b3], c as [[c1 c2] c3]. simpl.
  destruct (Z.compare_spec a1 b1); destruct (Z.compare_spec b1 c1);
    destruct (Z.compare_spec a1 c1); try discriminate; try lia; auto;
  destruct (Z.compare_spec a2 b2); destruct (Z.compare_spec b2 c2);
    destruct (Z.compare_spec a2 c2); try discriminate; try lia; auto;
  destruct (Z.compare_spec a3 b3); destruct (Z.compare_spec b3 c3);
    destruct (Z.compare_spec a3 c3); try discriminate; try lia; auto.
Qed.

Lemma key_lt_irrefl a : ~ key_lt a a.
Proof. unfold key_lt. now rewrite key_compare_refl. Qed.

Lemma key_lt_fst a b : key_lt a b -> (fst (fst a) <= fst (fst b))%Z.
Proof.
  unfold key_lt. destruct a as [[a1 a2] a3], b as [[b1 b2] b3]. simpl.
  destruct (Z.compare_spec a1 b1); try discriminate; lia.
Qed.

Lemma fst_lt_key a b : (fst (fst a) < fst (fst b))%Z -> key_lt a b.
Proof.
  unfold key_lt. destruct a as [[a1 a2] a3], b as [[b1 b2] b3]. simpl.
  destruct (Z.compare_spec a1 b1); auto; lia.
Qed.

Definition key_eq_dec (a b : Key) : {a = b} + {a <> b}.
Proof. repeat decide equality. Defined.

(** *** Groups *)

Definition keys (g : Groups) : list Key := map fst g.

(** The (key, index) pairs stored in the map. *)
Definition entries (g : Groups) : list (Key * nat) :=
  flat_map (fun kv => map (pair (fst kv)) (snd kv)) g.

Lemma in_entries g k i :
  In (k, i) (entries g) <-> exists v, In (k, v) g /\ In i v.
Proof.
  unfold entries. rewrite in_flat_map. split.
  - intros ([k' v] & Hin & Hm). simpl in Hm.
    apply in_map_iff in Hm as (j & [= <- <-] & Hj). eauto.
  - intros (v & Hin & Hi). exists (k, v). split; auto.
    simpl. apply in_map_iff. eauto.
Qed.

Lemma group_add_keys k i g k' :
  In k' (keys (group_add k i g)) <-> k' = k \/ In k' (keys g).
Proof.
  induction g as [|[k0 v] g IH]; simpl.
  - intuition.
  - destruct (key_compare k k0) eqn:C; simpl.
    + apply key_compare_eq in C. subst k0. intuition.
    + intuition.
    + unfold keys in IH. rewrite IH. intuition.
Qed.

Lemma group_add_entries k i g k' j :
  In (k', j) (entries (group_add k i g)) <->
  (k' = k /\ j = i) \/ In (k', j) (entries g).
Proof.
  induction g as [|[k0 v] g IH]; simpl.
  - intuition congruence.
  - destruct (key_compare k k0) eqn:C; simpl.
    + apply key_compare_eq in C. subst k0.
      rewrite map_app, !in_app_iff. simpl. intuition congruence.
    + rewrite !in_app_iff. simpl. intuition congruence.
    + rewrite !in_app_iff. fold (entries (group_add k i g)).
      fold (entries g). rewrite IH. intuition.
Qed.

Lemma group_add_sorted k i g :
  StronglySorted key_lt (keys g) -> StronglySorted key_lt (keys (group_add k i g)).
Proof.
  induction g as [|[k0 v] g IH]; simpl; intros S.
  - repeat constructor.
  - destruct (key_compare k k0) eqn:C; simpl.
    + exact S.
    + constructor; auto. constructor; auto.
      inversion S as [|? ? _ F]; subst.
      eapply Forall_impl; [|exact F]. intros a Ha.
      eapply key_lt_trans; eauto.
    + inversion S as [|? ? S' F]; subst.
      constructor; [now apply IH|].
      apply Forall_forall. intros a Ha.
      apply group_add_keys in Ha as [->|Ha].
      * unfold key_lt. rewrite key_compare_antisym, C. reflexivity.
      * rewrite Forall_forall in F. now apply F.
Qed.

Lemma group_add_nonempty k i g :
  Forall (fun kv => snd kv <> []) g ->
  Forall (fun kv => snd kv <> []) (group_add k i g).
Proof.
  induction g as [|[k0 v] g IH]; simpl; intros F.
  - repeat constructor. discriminate.
  - inversion F as [|? ? Hv F']; subst.
    destruct (key_compare k k0); constructor; simpl; auto.
    + now destruct v.
    + discriminate.
Qed.

Lemma sorted_keys_nodup ks : StronglySorted key_lt ks -> NoDup ks.
Proof.
  induction 1 as [|a l S IH F]; constructor; auto.
  intros Hin. rewrite Forall_forall in F. apply (key_lt_irrefl (F _ Hin)).
Qed.

Section BuildGroups.
Variable d : DFA.
Variable P : list Z.
Let n := length (d_states d).
Let K := key_of d P.

Lemma build_groups_spec :
  let g := build_groups d P in
  StronglySorted key_lt (keys g) /\
  Forall (fun kv => snd kv <> []) g /\
  (forall k, In k (keys g) <-> exists i, i < n /\ k = K i) /\
  (forall k i, In (k, i) (entries g) <-> i < n /\ k = K i).
Proof.
  unfold build_groups. fold n. fold K.
  assert (H : forall m g0,
    StronglySorted key_lt (keys g0) ->
    Forall (fun kv => snd kv <> []) g0 ->
    (forall k, In k (keys g0) <-> exists i, i < 0 /\ k = K i) ->
    (forall k i, In (k, i) (entries g0) <-> i < 0 /\ k = K i) ->
    let g := fold_left (fun g i => group_add (K i) i g) (seq 0 m) g0 in
    StronglySorted key_lt (keys g) /\
    Forall (fun kv => snd kv <> []) g /\
    (forall k, In k (keys g) <-> exists i, i < m /\ k = K i) /\
    (forall k i, In (k, i) (entries g) <-> i < m /\ k = K i)).
  { induction m as [|m IH]; intros g0 S F Hk He.
    - simpl. auto.
    - rewrite seq_S, fold_left_app. simpl.
      destruct (IH g0 S F Hk He) as (S' & F' & Hk' & He').
      repeat split.
      + now apply group_add_sorted.
      + now apply group_add_nonempty.
      + intros Hin. apply group_add_keys in Hin as [->|Hin].
        * exists m. split; auto.
        * apply Hk' in Hin as (i & Hi & ->). exists i. split; auto.
      + intros (i & Hi & ->). apply group_add_keys.
        destruct (Nat.eq_dec i m) as [->|Hne]; auto.
        right. apply Hk'. exists i. split; auto. lia.
      + apply group_add_entries in H as [[-> ->]|Hin]; auto.
        apply He' in Hin. lia.
      + apply group_add_entries in H as [[-> ->]|Hin]; auto.
        now apply He' in Hin.
      + intros [Hi ->]. apply group_add_entries.
        destruct (Nat.eq_dec i m) as [->|Hne]; auto.
        right. apply He'. split; auto. lia. }
  apply H.
  - constructor.
  - constructor.
  - intros k. simpl. split; [tauto|]. intros (i & Hi & _). lia.
  - intros k i. simpl. split; [tauto|]. lia.
Qed.

End BuildGroups.

(** *** The class a pass assigns: the rank of the key *)

(** The position of the first occurrence of [k] in [ks]. *)
Fixpoint pos (k : Key) (ks : list Key) : nat :=
  match ks with
  | [] => 0
  | k' :: r => if key_eq_dec k k' then 0 else S (pos k r)
  end.

Definition key0 : Key := (0, 0, 0)%Z.

Lemma pos_lt k ks : In k ks -> pos k ks < length ks.
Proof.
  induction ks as [|a r IH]; simpl; [tauto|].
  intros H. destruct (key_eq_dec k a); [lia|].
  destruct H as [->|H]; [congruence|]. apply IH in H. lia.
Qed.

Lemma nth_pos k ks : In k ks -> nth (pos k ks) ks key0 = k.
Proof.
  induction ks as [|a r IH]; simpl; [tauto|].
  intros H. destruct (key_eq_dec k a); [congruence|].
  destruct H as [->|H]; [congruence|]. now apply IH.
Qed.

Lemma pos_inj k k' ks : In k ks -> In k' ks -> pos k ks = pos k' ks -> k = k'.
Proof.
  intros H H' E. rewrite <- (@nth_pos k ks H), <- (@nth_pos k' ks H'). now rewrite E.
Qed.

Lemma pos_nth j ks : NoDup ks -> j < length ks -> pos (nth j ks key0) ks = j.
Proof.
  revert j. induction ks as [|a r IH]; simpl; intros j N L; [lia|].
  inversion N as [|? ? Hn N']; subst.
  destruct j as [|j].
  - now destruct (key_eq_dec a a).
  - destruct (key_eq_dec (nth j r key0) a) as [E|E].
    + exfalso. apply Hn. rewrite <- E. apply nth_In. lia.
    + f_equal. apply IH; auto. lia.
Qed.

Lemma pos_sorted k k' ks :
  StronglySorted key_lt ks -> In k ks -> In k' ks -> key_lt k k' ->
  pos k ks < pos k' ks.
Proof.
  induction 1 as [|a r S IH F]; simpl; [tauto|].
  intros H H' L. rewrite Forall_forall in F.
  destruct (key_eq_dec k a) as [->|Ea]; destruct (key_eq_dec k' a) as [->|Ea'].
  - now apply key_lt_irrefl in L.
  - lia.
  - exfalso. destruct H as [->|H]; [congruence|].
    apply (@key_lt_irrefl a). eapply key_lt_trans; eauto.
  - destruct H as [->|H]; [congruence|]. destruct H' as [->|H']; [congruence|].
    specialize (IH H H' L). lia.
Qed.

Lemma length_fold_set (c : Z) members np :
  length (fold_left (fun np s => set_nth s c np) members np) = length np.
Proof.
  revert np. induction members as [|s r IH]; intros np; simpl; auto.
  now rewrite IH, length_set_nth.
Qed.

Lemma fold_set_notin (c : Z) members np i :
  ~ In i members ->
  nth i (fold_left (fun np s => set_nth s c np) members np) 0%Z = nth i np 0%Z.
Proof.
  revert np. induction members as [|s r IH]; intros np H; simpl; auto.
  rewrite IH by (intros X; apply H; now right).
  apply nth_set_nth_ne. intros ->. apply H. now left.
Qed.

Lemma fold_set_in (c : Z) members np i :
  In i members -> i < length np ->
  nth i (fold_left (fun np s => set_nth s c np) members np) 0%Z = c.
Proof.
  revert np. induction members as [|s r IH]; intros np H L; simpl; [destruct H|].
  destruct (in_dec Nat.eq_dec i r) as [Hr|Hr].
  - apply IH; auto. now rewrite length_set_nth.
  - destruct H as [->|H]; [|contradiction].
    rewrite fold_set_notin by assumption. now apply nth_set_nth_eq.
Qed.

Lemma length_assign_classes g c np :
  length (assign_classes g c np) = length np.
Proof.
  revert c np. induction g as [|[k v] g IH]; intros c np; simpl; auto.
  now rewrite IH, length_fold_set.
Qed.

Lemma entries_keys g k i : In (k, i) (entries g) -> In k (keys g).
Proof.
  intros H. apply in_entries in H as (v & Hin & _).
  unfold keys. apply in_map_iff. exists (k, v). auto.
Qed.

Lemma assign_classes_spec (K : nat -> Key) g : forall c np,
  NoDup (keys g) ->
  (forall k j, In (k, j) (entries g) -> k = K j) ->
  forall i, i < length np ->
    (In (K i, i) (entries g) ->
       nth i (assign_classes g c np) 0%Z = (c + Z.of_nat (pos (K i) (keys g)))%Z) /\
    (~ In (K i, i) (entries g) ->
       nth i (assign_classes g c np) 0%Z = nth i np 0%Z).
Proof.
  induction g as [|[k v] g IH]; intros c np N HK i L.
  - simpl. split; [tauto|auto].
  - simpl in N. inversion N as [|? ? Hk N']; subst.
    assert (HK' : forall k' j, In (k', j) (entries g) -> k' = K j).
    { intros k' j H. apply HK. simpl. apply in_or_app. now right. }
    specialize (IH (c + 1)%Z
                  (fold_left (fun np s => set_nth s c np) v np) N' HK' i).
    rewrite length_fold_set in IH. destruct (IH L) as [IH1 IH2].
    simpl. split.
    + intros H. apply in_app_or in H as [H|H].
      * apply in_map_iff in H as (j & [= -> <-] & Hj).
        destruct (key_eq_dec (K j) (K j)); [|congruence].
        rewrite IH2.
        -- rewrite fold_set_in by assumption. lia.
        -- intros X. apply Hk. eapply entries_keys; eauto.
      * destruct (key_eq_dec (K i) k) as [E|E].
        -- exfalso. apply Hk. rewrite <- E. eapply entries_keys; eauto.
        -- rewrite IH1 by assumption. lia.
    + intros H. rewrite IH2.
      * apply fold_set_notin. intros Hv. apply H. apply in_or_app. left.
        assert (E : k = K i).
        { apply HK. simpl. apply in_or_app. left. apply in_map_iff. eauto. }
        subst k. apply in_map_iff. eauto.
      * intros X. apply H. apply in_or_app. now right.
Qed.

Section Refine.
Variable d : DFA.
Variable P : list Z.
Let n := length (d_states d).
Let K := key_of d P.
Let ks := keys (build_groups d P).

Lemma length_refine : length (refine d P) = n.
Proof. unfold refine. now rewrite length_assign_classes, repeat_length. Qed.

Lemma refine_rank i :
  i < n -> nth i (refine d P) 0%Z = Z.of_nat (pos (K i) ks).
Proof.
  intros L. unfold refine.
  destruct (build_groups_spec d P) as (S & F & Hk & He).
  destruct (@assign_classes_spec K (build_groups d P) 0%Z (repeat 0%Z n))
    with (i := i) as [H _].
  - now apply sorted_keys_nodup.
  - intros k j H. now apply He in H.
  - now rewrite repeat_length.
  - fold n. rewrite H; [reflexivity|]. apply He. auto.
Qed.

Lemma ks_sorted : StronglySorted key_lt ks.
Proof. apply build_groups_spec. Qed.

Lemma in_ks k : In k ks <-> exists i, i < n /\ k = K i.
Proof. apply build_groups_spec. Qed.

Lemma key_in_ks i : i < n -> In (K i) ks.
Proof. intros L. apply in_ks. eauto. Qed.

(** Two states get the same new class exactly when their keys agree. *)
Lemma refine_same i j :
  i < n -> j < n ->
  (nth i (refine d P) 0%Z = nth j (refine d P) 0%Z <-> K i = K j).
Proof.
  intros Li Lj. rewrite !refine_rank by assumption. split.
  - intros E. apply Nat2Z.inj in E.
    apply (@pos_inj _ _ ks); auto using key_in_ks.
  - now intros ->.
Qed.

(** The new class ids follow the order of the keys. *)
Lemma refine_order i j :
  i < n -> j < n -> key_lt (K i) (K j) ->
  (nth i (refine d P) 0%Z < nth j (refine d P) 0%Z)%Z.
Proof.
  intros Li Lj H. rewrite !refine_rank by assumption.
  apply inj_lt. apply pos_sorted; auto using key_in_ks, ks_sorted.
Qed.

(** The new class ids are exactly [0 .. length ks - 1]. *)
Lemma refine_range c :
  (0 <= c < Z.of_nat (length ks))%Z <->
  exists i, i < n /\ nth i (refine d P) 0%Z = c.
Proof.
  split.
  - intros Hc.
    assert (Hin : In (nth (Z.to_nat c) ks key0) ks) by (apply nth_In; lia).
    apply in_ks in Hin as (i & Li & E). exists i. split; auto.
    rewrite refine_rank by assumption. rewrite <- E.
    rewrite pos_nth; try lia. apply sorted_keys_nodup, ks_sorted.
  - intros (i & Li & <-). rewrite refine_rank by assumption.
    pose proof (pos_lt _ _ (key_in_ks Li)). lia.
Qed.

Lemma length_ks_le : length ks <= n.
Proof.
  assert (H : length ks <= length (map K (seq 0 n))).
  { apply NoDup_incl_length.
    - apply sorted_keys_nodup, ks_sorted.
    - intros k Hk. apply in_ks in Hk as (i & Li & ->).
      apply in_map. apply in_seq. lia. }
  now rewrite length_map, length_seq in H.
Qed.

End Refine.

(** *** Canonical partitions and the fixpoint *)

(** The class ids of [P] are exactly [0 .. k-1]. *)
Definition canon (d : DFA) (k : nat) (P : list Z) : Prop :=
  length P = length (d_states d) /\
  forall c, (0 <= c < Z.of_nat k)%Z <->
            exists i, i < length (d_states d) /\ nth i P 0%Z = c.

Definition key_class (k : Key) : Z := fst (fst k).

Lemma sorted_range_nth (l : list Z) : forall a,
  StronglySorted Z.lt l ->
  (forall x, In x l -> (a <= x < a + Z.of_nat (length l))%Z) ->
  forall j, j < length l -> nth j l 0%Z = (a + Z.of_nat j)%Z.
Proof.
  induction l as [|x r IH]; intros a Hs B j L; [simpl in L; lia|].
  inversion Hs as [|? ? S' F]; subst. rewrite Forall_forall in F.
  assert (Bx : (a <= x < a + Z.of_nat (S (length r)))%Z)
    by (apply B; now left).
  assert (Br : forall y, In y r -> (a + 1 <= y < a + 1 + Z.of_nat (length r))%Z).
  { intros y Hy. specialize (F y Hy).
    assert (By : (a <= y < a + Z.of_nat (S (length r)))%Z)
      by (apply B; now right).
    lia. }
  assert (Hx : x = a).
  { destruct r as [|y r'].
    - simpl in Bx. lia.
    - assert (Hy : nth 0 (y :: r') 0%Z = (a + 1 + Z.of_nat 0)%Z).
      { apply (IH (a + 1)%Z S' Br 0). simpl. lia. }
      simpl in Hy.
      specialize (F y (or_introl eq_refl)). lia. }
  destruct j as [|j].
  - simpl. lia.
  - cbn [length] in L. cbn [nth]. rewrite (IH (a + 1)%Z S' Br j) by lia. lia.
Qed.

Lemma sorted_le_nodup_lt (l : list Z) :
  StronglySorted Z.le l -> NoDup l -> StronglySorted Z.lt l.
Proof.
  induction 1 as [|x r S IH F]; intros N; constructor;
    inversion N as [|? ? Hx N']; subst; auto.
  rewrite Forall_forall in *. intros y Hy.
  specialize (F y Hy). assert (x <> y) by (intros ->; contradiction). lia.
Qed.

Lemma nodup_of_nat_seq k : NoDup (map Z.of_nat (seq 0 k)).
Proof.
  apply Finite.Injective_map_NoDup.
  - intros a b. apply Nat2Z.inj.
  - apply seq_NoDup.
Qed.

Lemma sorted_key_classes ks :
  StronglySorted key_lt ks -> StronglySorted Z.le (map key_class ks).
Proof.
  induction 1 as [|a r Hs IH F]; simpl; constructor; auto.
  rewrite Forall_forall in *. intros y Hy.
  apply in_map_iff in Hy as (b & <- & Hb). apply key_lt_fst. auto.
Qed.

Section Canonical.
Variable d : DFA.
Variable P : list Z.
Let n := length (d_states d).
Let K := key_of d P.
Let ks := keys (build_groups d P).

Lemma refine_canon : canon d (length ks) (refine d P).
Proof.
  split.
  - apply length_refine.
  - apply refine_range.
Qed.

Lemma key_class_of i : key_class (K i) = nth i P 0%Z.
Proof. reflexivity. Qed.

Lemma classes_incl_keys k :
  canon d k P -> incl (map Z.of_nat (seq 0 k)) (map key_class ks).
Proof.
  intros [_ C] c Hc. apply in_map_iff in Hc as (j & <- & Hj).
  apply in_seq in Hj.
  destruct (proj1 (C (Z.of_nat j))) as (i & Li & E); [lia|].
  apply in_map_iff. exists (K i). split; auto.
  now apply key_in_ks.
Qed.

Lemma canon_le_groups k : canon d k P -> k <= length ks.
Proof.
  intros C.
  pose proof (NoDup_incl_length (nodup_of_nat_seq k) (classes_incl_keys C)) as H.
  now rewrite !length_map, length_seq in H.
Qed.

Lemma canon_fix k : canon d k P -> length ks = k -> refine d P = P.
Proof.
  intros C E. pose proof C as [LP CP].
  set (firsts := map key_class ks).
  assert (Lf : length firsts = k) by (unfold firsts; now rewrite length_map).
  assert (Nf : NoDup firsts).
  { apply (@NoDup_incl_NoDup _ (map Z.of_nat (seq 0 k))).
    - apply nodup_of_nat_seq.
    - rewrite length_map, length_seq. lia.
    - now apply classes_incl_keys. }
  assert (Sf : StronglySorted Z.lt firsts).
  { apply sorted_le_nodup_lt; auto. unfold firsts.
    apply sorted_key_classes. apply ks_sorted. }
  assert (Bf : forall x, In x firsts -> (0 <= x < 0 + Z.of_nat (length firsts))%Z).
  { intros x Hx. apply in_map_iff in Hx as (a & <- & Ha).
    apply in_ks in Ha as (i & Li & ->). rewrite Lf. simpl.
    apply CP. exists i. split; auto. }
  apply nth_ext with (d := 0%Z) (d' := 0%Z).
  - now rewrite length_refine.
  - rewrite length_refine. intros i Li.
    rewrite (refine_rank _ _ Li). fold K. fold ks.
    pose proof (pos_lt _ _ (key_in_ks d P Li)) as Lp. fold K in Lp. fold ks in Lp.
    pose proof (@sorted_range_nth firsts 0%Z Sf Bf (pos (K i) ks)) as Hn.
    rewrite Lf, <- E in Hn. specialize (Hn Lp).
    simpl in Hn. rewrite <- Hn. unfold firsts.
    rewrite (nth_indep _ 0%Z (key_class key0)) by (rewrite length_map; lia).
    rewrite map_nth. rewrite nth_pos by (apply key_in_ks; auto).
    reflexivity.
Qed.

End Canonical.

(** *** The refinement loop terminates *)

Lemma partition_eqb_spec P Q : partition_eqb P Q = true <-> P = Q.
Proof.
  unfold partition_eqb. destruct (list_eq_dec Z.eq_dec P Q); split; auto.
  discriminate.
Qed.

Lemma canon_le d' k P : canon d' k P -> k <= length (d_states d').
Proof.
  intros C. pose proof (canon_le_groups C). pose proof (length_ks_le d' P). lia.
Qed.

Section RefineLoop.
Variable d : DFA.
Variable Inv : list Z -> Prop.
Hypothesis Inv_refine : forall P, Inv P -> Inv (refine d P).
Let n := length (d_states d).

Lemma refine_loop_canon : forall fuel P passes k,
  canon d k P -> Inv P -> n - k < fuel ->
  exists P' q,
    refine_loop fuel d P passes = Some (P', q) /\
    refine d P' = P' /\ Inv P' /\ (exists k', canon d k' P') /\
    passes < q <= passes + (n - k) + 1.
Proof.
  induction fuel as [|fuel IH]; intros P passes k C I F; [lia|].
  simpl. destruct (partition_eqb (refine d P) P) eqn:E.
  - apply partition_eqb_spec in E. exists P, (S passes).
    repeat split; eauto; lia.
  - set (k' := length (keys (build_groups d P))).
    assert (Hk : k < k').
    { pose proof (canon_le_groups C) as Hle. fold k' in Hle.
      destruct (Nat.eq_dec k' k) as [Ek|Ek]; [|lia].
      rewrite (canon_fix C Ek) in E.
      assert (X : partition_eqb P P = true) by now apply partition_eqb_spec.
      congruence. }
    pose proof (refine_canon d P) as C'. fold k' in C'.
    pose proof (canon_le C') as Hn. fold n in Hn.
    destruct (IH (refine d P) (S passes) k' C' (Inv_refine I))
      as (P' & q & Eq & Fx & I' & Ck & Hq); [lia|].
    exists P', q. repeat split; auto; lia.
Qed.

Lemma initial_partition_nth i :
  nth i (initial_partition d) 0%Z = if d_accept (d_at d i) then 1%Z else 0%Z.
Proof.
  exact (map_nth (fun st => if d_accept st then 1%Z else 0%Z)
                 (d_states d) dflt_state i).
Qed.

(** With a non-accepting state the initial class ids are [0] or [0,1]. *)
Lemma initial_canon :
  (exists i, i < n /\ d_accept (d_at d i) = false) ->
  exists k, 1 <= k /\ canon d k (initial_partition d).
Proof.
  intros (i0 & L0 & A0).
  destruct (existsb (fun i => d_accept (d_at d i)) (seq 0 n)) eqn:E.
  - apply existsb_exists in E as (i1 & L1 & A1). apply in_seq in L1.
    exists 2. split; [lia|]. split.
    + unfold initial_partition. now rewrite length_map.
    + intros c. split.
      * intros Hc. assert (c = 0 \/ c = 1)%Z as [->| ->] by lia.
        -- exists i0. split; auto. now rewrite initial_partition_nth, A0.
        -- exists i1. split; [lia|]. now rewrite initial_partition_nth, A1.
      * intros (i & L & <-). rewrite initial_partition_nth.
        destruct (d_accept (d_at d i)); lia.
  - exists 1. split; [lia|]. split.
    + unfold initial_partition. now rewrite length_map.
    + intros c. split.
      * intros Hc. assert (c = 0)%Z as -> by lia.
        exists i0. split; auto. now rewrite initial_partition_nth, A0.
      * intros (i & L & <-). rewrite initial_partition_nth.
        assert (A : d_accept (d_at d i) = false).
        { destruct (d_accept (d_at d i)) eqn:A; auto.
          assert (X : existsb (fun i => d_accept (d_at d i)) (seq 0 n) = true).
          { apply existsb_exists. exists i. split; auto. apply in_seq. lia. }
          congruence. }
        rewrite A. lia.
Qed.

Lemma refine_loop_initial :
  Inv (initial_partition d) ->
  exists P q,
    refine_loop (S (S n)) d (initial_partition d) 0 = Some (P, q) /\
    refine d P = P /\ Inv P /\ (exists k, canon d k P) /\
    1 <= q <= S n /\
    ((exists i, i < n /\ d_accept (d_at d i) = false) -> q <= n).
Proof.
  intros I0. set (P0 := initial_partition d).
  cbn [refine_loop]. destruct (partition_eqb (refine d P0) P0) eqn:E.
  - apply partition_eqb_spec in E. exists P0, 1.
    repeat split; auto; try lia.
    + exists (length (keys (build_groups d P0))). rewrite <- E at 2.
      apply refine_canon.
    + intros (i & L & _). lia.
  - set (k1 := length (keys (build_groups d P0))).
    pose proof (refine_canon d P0) as C1. fold k1 in C1.
    pose proof (canon_le C1) as Hn. fold n in Hn.
    destruct (@refine_loop_canon (S n) (refine d P0) 1 k1 C1 (Inv_refine I0))
      as (P & q & Eq & Fx & I & Ck & Hq); [lia|].
    exists P, q. repeat split; auto; try lia.
    + assert (n <> 0).
      { intros Z0. apply not_true_iff_false in E. apply E.
        apply partition_eqb_spec.
        assert (L0 : length P0 = 0)
          by (unfold P0, initial_partition; now rewrite length_map).
        pose proof (length_refine d P0) as L1. fold n in L1. rewrite Z0 in L1.
        destruct P0; [|discriminate]. now destruct (refine d []). }
      assert (1 <= k1).
      { destruct C1 as [_ C1].
        destruct (Nat.eq_dec k1 0) as [Z1|]; [|lia]. exfalso.
        destruct (proj2 (C1 (nth 0 (refine d P0) 0%Z))); [|lia].
        exists 0. split; auto. lia. }
      lia.
    + intros Hna. destruct (initial_canon Hna) as (k0 & H1 & C0).
      fold P0 in C0.
      assert (k0 < k1).
      { pose proof (canon_le_groups C0) as Hle. fold k1 in Hle.
        destruct (Nat.eq_dec k1 k0) as [Ek|Ek]; [|lia].
        rewrite (canon_fix C0 Ek) in E.
        assert (X : partition_eqb P0 P0 = true) by now apply partition_eqb_spec.
        congruence. }
      lia.
Qed.

End RefineLoop.

(** *** What the partition means *)

(** Every transition leads to an existing state. *)
Definition d_trans_total (d : DFA) : Prop :=
  forall st, In st (d_states d) ->
    in_range d (d_t0 st) = true /\ in_range d (d_t1 st) = true.

(** The successor of state [i] on symbol [b], as an index. *)
Definition d_succ (d : DFA) (i : nat) (b : bool) : nat := Z.to_nat (d_tr d i b).

Lemma key_of_succ d P i :
  key_of d P i = (nth i P 0%Z, nth (d_succ d i false) P 0%Z,
                  nth (d_succ d i true) P 0%Z).
Proof. reflexivity. Qed.

Section PartitionMeaning.
Variable d : DFA.
Hypothesis Htot : d_trans_total d.
Let n := length (d_states d).

Lemma d_tr_range i b : i < n -> in_range d (d_tr d i b) = true.
Proof.
  intros L. destruct (Htot (d_at d i)) as [H0 H1].
  - unfold d_at. now apply nth_In.
  - unfold d_tr. now destruct b.
Qed.

Lemma d_succ_lt i b : i < n -> d_succ d i b < n.
Proof.
  intros L. pose proof (d_tr_range b L) as H. apply in_range_spec in H.
  unfold d_succ. fold n in H. lia.
Qed.

Lemma d_step_succ i b : i < n -> d_step d (Z.of_nat i) b = Z.of_nat (d_succ d i b).
Proof.
  intros L. rewrite d_tr_step by assumption.
  pose proof (d_tr_range b L) as H. apply in_range_spec in H.
  unfold d_succ. lia.
Qed.

Lemma d_accepts_from_cons i b w :
  i < n ->
  d_accepts_from d (Z.of_nat i) (b :: w)
  = d_accepts_from d (Z.of_nat (d_succ d i b)) w.
Proof.
  intros L. unfold d_accepts_from. simpl. now rewrite d_step_succ.
Qed.

Lemma d_accepts_from_nil i :
  i < n -> d_accepts_from d (Z.of_nat i) [] = d_accept (d_at d i).
Proof.
  intros L. unfold d_accepts_from, d_accepting. simpl.
  rewrite d_get_at by (apply in_range_spec; lia). now rewrite Nat2Z.id.
Qed.

(** States in one class agree on acceptance. *)
Definition acc_ref (P : list Z) : Prop :=
  forall i j, i < n -> j < n -> nth i P 0%Z = nth j P 0%Z ->
    d_accept (d_at d i) = d_accept (d_at d j).

(** States are only separated for a reason: acceptance, or successors in
    different classes. *)
Definition split_inv (P : list Z) : Prop :=
  forall i j, i < n -> j < n -> nth i P 0%Z <> nth j P 0%Z ->
    d_accept (d_at d i) <> d_accept (d_at d j) \/
    exists b, nth (d_succ d i b) P 0%Z <> nth (d_succ d j b) P 0%Z.

(** States in different classes are told apart by some word. *)
Definition dist_inv (P : list Z) : Prop :=
  forall i j, i < n -> j < n -> nth i P 0%Z <> nth j P 0%Z ->
    exists w, d_accepts_from d (Z.of_nat i) w <> d_accepts_from d (Z.of_nat j) w.

Definition part_inv (P : list Z) : Prop :=
  acc_ref P /\ split_inv P /\ dist_inv P.

(** A pass separates two states exactly when their keys differ. *)
Lemma refine_same_classes P i j :
  i < n -> j < n ->
  (nth i (refine d P) 0%Z = nth j (refine d P) 0%Z <->
   nth i P 0%Z = nth j P 0%Z /\
   forall b, nth (d_succ d i b) P 0%Z = nth (d_succ d j b) P 0%Z).
Proof.
  intros Li Lj. rewrite (refine_same d P Li Lj), !key_of_succ. split.
  - intros [= E E0 E1]. split; auto. intros []; auto.
  - intros [E Eb]. now rewrite E, (Eb false), (Eb true).
Qed.

(** A pass only splits classes. *)
Lemma refine_refines P i j :
  i < n -> j < n ->
  nth i (refine d P) 0%Z = nth j (refine d P) 0%Z -> nth i P 0%Z = nth j P 0%Z.
Proof. intros Li Lj H. now apply refine_same_classes in H. Qed.

Lemma part_inv_initial : part_inv (initial_partition d).
Proof.
  assert (H : forall i j,
             nth i (initial_partition d) 0%Z = nth j (initial_partition d) 0%Z
             <-> d_accept (d_at d i) = d_accept (d_at d j)).
  { intros i j. rewrite !initial_partition_nth.
    destruct (d_accept (d_at d i)), (d_accept (d_at d j)); split; congruence. }
  repeat split.
  - intros i j _ _. apply H.
  - intros i j _ _ Hne. left. intros E. now apply Hne, H.
  - intros i j Li Lj Hne. exists [].
    rewrite !d_accepts_from_nil by assumption. intros E. now apply Hne, H.
Qed.

Lemma part_inv_refine P : part_inv P -> part_inv (refine d P).
Proof.
  intros (A & S & D). repeat split.
  - intros i j Li Lj E. apply A; auto. now apply refine_refines.
  - intros i j Li Lj Hne.
    assert (Hs : forall b,
               nth (d_succ d i b) P 0%Z <> nth (d_succ d j b) P 0%Z ->
               nth (d_succ d i b) (refine d P) 0%Z
               <> nth (d_succ d j b) (refine d P) 0%Z).
    { intros b Hb E. apply Hb. apply refine_refines; auto using d_succ_lt. }
    destruct (Z.eq_dec (nth i P 0%Z) (nth j P 0%Z)) as [E|E].
    + right.
      destruct (Z.eq_dec (nth (d_succ d i false) P 0%Z)
                         (nth (d_succ d j false) P 0%Z)) as [E0|E0];
        [|exists false; auto].
      destruct (Z.eq_dec (nth (d_succ d i true) P 0%Z)
                         (nth (d_succ d j true) P 0%Z)) as [E1|E1];
        [|exists true; auto].
      exfalso. apply Hne. apply refine_same_classes; auto.
      split; auto. intros []; auto.
    + destruct (S i j Li Lj E) as [Ha|(b & Hb)]; auto.
      right. exists b. auto.
  - intros i j Li Lj Hne.
    destruct (Z.eq_dec (nth i P 0%Z) (nth j P 0%Z)) as [E|E].
    + assert (Hb : exists b, nth (d_succ d i b) P 0%Z <> nth (d_succ d j b) P 0%Z).
      { destruct (Z.eq_dec (nth (d_succ d i false) P 0%Z)
                           (nth (d_succ d j false) P 0%Z)) as [E0|E0];
          [|exists false; auto].
        destruct (Z.eq_dec (nth (d_succ d i true) P 0%Z)
                           (nth (d_succ d j true) P 0%Z)) as [E1|E1];
          [|exists true; auto].
        exfalso. apply Hne. apply refine_same_classes; auto.
        split; auto. intros []; auto. }
      destruct Hb as (b & Hb).
      destruct (D _ _ (d_succ_lt b Li) (d_succ_lt b Lj) Hb) as (w & Hw).
      exists (b :: w). now rewrite !d_accepts_from_cons.
    + now apply D.
Qed.

(** At a fixpoint the classes are stable under both symbols. *)
Lemma fixpoint_stable P i j b :
  refine d P = P -> i < n -> j < n -> nth i P 0%Z = nth j P 0%Z ->
  nth (d_succ d i b) P 0%Z = nth (d_succ d j b) P 0%Z.
Proof.
  intros F Li Lj E. rewrite <- F in E.
  apply refine_same_classes in E; auto. now destruct E.
Qed.

(** States in one class of a fixpoint accept the same words. *)
Lemma fixpoint_equiv P :
  refine d P = P -> acc_ref P ->
  forall w i j, i < n -> j < n -> nth i P 0%Z = nth j P 0%Z ->
    d_accepts_from d (Z.of_nat i) w = d_accepts_from d (Z.of_nat j) w.
Proof.
  intros F A. induction w as [|b w IH]; intros i j Li Lj E.
  - rewrite !d_accepts_from_nil by assumption. now apply A.
  - rewrite !d_accepts_from_cons by assumption.
    apply IH; auto using d_succ_lt. now apply fixpoint_stable.
Qed.

(** The partition the loop of [minimize] ends with. *)
Lemma final_partition_exists :
  exists P q,
    refine_loop (S (S n)) d (initial_partition d) 0 = Some (P, q) /\
    refine d P = P /\ part_inv P /\ (exists k, canon d k P) /\
    1 <= q <= S n /\
    ((exists i, i < n /\ d_accept (d_at d i) = false) -> q <= n).
Proof.
  apply (@refine_loop_initial d part_inv).
  - apply part_inv_refine.
  - apply part_inv_initial.
Qed.

End PartitionMeaning.

(** C4.  At the fixpoint the refinement loop of [minimize] reaches, two
    states share a class if and only if they agree on acceptance and, for
    each of the symbols 0 and 1, the classes of their successors match. *)
Theorem fixpoint_partition_invariant (d : DFA) :
  d_trans_total d ->
  exists P passes,
    refine_loop (S (S (length (d_states d)))) d (initial_partition d) 0
      = Some (P, passes) /\
    refine d P = P /\
    forall i j, i < length (d_states d) -> j < length (d_states d) ->
      (nth i P 0%Z = nth j P 0%Z <->
       d_accept (d_at d i) = d_accept (d_at d j) /\
       pclass P (d_t0 (d_at d i)) = pclass P (d_t0 (d_at d j)) /\
       pclass P (d_t1 (d_at d i)) = pclass P (d_t1 (d_at d j))).
Proof.
  intros Htot.
  destruct (final_partition_exists Htot)
    as (P & q & E & F & (A & Sp & _) & _ & _ & _).
  exists P, q. split; [exact E|]. split; [exact F|].
  intros i j Li Lj. split.
  - intros Eq. split; [now apply A|]. split.
    + apply (@fixpoint_stable d P i j false F Li Lj Eq).
    + apply (@fixpoint_stable d P i j true F Li Lj Eq).
  - intros (Ha & E0 & E1).
    destruct (Z.eq_dec (nth i P 0%Z) (nth j P 0%Z)) as [Eq|Ne]; auto.
    exfalso. destruct (Sp i j Li Lj Ne) as [Hacc|([] & Hb)]; auto.
Qed.

(** *** The quotient automaton *)

Lemma fold_max_spec r : forall x,
  (x <= fold_left Z.max r x)%Z /\
  (forall y, In y r -> (y <= fold_left Z.max r x)%Z) /\
  In (fold_left Z.max r x) (x :: r).
Proof.
  induction r as [|a r IH]; intros x; simpl.
  - repeat split; auto; try lia; tauto.
  - destruct (IH (Z.max x a)) as (H1 & H2 & H3). repeat split.
    + lia.
    + intros y [->|Hy]; [lia|auto].
    + destruct H3 as [H3|H3]; auto.
      destruct (Z.max_spec x a) as [[_ E]|[_ E]]; rewrite E in *; auto.
Qed.

Lemma max_element_canon d k P :
  0 < length (d_states d) -> canon d k P -> max_element P = (Z.of_nat k - 1)%Z.
Proof.
  intros Hn [L C]. destruct P as [|x r]; [simpl in L; lia|].
  simpl. destruct (fold_max_spec r x) as (H1 & H2 & H3).
  assert (Hin : forall y, In y (x :: r) -> (0 <= y < Z.of_nat k)%Z).
  { intros y Hy. apply In_nth with (d := 0%Z) in Hy as (i & Li & <-).
    apply C. exists i. split; auto. now rewrite <- L. }
  pose proof (Hin _ H3) as B.
  assert (Hk : (0 <= Z.of_nat k - 1 < Z.of_nat k)%Z) by lia.
  apply C in Hk as (i & Li & E).
  assert (Hle : (nth i (x :: r) 0 <= fold_left Z.max r x)%Z).
  { assert (Hi : In (nth i (x :: r) 0%Z) (x :: r)) by (apply nth_In; lia).
    destruct Hi as [<-|Hi]; auto. }
  lia.
Qed.

Section Representatives.
Variable P : list Z.
Variable k : nat.
Hypothesis Hrange : forall i, i < length P -> (0 <= nth i P 0 < Z.of_nat k)%Z.

Definition repr_step (repr : list Z) (i : nat) : list Z :=
  if (nth (Z.to_nat (nth i P 0%Z)) repr (-1)%Z <? 0)%Z
  then set_nth (Z.to_nat (nth i P 0%Z)) (Z.of_nat i) repr
  else repr.

Definition repr_inv (m : nat) (repr : list Z) : Prop :=
  length repr = k /\
  forall c, c < k ->
    (nth c repr (-1)%Z = (-1)%Z /\ forall i, i < m -> nth i P 0%Z <> Z.of_nat c) \/
    (exists i0, i0 < m /\ nth c repr (-1)%Z = Z.of_nat i0 /\ nth i0 P 0%Z = Z.of_nat c).

Lemma repr_inv_fold m :
  m <= length P ->
  repr_inv m (fold_left repr_step (seq 0 m) (repeat (-1)%Z k)).
Proof.
  induction m as [|m IH]; intros L.
  - simpl. split; [apply repeat_length|].
    intros c Hc. left. split; [|lia]. now apply nth_repeat_lt.
  - rewrite seq_S, fold_left_app. simpl.
    destruct IH as [Lr I]; [lia|].
    set (repr := fold_left repr_step (seq 0 m) (repeat (-1)%Z k)) in *.
    pose proof (Hrange L) as Hc. set (cm := Z.to_nat (nth m P 0%Z)).
    assert (Ecm : nth m P 0%Z = Z.of_nat cm) by (unfold cm; lia).
    assert (Lcm : cm < k) by lia.
    unfold repr_step. fold cm.
    destruct (Z.ltb_spec (nth cm repr (-1)%Z) 0) as [Neg|Pos].
    + split; [now rewrite length_set_nth|].
      intros c Lc. destruct (Nat.eq_dec cm c) as [<-|Hne].
      * right. exists m. repeat split; auto.
        apply nth_set_nth_eq. lia.
      * rewrite nth_set_nth_ne by assumption.
        destruct (I c Lc) as [[E N]|(i0 & L0 & E & E')].
        -- left. split; auto. intros i Li.
           destruct (Nat.eq_dec i m) as [->|]; [lia|apply N; lia].
        -- right. exists i0. repeat split; auto.
    + split; auto.
      intros c Lc. destruct (I c Lc) as [[E N]|(i0 & L0 & E & E')].
      * left. split; auto. intros i Li.
        destruct (Nat.eq_dec i m) as [->|]; [|apply N; lia].
        intros X. assert (cm = c) by lia. subst c. lia.
      * right. exists i0. repeat split; auto.
Qed.

Lemma representatives_spec c :
  c < k -> (exists i, i < length P /\ nth i P 0%Z = Z.of_nat c) ->
  exists i0, i0 < length P /\
    nth c (representatives P k) (-1)%Z = Z.of_nat i0 /\
    nth i0 P 0%Z = Z.of_nat c.
Proof.
  intros Lc (i & Li & E).
  destruct (@repr_inv_fold (length P) (le_n _)) as [_ I].
  destruct (I c Lc) as [[_ N]|H]; [now apply N in E|exact H].
Qed.

End Representatives.

Lemma class_accept_spec d P c :
  class_accept d P c = true <->
  exists i, i < length (d_states d) /\ nth i P 0%Z = c /\ d_accept (d_at d i) = true.
Proof.
  unfold class_accept. rewrite existsb_exists. split.
  - intros (i & Hi & H). apply in_seq in Hi.
    apply andb_prop in H as [H1 H2]. apply Z.eqb_eq in H1.
    exists i. repeat split; auto. lia.
  - intros (i & Li & E & A). exists i. split; [apply in_seq; lia|].
    rewrite A, andb_true_r. now apply Z.eqb_eq.
Qed.

Section Quotient.
Variable d : DFA.
Variable P : list Z.
Variable k : nat.
Hypothesis Htot : d_trans_total d.
Hypothesis Hfix : refine d P = P.
Hypothesis Hcanon : canon d k P.
Hypothesis Hacc : acc_ref d P.
Let n := length (d_states d).
Hypothesis Hn : 0 < n.
Let md := quotient d P.

Lemma class_range i : i < n -> (0 <= nth i P 0 < Z.of_nat k)%Z.
Proof. intros L. apply Hcanon. eauto. Qed.

Lemma quotient_size : length (d_states md) = k.
Proof.
  unfold md, quotient. simpl. rewrite length_map, length_seq.
  rewrite (max_element_canon Hn Hcanon). lia.
Qed.

Lemma quotient_state i :
  i < n ->
  d_at md (Z.to_nat (nth i P 0%Z)) =
  mkDState (nth i P 0%Z) (d_accept (d_at d i))
           (nth (d_succ d i false) P 0%Z) (nth (d_succ d i true) P 0%Z).
Proof.
  intros L. pose proof (class_range L) as Hc.
  set (c := Z.to_nat (nth i P 0%Z)).
  assert (Ec : nth i P 0%Z = Z.of_nat c) by (unfold c; lia).
  assert (Lc : c < k) by lia.
  destruct Hcanon as [LP CP]. fold n in LP.
  destruct (@representatives_spec P k) with (c := c) as (i0 & L0 & Er & E0); auto.
  { intros j Lj. apply CP. exists j. split; auto. fold n. lia. }
  { exists i. split; auto. lia. }
  rewrite LP in L0.
  assert (Est : d_at md c = class_state d P (representatives P k) c).
  { unfold d_at, md, quotient. cbn [d_states].
    rewrite (max_element_canon Hn (conj LP CP)).
    replace (Z.to_nat (Z.of_nat k - 1 + 1)) with k by lia.
    rewrite (nth_indep _ dflt_state (class_state d P (representatives P k) 0))
      by (rewrite length_map, length_seq; lia).
    rewrite map_nth, seq_nth by assumption. reflexivity. }
  rewrite Est. unfold class_state. rewrite Er, Nat2Z.id.
  assert (Esame : nth i0 P 0%Z = nth i P 0%Z) by congruence.
  f_equal.
  - lia.
  - rewrite <- Ec. destruct (d_accept (d_at d i)) eqn:A.
    + apply class_accept_spec. exists i. auto.
    + destruct (class_accept d P (nth i P 0%Z)) eqn:CA; auto.
      apply class_accept_spec in CA as (j & Lj & Ej & Aj).
      rewrite (Hacc Lj L Ej) in Aj. congruence.
  - apply (@fixpoint_stable d P i0 i false Hfix L0 L Esame).
  - apply (@fixpoint_stable d P i0 i true Hfix L0 L Esame).
Qed.

Lemma class_in_range i : i < n -> in_range md (nth i P 0%Z) = true.
Proof.
  intros L. apply in_range_spec. rewrite quotient_size. now apply class_range.
Qed.

Lemma quotient_step i b :
  i < n -> d_step md (nth i P 0%Z) b = nth (d_succ d i b) P 0%Z.
Proof.
  intros L. rewrite d_step_at by now apply class_in_range.
  rewrite quotient_state by assumption. now destruct b.
Qed.

Lemma quotient_accepting i :
  i < n -> d_accepting md (nth i P 0%Z) = d_accept (d_at d i).
Proof.
  intros L. unfold d_accepting. rewrite d_get_at by now apply class_in_range.
  now rewrite quotient_state.
Qed.

(** The class of a state accepts the words the state accepts. *)
Lemma quotient_accepts w : forall i,
  i < n ->
  d_accepts_from md (nth i P 0%Z) w = d_accepts_from d (Z.of_nat i) w.
Proof.
  induction w as [|b w IH]; intros i L.
  - rewrite d_accepts_from_nil by assumption.
    unfold d_accepts_from. simpl. now apply quotient_accepting.
  - rewrite (d_accepts_from_cons Htot) by assumption.
    rewrite <- IH by (now apply d_succ_lt).
    unfold d_accepts_from. simpl. now rewrite quotient_step.
Qed.

Lemma quotient_run w : forall i,
  i < n -> exists j, j < n /\ d_run md (nth i P 0%Z) w = nth j P 0%Z
                     /\ d_run d (Z.of_nat i) w = Z.of_nat j.
Proof.
  induction w as [|b w IH]; intros i L; simpl.
  - exists i. auto.
  - rewrite quotient_step by assumption.
    rewrite (d_step_succ Htot) by assumption.
    apply IH. now apply d_succ_lt.
Qed.

Lemma quotient_trans_total : d_trans_total md.
Proof.
  intros st Hin. apply In_nth with (d := dflt_state) in Hin as (c & Lc & <-).
  rewrite quotient_size in Lc.
  destruct (proj1 (proj2 Hcanon (Z.of_nat c))) as (i & Li & E); [lia|].
  fold (d_at md c). replace c with (Z.to_nat (nth i P 0%Z)) by lia.
  rewrite quotient_state by assumption. simpl.
  split; apply class_in_range; now apply d_succ_lt.
Qed.

Lemma quotient_total : d_total d -> d_total md.
Proof.
  intros (_ & Hs & Ht). split; [apply quotient_trans_total|].
  apply in_range_spec in Hs, Ht. fold n in Hs, Ht.
  unfold md, quotient, pclass. cbn [d_start d_trap]. fold md.
  split; apply class_in_range; lia.
Qed.

End Quotient.

(** *** What minimize returns *)

Lemma nth_map_seq {A : Type} (f : nat -> A) n i dflt :
  i < n -> nth i (map f (seq 0 n)) dflt = f i.
Proof.
  intros L. rewrite (nth_indep _ dflt (f 0)) by (rewrite length_map, length_seq; lia).
  rewrite (map_nth f (seq 0 n) 0 i). now rewrite seq_nth.
Qed.

(** Some word is accepted from exactly one of the two states. *)
Definition d_distinct (d : DFA) (s s' : Z) : Prop :=
  exists w, d_accepts_from d s w <> d_accepts_from d s' w.

(** No two states are behaviourally equivalent. *)
Definition d_reduced (d : DFA) : Prop :=
  forall s s', in_range d s = true -> in_range d s' = true -> s <> s' ->
    d_distinct d s s'.

(** [f] maps the states of [d1] one-to-one onto those of [d2] and preserves
    the start, the trap, the accept flags and both transitions. *)
Definition dfa_iso_by (f : Z -> Z) (d1 d2 : DFA) : Prop :=
  length (d_states d1) = length (d_states d2) /\
  (forall s, in_range d1 s = true -> in_range d2 (f s) = true) /\
  (forall s s', in_range d1 s = true -> in_range d1 s' = true ->
     f s = f s' -> s = s') /\
  (forall c, in_range d2 c = true -> exists s, in_range d1 s = true /\ f s = c) /\
  f (d_start d1) = d_start d2 /\
  f (d_trap d1) = d_trap d2 /\
  (forall s, in_range d1 s = true -> d_accepting d2 (f s) = d_accepting d1 s) /\
  (forall s b, in_range d1 s = true -> d_step d2 (f s) b = f (d_step d1 s b)).

Definition dfa_iso (d1 d2 : DFA) : Prop := exists f, dfa_iso_by f d1 d2.

Lemma d_total_pos d : d_total d -> 0 < length (d_states d).
Proof. intros (_ & Hs & _). apply in_range_spec in Hs. lia. Qed.

(** The final partition and the automaton built from it. *)
Record minimized (d md : DFA) (P : list Z) (k : nat) : Prop := mkMinimized {
  mz_fix : refine d P = P;
  mz_canon : canon d k P;
  mz_size : length (d_states md) = k;
  mz_total : d_total md;
  mz_start : d_start md = pclass P (d_start d);
  mz_trap : d_trap md = pclass P (d_trap d);
  mz_accepts : forall i w, i < length (d_states d) ->
      d_accepts_from md (nth i P 0%Z) w = d_accepts_from d (Z.of_nat i) w;
  mz_accepting : forall i, i < length (d_states d) ->
      d_accepting md (nth i P 0%Z) = d_accept (d_at d i);
  mz_step : forall i b, i < length (d_states d) ->
      d_step md (nth i P 0%Z) b = nth (d_succ d i b) P 0%Z;
  mz_same : forall i j w, i < length (d_states d) -> j < length (d_states d) ->
      nth i P 0%Z = nth j P 0%Z ->
      d_accepts_from d (Z.of_nat i) w = d_accepts_from d (Z.of_nat j) w;
  mz_dist : forall i j, i < length (d_states d) -> j < length (d_states d) ->
      nth i P 0%Z <> nth j P 0%Z ->
      d_distinct d (Z.of_nat i) (Z.of_nat j)
}.

Lemma minimize_spec (d : DFA) :
  d_total d ->
  exists md q P k, minimize_passes d = Some (md, q) /\ minimized d md P k.
Proof.
  intros Ht. pose proof Ht as (Htr & Hs & Htp).
  pose proof (d_total_pos Ht) as Hn.
  destruct (final_partition_exists Htr)
    as (P & q & E & F & (A & Sp & D) & (k & C) & Hq & Hq').
  exists (quotient d P), q, P, k. unfold minimize_passes. rewrite E.
  split; auto.
  constructor; auto.
  - now apply quotient_size.
  - now apply (@quotient_total d P k).
  - intros i w L. now apply (@quotient_accepts d P k).
  - intros i L. now apply (@quotient_accepting d P k).
  - intros i b L. now apply (@quotient_step d P k).
  - intros i j w Li Lj Eq. now apply (@fixpoint_equiv d Htr P).
Qed.

Lemma minimize_language (d md : DFA) P k w :
  d_total d -> minimized d md P k -> d_accepts md w = d_accepts d w.
Proof.
  intros (_ & Hs & _) M. apply in_range_spec in Hs.
  unfold d_accepts. rewrite (mz_start M). unfold pclass.
  rewrite (mz_accepts M) by lia. now rewrite Z2Nat.id by lia.
Qed.

Lemma minimized_class_range d md P k i :
  minimized d md P k -> i < length (d_states d) ->
  in_range md (nth i P 0%Z) = true.
Proof.
  intros M L. apply in_range_spec. rewrite (mz_size M).
  apply (mz_canon M). eauto.
Qed.

Lemma minimized_class_of d md P k c :
  minimized d md P k -> in_range md c = true ->
  exists i, i < length (d_states d) /\ nth i P 0%Z = c.
Proof.
  intros M Hc. apply in_range_spec in Hc. rewrite (mz_size M) in Hc.
  now apply (mz_canon M).
Qed.

(** The automaton [minimize] returns has no two equivalent states. *)
Lemma minimized_reduced d md P k : minimized d md P k -> d_reduced md.
Proof.
  intros M c c' Hc Hc' Hne.
  destruct (@minimized_class_of d md P k _ M Hc) as (i & Li & <-).
  destruct (@minimized_class_of d md P k _ M Hc') as (j & Lj & <-).
  destruct (mz_dist M Li Lj Hne) as (w & Hw).
  exists w. now rewrite !(mz_accepts M).
Qed.

(** On an automaton without equivalent states the classes are a
    renumbering of the states. *)
Lemma minimized_iso d md P k :
  d_total d -> d_reduced d -> minimized d md P k -> dfa_iso_by (pclass P) d md.
Proof.
  intros Ht Hr M. pose proof Ht as (Htr & Hs & Htp).
  set (n := length (d_states d)).
  assert (Hinj : forall i j, i < n -> j < n ->
                   nth i P 0%Z = nth j P 0%Z -> i = j).
  { intros i j Li Lj E. destruct (Nat.eq_dec i j) as [|Hne]; auto. exfalso.
    destruct (Hr (Z.of_nat i) (Z.of_nat j)) as (w & Hw).
    - apply in_range_spec. lia.
    - apply in_range_spec. lia.
    - lia.
    - apply Hw. now apply (mz_same M). }
  assert (Hk : k = n).
  { pose proof (canon_le (mz_canon M)) as Hle. fold n in Hle.
    assert (Hge : n <= k); [|lia].
    assert (N : NoDup (map (fun i => nth i P 0%Z) (seq 0 n))).
    { apply NoDup_nth with (d := 0%Z). rewrite length_map, length_seq.
      intros i j Li Lj E.
      rewrite !nth_map_seq in E by assumption.
      now apply Hinj. }
    assert (I : incl (map (fun i => nth i P 0%Z) (seq 0 n))
                     (map Z.of_nat (seq 0 k))).
    { intros c Hc. apply in_map_iff in Hc as (i & <- & Hi).
      apply in_seq in Hi.
      assert (B : (0 <= nth i P 0 < Z.of_nat k)%Z).
      { apply (mz_canon M). exists i. split; auto. lia. }
      apply in_map_iff. exists (Z.to_nat (nth i P 0%Z)). split; [lia|].
      apply in_seq. lia. }
    pose proof (NoDup_incl_length N I) as H.
    now rewrite !length_map, !length_seq in H. }
  assert (Hidx : forall s, in_range d s = true ->
                   Z.to_nat s < n /\ pclass P s = nth (Z.to_nat s) P 0%Z
                   /\ s = Z.of_nat (Z.to_nat s)).
  { intros s H. apply in_range_spec in H. fold n in H.
    unfold pclass. repeat split; lia. }
  repeat split.
  - rewrite (mz_size M). fold n. lia.
  - intros s H. destruct (Hidx s H) as (L & -> & _).
    now apply (@minimized_class_range d md P k _ M).
  - intros s s' H H' E.
    destruct (Hidx s H) as (L & E1 & E2), (Hidx s' H') as (L' & E1' & E2').
    rewrite E1, E1' in E. apply Hinj in E; auto. lia.
  - intros c Hc. destruct (@minimized_class_of d md P k _ M Hc) as (i & Li & <-).
    exists (Z.of_nat i). split.
    + apply in_range_spec. lia.
    + unfold pclass. now rewrite Nat2Z.id.
  - symmetry. apply (mz_start M).
  - symmetry. apply (mz_trap M).
  - intros s H. destruct (Hidx s H) as (L & -> & E2).
    rewrite (mz_accepting M) by assumption.
    unfold d_accepting. now rewrite d_get_at.
  - intros s b H. destruct (Hidx s H) as (L & -> & E2).
    rewrite (mz_step M) by assumption.
    rewrite E2 at 2. rewrite (d_step_succ Htr) by assumption.
    unfold pclass. now rewrite Nat2Z.id.
Qed.

(** C8.  Minimization is idempotent up to isomorphism: on a DFA without
    equivalent states [minimize] returns an isomorphic DFA, and the DFA a
    call of [minimize] returns (before trap removal) is such a DFA, so
    minimizing it again gives an isomorphic result. *)
Theorem minimize_idempotent (d : DFA) :
  d_total d ->
  (d_reduced d -> exists md, minimize d = Some md /\ dfa_iso d md) /\
  (exists md md',
     minimize d = Some md /\ d_total md /\ d_reduced md /\
     minimize md = Some md' /\ dfa_iso md md').
Proof.
  intros Ht.
  destruct (minimize_spec Ht) as (md & q & P & k & E & M).
  assert (Em : minimize d = Some md) by (unfold minimize; now rewrite E).
  split.
  - intros Hr. exists md. split; auto.
    exists (pclass P). now apply (@minimized_iso d md P k).
  - pose proof (mz_total M) as Ht'.
    pose proof (minimized_reduced M) as Hr'.
    destruct (minimize_spec Ht') as (md' & q' & P' & k' & E' & M').
    exists md, md'.
    split; [exact Em|]. split; [exact Ht'|]. split; [exact Hr'|].
    split; [unfold minimize; now rewrite E'|].
    exists (pclass P'). now apply (@minimized_iso md md' P' k').
Qed.

(** *** Counting classes and passes *)

(** The number of classes of a partition: its distinct class ids. *)
Definition num_classes (P : list Z) : nat := length (nodup Z.eq_dec P).

Lemma canon_num_classes d k P : canon d k P -> num_classes P = k.
Proof.
  intros [L C]. unfold num_classes.
  assert (I1 : incl (nodup Z.eq_dec P) (map Z.of_nat (seq 0 k))).
  { intros c Hc. apply nodup_In in Hc.
    apply In_nth with (d := 0%Z) in Hc as (i & Li & <-).
    assert (B : (0 <= nth i P 0 < Z.of_nat k)%Z).
    { apply C. exists i. split; auto. lia. }
    apply in_map_iff. exists (Z.to_nat (nth i P 0%Z)). split; [lia|].
    apply in_seq. lia. }
  assert (I2 : incl (map Z.of_nat (seq 0 k)) (nodup Z.eq_dec P)).
  { intros c Hc. apply in_map_iff in Hc as (j & <- & Hj). apply in_seq in Hj.
    destruct (proj1 (C (Z.of_nat j))) as (i & Li & <-); [lia|].
    apply nodup_In. apply nth_In. lia. }
  pose proof (NoDup_incl_length (NoDup_nodup Z.eq_dec P) I1) as H1.
  pose proof (NoDup_incl_length (nodup_of_nat_seq k) I2) as H2.
  rewrite length_map, length_seq in H1, H2. lia.
Qed.

Lemma num_classes_le_groups d P :
  length P = length (d_states d) ->
  num_classes P <= length (keys (build_groups d P)).
Proof.
  intros L. unfold num_classes.
  rewrite <- (length_map key_class (keys (build_groups d P))).
  apply NoDup_incl_length; [apply NoDup_nodup|].
  intros c Hc. apply nodup_In in Hc.
  apply In_nth with (d := 0%Z) in Hc as (i & Li & <-).
  apply in_map_iff. exists (key_of d P i). split; auto.
  apply key_in_ks. lia.
Qed.

(** A pass never lowers the number of classes, and there are at most as
    many classes as states. *)
Lemma refine_num_classes d P :
  length P = length (d_states d) ->
  num_classes P <= num_classes (refine d P) <= length (d_states d).
Proof.
  intros L. rewrite (canon_num_classes (refine_canon d P)). split.
  - now apply num_classes_le_groups.
  - apply length_ks_le.
Qed.

(** C7.  On a DFA that includes its trap, a non-accepting state, the
    refinement loop of [minimize] terminates after at most |states| passes:
    each regrouping pass only splits classes (two states in one new class
    were in one class before), so the number of classes never decreases from
    pass to pass and is at most the number of states. *)
Theorem refine_loop_bound (d : DFA) :
  in_range d (d_trap d) = true ->
  d_accept (d_at d (Z.to_nat (d_trap d))) = false ->
  (forall P i j, i < length (d_states d) -> j < length (d_states d) ->
     nth i (refine d P) 0%Z = nth j (refine d P) 0%Z ->
     nth i P 0%Z = nth j P 0%Z) /\
  (forall P, length P = length (d_states d) ->
     num_classes P <= num_classes (refine d P) <= length (d_states d)) /\
  (exists P passes,
     refine_loop (S (S (length (d_states d)))) d (initial_partition d) 0
       = Some (P, passes) /\
     refine d P = P /\
     passes <= length (d_states d)).
Proof.
  intros Hr Hacc. split; [|split].
  - intros P i j Li Lj. now apply refine_refines.
  - apply refine_num_classes.
  - destruct (@refine_loop_initial d (fun _ => True))
      as (P & q & E & F & _ & _ & _ & Hq); auto.
    exists P, q. split; [exact E|]. split; [exact F|].
    apply Hq. exists (Z.to_nat (d_trap d)). split; auto.
    apply in_range_spec in Hr. lia.
Qed.

(** ** Containers of the NFA stages *)

(** [std::map<K,V>] as an association list in key order.  [om_find] stops
    at the first larger key, as a search in the ordered map does. *)
Section OrdMap.
Variables (K V : Type).
Variable cmp : K -> K -> comparison.

Definition OMap : Type := list (K * V).

(** [m.find(k)] *)
Fixpoint om_find (k : K) (m : OMap) : option V :=
  match m with
  | [] => None
  | (k', v) :: m' =>
      match cmp k k' with
      | Eq => Some v
      | Lt => None
      | Gt => om_find k m'
      end
  end.

(** [m[k] = f(m[k])], where a missing [m[k]] is first made [dflt] *)
Fixpoint om_alter (k : K) (f : V -> V) (dflt : V) (m : OMap) : OMap :=
  match m with
  | [] => [(k, f dflt)]
  | (k', v) :: m' =>
      match cmp k k' with
      | Eq => (k', f v) :: m'
      | Lt => (k, f dflt) :: m
      | Gt => (k', v) :: om_alter k f dflt m'
      end
  end.

(** [m[k] = v] *)
Definition om_set (k : K) (v : V) (m : OMap) : OMap :=
  om_alter k (fun _ => v) v m.

End OrdMap.

Arguments om_find {K V} cmp k m.
Arguments om_alter {K V} cmp k f dflt m.
Arguments om_set {K V} cmp k v m.

(** [char] keys, ordered by their code. *)
Definition char_compare (a b : ascii) : comparison :=
  N.compare (N_of_ascii a) (N_of_ascii b).

(** [set<int>]: a strictly increasing list. *)
Definition IntSet : Type := list nat.

(** [s.insert(x)] *)
Fixpoint set_insert (x : nat) (s : IntSet) : IntSet :=
  match s with
  | [] => [x]
  | y :: s' =>
      match Nat.compare x y with
      | Eq => s
      | Lt => x :: s
      | Gt => y :: set_insert x s'
      end
  end.

(** [s.find(x) != s.end()] *)
Definition set_mem (x : nat) (s : IntSet) : bool := existsb (Nat.eqb x) s.

(** The order of [set<int>] as a key of a map: lexicographic. *)
Fixpoint set_compare (a b : IntSet) : comparison :=
  match a, b with
  | [], [] => Eq
  | [], _ :: _ => Lt
  | _ :: _, [] => Gt
  | x :: a', y :: b' =>
      match Nat.compare x y with
      | Eq => set_compare a' b'
      | c => c
      end
  end.

(** ** The regular expression tree and the NFA *)

(** [static const char EPS = '\0'] *)
Definition EPS : ascii := "000"%char.

(** [struct RegexNode]; a child pointer is never null in a tree the parser
    builds from a well-formed expression. *)
Inductive RegexNode : Type :=
| CHAR (ch : ascii)
| CONCAT (left right : RegexNode)
| UNION (left right : RegexNode)
| STAR (left : RegexNode).

Record NState : Type := mkNState {
  n_id : nat;                                (* int id *)
  n_accept : bool;                           (* bool accept *)
  n_trans : OMap ascii (list nat)            (* map<char, vector<int>> trans *)
}.

Record NFA : Type := mkNFA {
  n_states : list NState;   (* vector<State> states *)
  n_start : nat             (* int start *)
}.

Record NFAFragment : Type := mkFragment {
  f_start : nat;
  f_accept : nat
}.

Definition dflt_nstate : NState := mkNState 0 false [].

(** [infa.states[i]] *)
Definition n_at (nfa : NFA) (i : nat) : NState := nth i (n_states nfa) dflt_nstate.

(** [states[i].trans.find(c)], the vector found or none. *)
Definition n_targets (nfa : NFA) (i : nat) (c : ascii) : list nat :=
  match om_find char_compare c (n_trans (n_at nfa i)) with
  | Some v => v
  | None => []
  end.

(** ** Thompson: building the NFA with silent transitions *)

(** The member [nfa] of [class Thompson] is threaded through the calls. *)
Definition Build (A : Type) : Type := NFA -> A * NFA.

Definition ret {A : Type} (a : A) : Build A := fun nfa => (a, nfa).

Definition bind {A B : Type} (m : Build A) (k : A -> Build B) : Build B :=
  fun nfa => let (a, nfa') := m nfa in k a nfa'.

Notation "x <- m ;; k" := (bind m (fun x => k))
  (at level 61, m at next level, right associativity).
Notation "m ;;; k" := (bind m (fun _ => k))
  (at level 61, right associativity).

(** [NFA::new_state()] *)
Definition new_state : Build nat :=
  fun nfa =>
    let id := length (n_states nfa) in
    (id, mkNFA (n_states nfa ++ [mkNState id false []]) (n_start nfa)).

(** [nfa.states[from].trans[c].push_back(to)] *)
Definition add_transition (from to : nat) (c : ascii) : Build unit :=
  fun nfa =>
    (tt, mkNFA (upd_nth from
                  (fun st => mkNState (n_id st) (n_accept st)
                     (om_alter char_compare c (fun v => v ++ [to]) [] (n_trans st)))
                  (n_states nfa))
               (n_start nfa)).

Fixpoint buildFragment (node : RegexNode) : Build NFAFragment :=
  match node with
  | CHAR ch =>
      s <- new_state ;;
      a <- new_state ;;
      add_transition s a ch ;;;
      ret (mkFragment s a)
  | CONCAT l r =>
      f1 <- buildFragment l ;;
      f2 <- buildFragment r ;;
      add_transition (f_accept f1) (f_start f2) EPS ;;;
      ret (mkFragment (f_start f1) (f_accept f2))
  | UNION l r =>
      s <- new_state ;;
      a <- new_state ;;
      f1 <- buildFragment l ;;
      f2 <- buildFragment r ;;
      add_transition s (f_start f1) EPS ;;;
      add_transition s (f_start f2) EPS ;;;
      add_transition (f_accept f1) a EPS ;;;
      add_transition (f_accept f2) a EPS ;;;
      ret (mkFragment s a)
  | STAR l =>
      s <- new_state ;;
      a <- new_state ;;
      f <- buildFragment l ;;
      add_transition s (f_start f) EPS ;;;
      add_transition (f_accept f) a EPS ;;;
      add_transition s a EPS ;;;
      add_transition (f_accept f) (f_start f) EPS ;;;
      ret (mkFragment s a)
  end.

(** [Thompson::build] *)
Definition build (r : RegexNode) : NFA :=
  let (frag, nfa) := buildFragment r (mkNFA [] 0) in
  mkNFA (upd_nth (f_accept frag)
           (fun st => mkNState (n_id st) true (n_trans st)) (n_states nfa))
        (f_start frag).

(** ** EpsilonRemover *)

(** The body of [for (int nxt : it->second)]; the pair is the closure being
    built and the stack. *)
Definition closure_visit (acc : IntSet * list nat) (nxt : nat)
  : IntSet * list nat :=
  if set_mem nxt (fst acc) then acc
  else (set_insert nxt (fst acc), nxt :: snd acc).

(** [while (!st.empty())] of [compute_epsilon_closure] *)
Fixpoint closure_loop (fuel : nat) (infa : NFA) (clo : IntSet) (st : list nat)
  : option IntSet :=
  match fuel with
  | O => None
  | S fuel' =>
      match st with
      | [] => Some clo
      | u :: st' =>
          let acc := fold_left closure_visit (n_targets infa u EPS) (clo, st') in
          closure_loop fuel' infa (fst acc) (snd acc)
      end
  end.

Definition compute_epsilon_closure (infa : NFA) (s : nat)
    (eps_closures : list IntSet) : option (list IntSet) :=
  match nth s eps_closures [] with
  | _ :: _ => Some eps_closures
  | [] =>
      match closure_loop (S (length (n_states infa))) infa [s] [s] with
      | Some clo => Some (set_nth s clo eps_closures)
      | None => None
      end
  end.

(** [for (i...) compute_epsilon_closure(i)] *)
Fixpoint compute_closures (infa : NFA) (todo : list nat)
    (eps_closures : list IntSet) : option (list IntSet) :=
  match todo with
  | [] => Some eps_closures
  | i :: rest =>
      match compute_epsilon_closure infa i eps_closures with
      | Some e => compute_closures infa rest e
      | None => None
      end
  end.

(** [for (int ec : eps_closures[nxt]) combined[c].insert(ec)] over the
    targets [nxt] of one entry of [trans]. *)
Definition combine_entry (eps_closures : list IntSet)
    (combined : OMap ascii IntSet) (kv : ascii * list nat)
  : OMap ascii IntSet :=
  let c := fst kv in
  if Ascii.eqb c EPS then combined
  else
    fold_left
      (fun comb nxt =>
         fold_left
           (fun comb ec => om_alter char_compare c (set_insert ec) [] comb)
           (nth nxt eps_closures []) comb)
      (snd kv) combined.

(** The body of [for (int cst : closure)]; the pair is [is_accept] and
    [combined]. *)
Definition combine_state (infa : NFA) (eps_closures : list IntSet)
    (acc : bool * OMap ascii IntSet) (cst : nat) : bool * OMap ascii IntSet :=
  (if n_accept (n_at infa cst) then true else fst acc,
   fold_left (combine_entry eps_closures) (n_trans (n_at infa cst)) (snd acc)).

(** State [i] of the output automaton. *)
Definition remove_state (infa : NFA) (eps_closures : list IntSet) (i : nat)
  : NState :=
  let acc := fold_left (combine_state infa eps_closures)
                       (nth i eps_closures []) (false, []) in
  mkNState i (fst acc)
    (fold_left (fun t kv => om_set char_compare (fst kv) (snd kv) t) (snd acc) []).

(** [EpsilonRemover::remove] *)
Definition remove (infa : NFA) : option NFA :=
  let n := length (n_states infa) in
  match compute_closures infa (seq 0 n) (repeat [] n) with
  | None => None
  | Some eps_closures =>
      Some (mkNFA (map (remove_state infa eps_closures) (seq 0 n)) (n_start infa))
  end.

(** ** SubsetConstruction *)

(** [move_set(cur, c)] *)
Definition move_set (infa : NFA) (cur : IntSet) (c : ascii) : IntSet :=
  fold_left
    (fun res s => fold_left (fun res nxt => set_insert nxt res)
                            (n_targets infa s c) res)
    cur [].

(** [struct TempState] *)
Record TempState : Type := mkTemp {
  ts_id : Z;
  ts_acc : bool;
  ts_t0 : Z;
  ts_t1 : Z
}.

(** The variables of [convert] that its loop changes. *)
Record Subsets : Type := mkSubsets {
  sc_map : OMap IntSet Z;        (* map<set<int>,int> state_map *)
  sc_sets : list IntSet;         (* vector<set<int>> dfa_sets *)
  sc_queue : list IntSet;        (* queue<set<int>> q *)
  sc_tmp : list TempState        (* vector<TempState> tmp *)
}.

(** [state_map[S]] where the key is present *)
Definition sc_lookup (m : OMap IntSet Z) (S : IntSet) : Z :=
  match om_find set_compare S m with
  | Some id => id
  | None => 0%Z
  end.

(** [get_state_id(S, m, d, q)] *)
Definition get_state_id (S : IntSet) (st : Subsets) : Z * Subsets :=
  match S with
  | [] => ((-1)%Z, st)
  | _ =>
      match om_find set_compare S (sc_map st) with
      | None =>
          let id := Z.of_nat (length (sc_sets st)) in
          (id, mkSubsets (om_set set_compare S id (sc_map st))
                         (sc_sets st ++ [S]) (sc_queue st ++ [S]) (sc_tmp st))
      | Some id => (id, st)
      end
  end.

(** [for (auto s : cur) if (infa.states[s].accept) { is_accept = true; break; }] *)
Definition has_accept (infa : NFA) (cur : IntSet) : bool :=
  existsb (fun s => n_accept (n_at infa s)) cur.

(** [while (!q.empty())] of [convert] *)
Fixpoint subset_loop (fuel : nat) (infa : NFA) (st : Subsets) : option Subsets :=
  match fuel with
  | O => None
  | S fuel' =>
      match sc_queue st with
      | [] => Some st
      | cur :: rest =>
          let st1 := mkSubsets (sc_map st) (sc_sets st) rest (sc_tmp st) in
          let cid := sc_lookup (sc_map st1) cur in
          let is_accept := has_accept infa cur in
          let go0 := move_set infa cur "0"%char in
          let go1 := move_set infa cur "1"%char in
          let (go0_id, st2) := get_state_id go0 st1 in
          let (go1_id, st3) := get_state_id go1 st2 in
          subset_loop fuel' infa
            (mkSubsets (sc_map st3) (sc_sets st3) (sc_queue st3)
                       (sc_tmp st3 ++ [mkTemp cid is_accept go0_id go1_id]))
      end
  end.

(** [if (st.t0 < 0) st.t0 = trap_id; if (st.t1 < 0) st.t1 = trap_id;] *)
Definition fix_trap (trap_id : Z) (t : TempState) : TempState :=
  mkTemp (ts_id t) (ts_acc t)
         (if (ts_t0 t <? 0)%Z then trap_id else ts_t0 t)
         (if (ts_t1 t <? 0)%Z then trap_id else ts_t1 t).

(** [dfa.states[st.id] = {st.id, st.acc, st.t0, st.t1}] *)
Definition store_state (states : list DState) (t : TempState) : list DState :=
  set_nth (Z.to_nat (ts_id t)) (mkDState (ts_id t) (ts_acc t) (ts_t0 t) (ts_t1 t))
          states.

(** [SubsetConstruction::convert], with the subsets of the states. *)
Definition convert_sets (infa : NFA) : option (DFA * list IntSet) :=
  let start_set := [n_start infa] in
  let init := mkSubsets (om_set set_compare start_set 0%Z []) [start_set]
                        [start_set] [] in
  match subset_loop (S (2 ^ length (n_states infa))) infa init with
  | None => None
  | Some st =>
      let st' :=
        match om_find set_compare [] (sc_map st) with
        | None =>
            let tid := Z.of_nat (length (sc_tmp st)) in
            mkSubsets (om_set set_compare [] tid (sc_map st))
                      (sc_sets st ++ [[]]) (sc_queue st)
                      (sc_tmp st ++ [mkTemp tid false tid tid])
        | Some _ => st
        end in
      let trap_id := sc_lookup (sc_map st') [] in
      let tmp := map (fix_trap trap_id) (sc_tmp st') in
      let states :=
        fold_left store_state tmp (repeat dflt_state (length tmp)) in
      Some (mkDFA states 0%Z trap_id, sc_sets st')
  end.

Definition convert (infa : NFA) : option DFA :=
  option_map fst (convert_sets infa).

(** ** main: the stages in sequence, from the parsed tree on *)

Definition pipeline (root : RegexNode) : option DFA :=
  match remove (build root) with
  | None => None
  | Some nfa =>
      match convert nfa with
      | None => None
      | Some dfa =>
          match minimize dfa with
          | None => None
          | Some mdfa => Some (remove_trap mdfa)
          end
      end
  end.

(** ** Facts about the containers *)

Section OrdMapFacts.
Variables (K V : Type).
Variable cmp : K -> K -> comparison.
Hypothesis cmp_eq : forall a b, cmp a b = Eq <-> a = b.
Hypothesis cmp_trans : forall a b c, cmp a b = Lt -> cmp b c = Lt -> cmp a c = Lt.
Hypothesis cmp_antisym : forall a b, cmp a b = CompOpp (cmp b a).

Lemma om_find_alter_eq k f (dflt : V) m :
  om_find cmp k (om_alter cmp k f dflt m)
  = Some (f (match om_find cmp k m with Some v => v | None => dflt end)).
Proof.
  assert (R : cmp k k = Eq) by now apply cmp_eq.
  induction m as [|[k' v] m IH]; simpl.
  - now rewrite R.
  - destruct (cmp k k') eqn:C; simpl.
    + now rewrite C.
    + now rewrite R.
    + now rewrite C.
Qed.

Lemma om_find_alter_ne k k' f (dflt : V) m :
  k <> k' -> om_find cmp k' (om_alter cmp k f dflt m) = om_find cmp k' m.
Proof.
  intros Hne. induction m as [|[k0 v] m IH]; simpl.
  - destruct (cmp k' k) eqn:C; auto. apply cmp_eq in C. congruence.
  - destruct (cmp k k0) eqn:C; simpl.
    + apply cmp_eq in C. subst k0.
      destruct (cmp k' k) eqn:C'; auto. apply cmp_eq in C'. congruence.
    + destruct (cmp k' k) eqn:C'.
      * apply cmp_eq in C'. congruence.
      * now rewrite (cmp_trans C' C).
      * reflexivity.
    + now rewrite IH.
Qed.

Lemma om_find_set_eq k (v : V) m : om_find cmp k (om_set cmp k v m) = Some v.
Proof. unfold om_set. now rewrite om_find_alter_eq. Qed.

Lemma om_find_set_ne k k' (v : V) m :
  k <> k' -> om_find cmp k' (om_set cmp k v m) = om_find cmp k' m.
Proof. apply om_find_alter_ne. Qed.

(** The keys are strictly increasing. *)
Definition om_sorted (m : OMap K V) : Prop :=
  StronglySorted (fun a b => cmp a b = Lt) (map fst m).

Lemma om_alter_keys k f (dflt : V) m k' :
  In k' (map fst (om_alter cmp k f dflt m)) <-> k' = k \/ In k' (map fst m).
Proof.
  induction m as [|[k0 v] m IH]; simpl.
  - intuition.
  - destruct (cmp k k0) eqn:C; simpl.
    + apply cmp_eq in C. subst k0. intuition.
    + intuition.
    + rewrite IH. intuition.
Qed.

Lemma om_alter_sorted k f (dflt : V) m :
  om_sorted m -> om_sorted (om_alter cmp k f dflt m).
Proof.
  unfold om_sorted. induction m as [|[k0 v] m IH]; simpl; intros S.
  - repeat constructor.
  - destruct (cmp k k0) eqn:C; simpl.
    + exact S.
    + constructor; auto. constructor; auto.
      inversion S as [|? ? _ F]; subst.
      eapply Forall_impl; [|exact F]. intros a Ha. simpl in Ha.
      eapply cmp_trans; eauto.
    + inversion S as [|? ? S' F]; subst.
      constructor; [now apply IH|].
      apply Forall_forall. intros a Ha.
      apply om_alter_keys in Ha as [->|Ha].
      * rewrite cmp_antisym, C. reflexivity.
      * rewrite Forall_forall in F. now apply F.
Qed.

Lemma om_set_last k (v : V) pre :
  Forall (fun a => cmp a k = Lt) (map fst pre) ->
  om_set cmp k v pre = pre ++ [(k, v)].
Proof.
  unfold om_set. induction pre as [|[k0 v0] pre IH]; simpl; intros F; auto.
  inversion F as [|? ? H F']; subst. simpl in H.
  rewrite cmp_antisym, H. simpl. now rewrite IH.
Qed.

(** Copying a map entry by entry gives the map. *)
Lemma om_copy m : forall pre,
  om_sorted (pre ++ m) ->
  fold_left (fun t kv => om_set cmp (fst kv) (snd kv) t) m pre = pre ++ m.
Proof.
  induction m as [|[k v] m IH]; intros pre S; simpl.
  - now rewrite app_nil_r.
  - rewrite om_set_last.
    + rewrite IH; rewrite <- app_assoc; auto.
    + unfold om_sorted in S. rewrite map_app in S. simpl in S.
      clear IH. induction pre as [|[k0 v0] pre IHp]; simpl in *; constructor.
      * inversion S as [|? ? _ F]; subst. rewrite Forall_forall in F.
        apply F. apply in_or_app. right. now left.
      * apply IHp. now inversion S.
Qed.

End OrdMapFacts.

Lemma N_of_ascii_inj a b : N_of_ascii a = N_of_ascii b -> a = b.
Proof.
  intros H. rewrite <- (ascii_N_embedding a), <- (ascii_N_embedding b).
  now rewrite H.
Qed.

Lemma char_compare_eq a b : char_compare a b = Eq <-> a = b.
Proof.
  unfold char_compare. rewrite N.compare_eq_iff. split.
  - apply N_of_ascii_inj.
  - now intros ->.
Qed.

Lemma char_compare_trans a b c :
  char_compare a b = Lt -> char_compare b c = Lt -> char_compare a c = Lt.
Proof.
  unfold char_compare. rewrite !N.compare_lt_iff. apply N.lt_trans.
Qed.

Lemma char_compare_antisym a b : char_compare a b = CompOpp (char_compare b a).
Proof. unfold char_compare. apply N.compare_antisym. Qed.

Lemma set_compare_eq a : forall b, set_compare a b = Eq <-> a = b.
Proof.
  induction a as [|x a IH]; intros [|y b]; simpl; split; try discriminate; auto.
  - destruct (Nat.compare_spec x y) as [E|E|E]; try discriminate.
    intros Hc. apply IH in Hc. congruence.
  - intros [= -> ->]. rewrite Nat.compare_refl. now apply IH.
Qed.

Lemma set_compare_trans a : forall b c,
  set_compare a b = Lt -> set_compare b c = Lt -> set_compare a c = Lt.
Proof.
  induction a as [|x a IH]; intros [|y b] [|z c]; simpl; auto; try discriminate.
  destruct (Nat.compare_spec x y) as [E1|E1|E1];
    destruct (Nat.compare_spec y z) as [E2|E2|E2];
    try discriminate; intros H1 H2; subst.
  - rewrite Nat.compare_refl. eauto.
  - now apply Nat.compare_lt_iff in E2 as ->.
  - now apply Nat.compare_lt_iff in E1 as ->.
  - assert (L : x < z) by lia. now apply Nat.compare_lt_iff in L as ->.
Qed.

Lemma in_set_insert x s y : In y (set_insert x s) <-> y = x \/ In y s.
Proof.
  induction s as [|z s IH]; simpl.
  - intuition.
  - destruct (Nat.compare_spec x z); simpl; rewrite ?IH; intuition congruence.
Qed.

Lemma set_insert_sorted x s :
  StronglySorted lt s -> StronglySorted lt (set_insert x s).
Proof.
  induction s as [|z s IH]; simpl; intros S.
  - repeat constructor.
  - inversion S as [|? ? S' F]; subst.
    destruct (Nat.compare_spec x z); auto.
    + constructor; auto. constructor; auto.
      eapply Forall_impl; [|exact F]. simpl. intros; lia.
    + constructor; auto. apply Forall_forall. intros y Hy.
      apply in_set_insert in Hy as [->|Hy]; auto.
      rewrite Forall_forall in F. auto.
Qed.

Lemma set_mem_spec x s : set_mem x s = true <-> In x s.
Proof.
  unfold set_mem. rewrite existsb_exists. split.
  - intros (y & Hy & E). apply Nat.eqb_eq in E. now subst.
  - intros H. exists x. split; auto. apply Nat.eqb_refl.
Qed.

Lemma sorted_lt_nodup (s : list nat) : StronglySorted lt s -> NoDup s.
Proof.
  induction 1 as [|a l S IH F]; constructor; auto.
  intros Hin. rewrite Forall_forall in F. specialize (F _ Hin). lia.
Qed.

(** Inserting a batch of elements into a set. *)
Lemma in_fold_insert (l : list nat) : forall s y,
  In y (fold_left (fun res nxt => set_insert nxt res) l s) <-> In y l \/ In y s.
Proof.
  induction l as [|x l IH]; intros s y; simpl.
  - tauto.
  - rewrite IH, in_set_insert. intuition.
Qed.

Lemma fold_insert_sorted (l : list nat) : forall s,
  StronglySorted lt s ->
  StronglySorted lt (fold_left (fun res nxt => set_insert nxt res) l s).
Proof.
  induction l as [|x l IH]; intros s S; simpl; auto.
  apply IH. now apply set_insert_sorted.
Qed.

(** ** Subset construction: invariants of the worklist loop *)

(** The start state and every transition target are states of the NFA. *)
Definition nfa_wf (nfa : NFA) : Prop :=
  n_start nfa < length (n_states nfa) /\
  forall i c q, In q (n_targets nfa i c) -> q < length (n_states nfa).

(** A canonical subset: strictly increasing, made of states. *)
Definition cset (n : nat) (S : IntSet) : Prop :=
  StronglySorted lt S /\ forall x, In x S -> x < n.

Lemma in_move_set infa cur c q :
  In q (move_set infa cur c) <-> exists s, In s cur /\ In q (n_targets infa s c).
Proof.
  unfold move_set.
  assert (H : forall res,
    In q (fold_left (fun res s => fold_left (fun res nxt => set_insert nxt res)
                                 (n_targets infa s c) res) cur res)
    <-> (exists s, In s cur /\ In q (n_targets infa s c)) \/ In q res).
  { induction cur as [|s cur IH]; intros res; simpl.
    - split; [auto|]. intros [(s & [] & _)|H]; auto.
    - rewrite IH, in_fold_insert. split.
      + intros [(s' & Hs & Hq)|[Hq|Hq]]; eauto.
      + intros [(s' & [->|Hs] & Hq)|Hq]; eauto. }
  rewrite H. simpl. tauto.
Qed.

Lemma move_set_sorted infa cur c : StronglySorted lt (move_set infa cur c).
Proof.
  unfold move_set.
  assert (H : forall res, StronglySorted lt res ->
    StronglySorted lt
      (fold_left (fun res s => fold_left (fun res nxt => set_insert nxt res)
                                 (n_targets infa s c) res) cur res)).
  { induction cur as [|s cur IH]; intros res S; simpl; auto.
    apply IH. now apply fold_insert_sorted. }
  apply H. constructor.
Qed.

Lemma move_set_cset infa cur c :
  nfa_wf infa -> cset (length (n_states infa)) (move_set infa cur c).
Proof.
  intros [_ W]. split; [apply move_set_sorted|].
  intros x Hx. apply in_move_set in Hx as (s & _ & Hq). eauto.
Qed.

(** All sublists of a list, in its order. *)
Fixpoint sublists (l : list nat) : list (list nat) :=
  match l with
  | [] => [[]]
  | x :: l' => map (cons x) (sublists l') ++ sublists l'
  end.

Lemma length_sublists l : length (sublists l) = 2 ^ length l.
Proof.
  induction l as [|x l IH]; simpl; auto.
  rewrite length_app, length_map, IH. lia.
Qed.

Lemma cset_in_sublists n : forall a S,
  StronglySorted lt S -> (forall x, In x S -> a <= x < a + n) ->
  In S (sublists (seq a n)).
Proof.
  induction n as [|n IH]; intros a S Hs B; simpl.
  - destruct S as [|x S]; auto. specialize (B x (or_introl eq_refl)). lia.
  - apply in_or_app. destruct S as [|x S]; [right; apply IH; auto; intros ? []|].
    inversion Hs as [|? ? Hs' F]; subst. rewrite Forall_forall in F.
    destruct (Nat.eq_dec x a) as [->|Hne].
    + left. apply in_map. apply IH; auto.
      intros y Hy. specialize (F y Hy). specialize (B y (or_intror Hy)). lia.
    + right. apply IH; auto.
      intros y [E|Hy].
      * subst y. specialize (B x (or_introl eq_refl)). lia.
      * specialize (F y Hy). pose proof (B x (or_introl eq_refl)) as Bx.
        specialize (B y (or_intror Hy)). lia.
Qed.

Lemma csets_bounded n (sets : list IntSet) :
  NoDup sets -> (forall S, In S sets -> cset n S) -> length sets <= 2 ^ n.
Proof.
  intros N C.
  assert (H : length sets <= length (sublists (seq 0 n))).
  { apply NoDup_incl_length; auto.
    intros S HS. destruct (C S HS) as [Hs B].
    apply cset_in_sublists; auto. intros x Hx. specialize (B x Hx). lia. }
  now rewrite length_sublists, length_seq in H.
Qed.

(** [z] is what [get_state_id] answers for [S]. *)
Definition idx_ok (sets : list IntSet) (z : Z) (S : IntSet) : Prop :=
  match S with
  | [] => z = (-1)%Z
  | _ => exists j, z = Z.of_nat j /\ nth_error sets j = Some S
  end.

(** [state_map] maps each discovered subset to its index in [dfa_sets]. *)
Definition map_ok (m : OMap IntSet Z) (sets : list IntSet) : Prop :=
  (forall S id, om_find set_compare S m = Some id ->
     exists j, id = Z.of_nat j /\ nth_error sets j = Some S) /\
  (forall j S, nth_error sets j = Some S ->
     om_find set_compare S m = Some (Z.of_nat j)).

Lemma idx_ok_app sets added z S : idx_ok sets z S -> idx_ok (sets ++ added) z S.
Proof.
  destruct S; simpl; auto. intros (j & -> & H). exists j. split; auto.
  rewrite nth_error_app1; auto. apply nth_error_Some. congruence.
Qed.

Section SubsetInvariant.
Variable infa : NFA.
Hypothesis Hwf : nfa_wf infa.
Let n := length (n_states infa).

Definition temp_ok (sets : list IntSet) (i : nat) (t : TempState) : Prop :=
  exists S, nth_error sets i = Some S /\
    ts_id t = Z.of_nat i /\ ts_acc t = has_accept infa S /\
    idx_ok sets (ts_t0 t) (move_set infa S "0"%char) /\
    idx_ok sets (ts_t1 t) (move_set infa S "1"%char).

Record sc_inv (st : Subsets) : Prop := mkScInv {
  si_nodup : NoDup (sc_sets st);
  si_cset : forall S, In S (sc_sets st) -> cset n S /\ S <> [];
  si_map : map_ok (sc_map st) (sc_sets st);
  si_queue : sc_sets st = firstn (length (sc_tmp st)) (sc_sets st) ++ sc_queue st;
  si_len : length (sc_tmp st) + length (sc_queue st) = length (sc_sets st);
  si_tmp : forall i t, nth_error (sc_tmp st) i = Some t -> temp_ok (sc_sets st) i t;
  si_start : nth_error (sc_sets st) 0 = Some [n_start infa]
}.

Definition register_set (S : IntSet) (st : Subsets) : Z * Subsets :=
  match om_find set_compare S (sc_map st) with
  | None =>
      let id := Z.of_nat (length (sc_sets st)) in
      (id, mkSubsets (om_set set_compare S id (sc_map st))
                     (sc_sets st ++ [S]) (sc_queue st ++ [S]) (sc_tmp st))
  | Some id => (id, st)
  end.

Lemma get_state_id_nonempty S st :
  S <> [] -> get_state_id S st = register_set S st.
Proof. destruct S; [congruence|reflexivity]. Qed.

Lemma get_state_id_spec S st :
  cset n S ->
  NoDup (sc_sets st) -> (forall S, In S (sc_sets st) -> cset n S /\ S <> []) ->
  map_ok (sc_map st) (sc_sets st) ->
  exists added,
    sc_sets (snd (get_state_id S st)) = sc_sets st ++ added /\
    sc_queue (snd (get_state_id S st)) = sc_queue st ++ added /\
    sc_tmp (snd (get_state_id S st)) = sc_tmp st /\
    idx_ok (sc_sets (snd (get_state_id S st))) (fst (get_state_id S st)) S /\
    NoDup (sc_sets (snd (get_state_id S st))) /\
    (forall S', In S' (sc_sets (snd (get_state_id S st))) -> cset n S' /\ S' <> []) /\
    map_ok (sc_map (snd (get_state_id S st))) (sc_sets (snd (get_state_id S st))).
Proof.
  intros CS N C [M1 M2].
  destruct (list_eq_dec Nat.eq_dec S []) as [->|Hne].
  - exists []. simpl. rewrite !app_nil_r. repeat split; auto; apply C; auto.
  - rewrite get_state_id_nonempty by assumption. unfold register_set.
    assert (Hidx : forall sets z, (exists j, z = Z.of_nat j /\ nth_error sets j = Some S)
                     -> idx_ok sets z S).
    { intros sets z H. destruct S; [congruence|exact H]. }
    destruct (om_find set_compare S (sc_map st)) as [id|] eqn:F.
    + exists []. simpl. rewrite !app_nil_r. repeat split; auto; try (apply C; auto).
    + assert (Hnot : ~ In S (sc_sets st)).
      { intros Hin. apply In_nth_error in Hin as (j & Hj).
        apply M2 in Hj. congruence. }
      exists [S]. simpl. repeat split; auto.
      * apply Hidx. exists (length (sc_sets st)). split; auto.
        rewrite nth_error_app2 by lia. now rewrite Nat.sub_diag.
      * apply NoDup_app; auto.
        -- repeat constructor. intros [].
        -- intros y Hy [<-|[]]. contradiction.
      * apply in_app_or in H as [H|[<-|[]]]; [now apply C|apply CS].
      * apply in_app_or in H as [H|[<-|[]]]; [now apply C|apply CS].
      * apply in_app_or in H as [H|[<-|[]]]; [now apply C|assumption].
      * intros S0 id0 F0.
        destruct (list_eq_dec Nat.eq_dec S S0) as [<-|Hne0].
        -- rewrite (@om_find_set_eq _ _ set_compare set_compare_eq) in F0. injection F0 as <-.
           exists (length (sc_sets st)). split; auto.
           rewrite nth_error_app2 by lia. now rewrite Nat.sub_diag.
        -- rewrite (@om_find_set_ne _ _ set_compare set_compare_eq set_compare_trans) in F0 by assumption.
           apply M1 in F0 as (j & -> & Hj). exists j. split; auto.
           rewrite nth_error_app1; auto. apply nth_error_Some. congruence.
      * intros j S0 Hj.
        destruct (Nat.lt_ge_cases j (length (sc_sets st))) as [L|L].
        -- rewrite nth_error_app1 in Hj by assumption.
           assert (S <> S0) by (intros <-; apply Hnot; eapply nth_error_In; eauto).
           rewrite (@om_find_set_ne _ _ set_compare set_compare_eq set_compare_trans) by assumption.
           now apply M2.
        -- rewrite nth_error_app2 in Hj by assumption.
           destruct (j - length (sc_sets st)) as [|k] eqn:Ek; simpl in Hj.
           ++ injection Hj as <-.
              rewrite (@om_find_set_eq _ _ set_compare set_compare_eq). f_equal. lia.
           ++ destruct k; discriminate.
Qed.

End SubsetInvariant.

(** One turn of the loop of [convert], for the subset [cur] at the front of
    the queue. *)
Definition subset_step (infa : NFA) (st : Subsets) (cur : IntSet)
    (rest : list IntSet) : Subsets :=
  let st1 := mkSubsets (sc_map st) (sc_sets st) rest (sc_tmp st) in
  let r0 := get_state_id (move_set infa cur "0"%char) st1 in
  let r1 := get_state_id (move_set infa cur "1"%char) (snd r0) in
  mkSubsets (sc_map (snd r1)) (sc_sets (snd r1)) (sc_queue (snd r1))
            (sc_tmp (snd r1)
             ++ [mkTemp (sc_lookup (sc_map st) cur) (has_accept infa cur)
                        (fst r0) (fst r1)]).

Lemma subset_loop_step fuel infa st :
  subset_loop (S fuel) infa st =
  match sc_queue st with
  | [] => Some st
  | cur :: rest => subset_loop fuel infa (subset_step infa st cur rest)
  end.
Proof.
  simpl. destruct (sc_queue st) as [|cur rest]; auto.
  unfold subset_step.
  destruct (get_state_id (move_set infa cur "0"%char) _) as [id0 st2]. simpl.
  destruct (get_state_id (move_set infa cur "1"%char) st2) as [id1 st3].
  reflexivity.
Qed.

Lemma firstn_app_cons {A : Type} (l : list A) x r :
  firstn (S (length l)) (l ++ x :: r) = l ++ [x].
Proof.
  induction l as [|y l IH]; simpl; auto. f_equal. exact IH.
Qed.

Section SubsetLoop.
Variable infa : NFA.
Hypothesis Hwf : nfa_wf infa.
Let n := length (n_states infa).

Lemma temp_ok_app sets added i t :
  temp_ok infa sets i t -> temp_ok infa (sets ++ added) i t.
Proof.
  intros (S & HS & Hid & Hacc & H0 & H1). exists S.
  repeat split; auto using idx_ok_app.
  rewrite nth_error_app1; auto. apply nth_error_Some. congruence.
Qed.

Lemma subset_step_inv st cur rest :
  sc_inv infa st -> sc_queue st = cur :: rest ->
  sc_inv infa (subset_step infa st cur rest) /\
  length (sc_sets (subset_step infa st cur rest))
    + length (sc_queue st)
  = length (sc_sets st) + S (length (sc_queue (subset_step infa st cur rest))).
Proof.
  intros [N C M Q L T St] Eq.
  set (T0 := length (sc_tmp st)) in *.
  assert (Hsets : sc_sets st = firstn T0 (sc_sets st) ++ cur :: rest)
    by (now rewrite <- Eq).
  assert (LT : length (firstn T0 (sc_sets st)) = T0).
  { apply firstn_length_le. lia. }
  assert (Hcur : nth_error (sc_sets st) T0 = Some cur).
  { rewrite Hsets. rewrite nth_error_app2 by lia.
    rewrite LT, Nat.sub_diag. reflexivity. }
  assert (Hcid : sc_lookup (sc_map st) cur = Z.of_nat T0).
  { unfold sc_lookup. now rewrite (proj2 M _ _ Hcur). }
  unfold subset_step.
  set (st1 := mkSubsets (sc_map st) (sc_sets st) rest (sc_tmp st)).
  destruct (@get_state_id_spec infa (move_set infa cur "0"%char) st1)
    as (a0 & S0 & Q0 & T0' & I0 & N0 & C0 & M0); auto.
  { now apply move_set_cset. }
  set (r0 := get_state_id (move_set infa cur "0"%char) st1) in *.
  destruct (@get_state_id_spec infa (move_set infa cur "1"%char) (snd r0))
    as (a1 & S1 & Q1 & T1' & I1 & N1 & C1 & M1); auto.
  { now apply move_set_cset. }
  set (r1 := get_state_id (move_set infa cur "1"%char) (snd r0)) in *.
  simpl in S0, Q0, T0'.
  assert (Es : sc_sets (snd r1) = sc_sets st ++ a0 ++ a1)
    by (rewrite S1, S0; now rewrite app_assoc).
  assert (Eq' : sc_queue (snd r1) = rest ++ a0 ++ a1)
    by (rewrite Q1, Q0; now rewrite app_assoc).
  assert (Et : sc_tmp (snd r1) = sc_tmp st) by (now rewrite T1', T0').
  split.
  - constructor; cbn [sc_map sc_sets sc_queue sc_tmp]; auto.
    + rewrite Et, length_app. simpl. fold T0.
      rewrite Es at 2. rewrite Hsets at 1. rewrite <- !app_assoc. simpl.
      replace (T0 + 1) with (S (length (firstn T0 (sc_sets st)))) by lia.
      rewrite firstn_app_cons. rewrite <- app_assoc. simpl.
      rewrite Es. rewrite Hsets at 1. rewrite <- app_assoc. simpl.
      now rewrite Eq'.
    + rewrite Et, length_app, Es, Eq', !length_app. simpl. fold T0.
      rewrite Eq in L. simpl in L. lia.
    + intros i t Hi. rewrite Et in Hi.
      destruct (Nat.lt_ge_cases i T0) as [Li|Li].
      * rewrite nth_error_app1 in Hi by assumption.
        rewrite Es. apply temp_ok_app. now apply T.
      * rewrite nth_error_app2 in Hi by assumption. fold T0 in Hi.
        destruct (i - T0) as [|k] eqn:Ek; simpl in Hi; [|destruct k; discriminate].
        injection Hi as <-. assert (i = T0) by lia. subst i.
        exists cur. simpl. repeat split; auto.
        -- rewrite Es. rewrite nth_error_app1; auto.
           apply nth_error_Some. congruence.
        -- rewrite S1. now apply idx_ok_app.
    + rewrite Es. rewrite nth_error_app1; auto.
      apply nth_error_Some. congruence.
  - simpl. rewrite Es, Eq', Eq, !length_app. simpl. lia.
Qed.

Lemma subset_loop_inv : forall fuel st,
  sc_inv infa st ->
  2 ^ n - length (sc_sets st) + length (sc_queue st) < fuel ->
  exists st', subset_loop fuel infa st = Some st' /\ sc_inv infa st'
              /\ sc_queue st' = [].
Proof.
  induction fuel as [|fuel IH]; intros st I F; [lia|].
  rewrite subset_loop_step. destruct (sc_queue st) as [|cur rest] eqn:Eq.
  - exists st. auto.
  - destruct (subset_step_inv I Eq) as [I' E'].
    apply IH; auto.
    pose proof (csets_bounded (si_nodup I')
                  (fun S H => proj1 (si_cset I' S H))) as B. fold n in B.
    rewrite Eq in E'. cbn [length] in E', F. lia.
Qed.

Lemma subset_init_inv :
  sc_inv infa (mkSubsets (om_set set_compare [n_start infa] 0%Z [])
                         [[n_start infa]] [[n_start infa]] []).
Proof.
  destruct Hwf as [Hs _].
  constructor; simpl; auto.
  - repeat constructor. intros [].
  - intros S [<-|[]]. split; [|discriminate]. split.
    + repeat constructor.
    + intros x [<-|[]]. exact Hs.
  - split.
    + intros S id H. simpl in H.
      destruct (set_compare S [n_start infa]) eqn:C; try discriminate.
      apply set_compare_eq in C. subst S. injection H as <-.
      exists 0. auto.
    + intros [|j] S H; simpl in H.
      * injection H as <-. simpl. rewrite Nat.compare_refl. reflexivity.
      * destruct j; discriminate.
  - intros i t H. destruct i; discriminate.
Qed.

End SubsetLoop.

(** *** What convert returns *)

(** The character of a symbol. *)
Definition bit_char (b : bool) : ascii := if b then "1"%char else "0"%char.

Definition dstate_of (t : TempState) : DState :=
  mkDState (ts_id t) (ts_acc t) (ts_t0 t) (ts_t1 t).

Definition dflt_temp : TempState := mkTemp 0 false 0 0.

Lemma length_store_all l : forall s,
  length (fold_left store_state l s) = length s.
Proof.
  induction l as [|t l IH]; intros s; simpl; auto.
  rewrite IH. apply length_set_nth.
Qed.

Lemma store_all l : forall s,
  length l <= length s ->
  (forall i t, nth_error l i = Some t -> ts_id t = Z.of_nat i) ->
  forall i, i < length l ->
    nth i (fold_left store_state l s) dflt_state = dstate_of (nth i l dflt_temp).
Proof.
  induction l as [|t l IH] using rev_ind; intros s Ls Hid i Li; [simpl in Li; lia|].
  rewrite length_app in Li, Ls. simpl in Li, Ls.
  rewrite fold_left_app. simpl. unfold store_state at 1.
  assert (Et : ts_id t = Z.of_nat (length l)).
  { apply Hid. rewrite nth_error_app2 by lia. now rewrite Nat.sub_diag. }
  rewrite Et, Nat2Z.id.
  destruct (Nat.eq_dec i (length l)) as [->|Hne].
  - rewrite nth_set_nth_eq by (rewrite length_store_all; lia).
    rewrite app_nth2 by lia. rewrite Nat.sub_diag. simpl.
    unfold dstate_of. now rewrite Et.
  - rewrite nth_set_nth_ne by lia.
    rewrite app_nth1 by lia. apply IH; try lia.
    intros j t' Hj. apply Hid. rewrite nth_error_app1; auto.
    apply nth_error_Some. congruence.
Qed.

(** The DFA and the subsets its states stand for. *)
Record subset_dfa (infa : NFA) (dfa : DFA) (sets : list IntSet) : Prop :=
  mkSubsetDfa {
  sd_len : length (d_states dfa) = length sets;
  sd_start : d_start dfa = 0%Z;
  sd_start_set : nth_error sets 0 = Some [n_start infa];
  sd_trap : d_trap dfa = Z.of_nat (length sets - 1);
  sd_trap_set : forall i, i < length sets ->
      (nth i sets [] = [] <-> Z.of_nat i = d_trap dfa);
  sd_id : forall i, i < length sets -> d_id (d_at dfa i) = Z.of_nat i;
  sd_accept : forall i, i < length sets ->
      d_accept (d_at dfa i) = has_accept infa (nth i sets []);
  sd_trans : forall i b, i < length sets ->
      exists j, j < length sets /\ d_tr dfa i b = Z.of_nat j /\
                nth j sets [] = move_set infa (nth i sets []) (bit_char b);
  sd_nodup : NoDup sets;
  sd_cset : forall S, In S sets -> cset (length (n_states infa)) S
}.

Lemma move_set_nil infa c : move_set infa [] c = [].
Proof. reflexivity. Qed.

Lemma convert_sets_spec (infa : NFA) :
  nfa_wf infa ->
  exists dfa sets, convert_sets infa = Some (dfa, sets) /\ subset_dfa infa dfa sets.
Proof.
  intros Hwf. unfold convert_sets.
  destruct (@subset_loop_inv infa Hwf (S (2 ^ length (n_states infa)))
              (mkSubsets (om_set set_compare [n_start infa] 0%Z [])
                         [[n_start infa]] [[n_start infa]] []))
    as (st & E & I & Q).
  { now apply subset_init_inv. }
  { simpl. assert (0 < 2 ^ length (n_states infa)) by (apply Nat.neq_0_lt_0, Nat.pow_nonzero; lia). lia. }
  rewrite E.
  destruct I as [N C M Qs L T St]. rewrite Q in *. simpl in L.
  rewrite Nat.add_0_r in L.
  assert (Fnil : om_find set_compare [] (sc_map st) = None).
  { destruct (om_find set_compare [] (sc_map st)) as [id|] eqn:F; auto.
    apply M in F as (j & _ & Hj). apply nth_error_In in Hj.
    now apply C in Hj as [_ Hj]. }
  rewrite Fnil. cbn [sc_map sc_sets sc_tmp].
  set (tid := Z.of_nat (length (sc_tmp st))).
  assert (Etrap : sc_lookup (om_set set_compare [] tid (sc_map st)) [] = tid).
  { unfold sc_lookup. now rewrite (@om_find_set_eq _ _ set_compare set_compare_eq). }
  rewrite Etrap.
  set (sets := sc_sets st) in *. set (tmp := sc_tmp st) in *.
  assert (Ls : length sets = length tmp) by (symmetry; exact L).
  set (tmp' := map (fix_trap tid) (tmp ++ [mkTemp tid false tid tid])).
  assert (Ltmp' : length tmp' = S (length tmp)).
  { unfold tmp'. rewrite length_map, length_app. simpl. lia. }
  assert (Hids : forall i t, nth_error tmp' i = Some t -> ts_id t = Z.of_nat i).
  { intros i t Hi. unfold tmp' in Hi. rewrite nth_error_map in Hi.
    destruct (nth_error (tmp ++ [mkTemp tid false tid tid]) i) as [t0|] eqn:E0;
      [|discriminate].
    injection Hi as <-. simpl.
    destruct (Nat.lt_ge_cases i (length tmp)) as [Li|Li].
    - rewrite nth_error_app1 in E0 by assumption.
      apply T in E0 as (S0 & _ & Hid & _). exact Hid.
    - rewrite nth_error_app2 in E0 by assumption.
      destruct (i - length tmp) as [|k] eqn:Ek; simpl in E0; [|destruct k; discriminate].
      injection E0 as <-. simpl. unfold tid. f_equal. lia. }
  assert (Hat : forall i, i < S (length tmp) ->
            d_at (mkDFA (fold_left store_state tmp' (repeat dflt_state (length tmp')))
                        0%Z tid) i
            = dstate_of (nth i tmp' dflt_temp)).
  { intros i Li. unfold d_at. cbn [d_states].
    apply store_all; auto; rewrite ?repeat_length; lia. }
  assert (Hnth_old : forall i, i < length tmp ->
            nth i tmp' dflt_temp = fix_trap tid (nth i tmp dflt_temp)).
  { intros i Li. unfold tmp'.
    rewrite (nth_indep _ dflt_temp (fix_trap tid dflt_temp))
      by (rewrite length_map, length_app; simpl; lia).
    rewrite map_nth. now rewrite app_nth1. }
  assert (Hnth_trap : nth (length tmp) tmp' dflt_temp = mkTemp tid false tid tid).
  { unfold tmp'.
    rewrite (nth_indep _ dflt_temp (fix_trap tid dflt_temp))
      by (rewrite length_map, length_app; simpl; lia).
    rewrite map_nth. rewrite app_nth2 by lia. rewrite Nat.sub_diag. simpl.
    unfold fix_trap. simpl.
    replace (tid <? 0)%Z with false by (symmetry; apply Z.ltb_ge; unfold tid; lia).
    reflexivity. }
  assert (Hsets_old : forall i, i < length sets ->
            nth i (sets ++ [[]]) [] = nth i sets [] /\ nth i sets [] <> []).
  { intros i Li. rewrite app_nth1 by assumption. split; auto.
    apply (C (nth i sets [])). now apply nth_In. }
  assert (Hsets_trap : nth (length sets) (sets ++ [[]]) [] = []).
  { rewrite app_nth2 by lia. now rewrite Nat.sub_diag. }
  eexists. eexists. split; [reflexivity|].
  constructor; cbn [d_states d_start d_trap].
  - rewrite length_store_all, repeat_length, Ltmp', length_app. simpl. lia.
  - reflexivity.
  - rewrite nth_error_app1; auto. apply nth_error_Some. congruence.
  - rewrite length_app. simpl. unfold tid. f_equal. lia.
  - rewrite length_app. simpl. intros i Li. unfold tid. rewrite <- Ls.
    destruct (Nat.eq_dec i (length sets)) as [->|Hne].
    + rewrite Hsets_trap. tauto.
    + destruct (Hsets_old i) as [-> Hn]; [lia|]. split; [contradiction|lia].
  - rewrite length_app. simpl. intros i Li.
    rewrite Hat by lia. unfold dstate_of. simpl.
    apply Hids. apply nth_error_nth'. lia.
  - rewrite length_app. simpl. intros i Li. rewrite Hat by lia.
    destruct (Nat.eq_dec i (length sets)) as [->|Hne].
    + rewrite Hsets_trap. rewrite Ls, Hnth_trap. reflexivity.
    + destruct (Hsets_old i) as [-> _]; [lia|].
      rewrite Hnth_old by lia. simpl.
      destruct (T i (nth i tmp dflt_temp)) as (S0 & HS & _ & Hacc & _).
      { apply nth_error_nth'. lia. }
      rewrite Hacc. f_equal. symmetry. now apply nth_error_nth.
  - rewrite length_app. simpl. intros i b Li. unfold d_tr. rewrite Hat by lia.
    destruct (Nat.eq_dec i (length sets)) as [->|Hne].
    + exists (length sets). rewrite Hsets_trap, move_set_nil.
      split; [lia|]. split; [|reflexivity].
      rewrite Ls, Hnth_trap. unfold tid. destruct b; reflexivity.
    + destruct (Hsets_old i) as [-> _]; [lia|].
      rewrite Hnth_old by lia.
      destruct (T i (nth i tmp dflt_temp)) as (S0 & HS & _ & _ & H0 & H1).
      { apply nth_error_nth'. lia. }
      rewrite (@nth_error_nth _ sets i S0 [] HS).
      assert (Hfix : forall z go, idx_ok sets z go ->
                exists j, j < length sets + 1 /\
                  (if (z <? 0)%Z then tid else z) = Z.of_nat j /\
                  nth j (sets ++ [[]]) [] = go).
      { intros z go Hz. destruct go as [|x go].
        - simpl in Hz. subst z. simpl. exists (length sets).
          split; [lia|]. split; [unfold tid; f_equal; lia|exact Hsets_trap].
        - destruct Hz as (j & -> & Hj). exists j.
          assert (Lj : j < length sets) by (apply nth_error_Some; congruence).
          split; [lia|]. split.
          + destruct (Z.ltb_spec (Z.of_nat j) 0); [lia|reflexivity].
          + rewrite app_nth1 by assumption. now apply nth_error_nth. }
      destruct b; simpl; [apply (Hfix _ _ H1)|apply (Hfix _ _ H0)].
  - apply NoDup_app; auto.
    + repeat constructor. intros [].
    + intros S0 HS [<-|[]]. now apply C in HS as [_ HS].
  - intros S0 HS. apply in_app_or in HS as [HS|[<-|[]]].
    + now apply C.
    + split; [constructor|intros ? []].
Qed.

(** ** The language of an NFA *)

(** A path from [p] to [r] that reads [w]; silent transitions read nothing. *)
Inductive n_path (nfa : NFA) : nat -> list ascii -> nat -> Prop :=
| n_path_nil p : n_path nfa p [] p
| n_path_eps p q r w :
    In q (n_targets nfa p EPS) -> n_path nfa q w r -> n_path nfa p w r
| n_path_chr p c q r w :
    c <> EPS -> In q (n_targets nfa p c) -> n_path nfa q w r ->
    n_path nfa p (c :: w) r.

Definition n_accepts_from (nfa : NFA) (p : nat) (w : list ascii) : Prop :=
  exists q, n_path nfa p w q /\ n_accept (n_at nfa q) = true.

Definition n_accepts (nfa : NFA) (w : list ascii) : Prop :=
  n_accepts_from nfa (n_start nfa) w.

(** No state has a silent transition. *)
Definition eps_free (nfa : NFA) : Prop :=
  forall p, n_targets nfa p EPS = [].

Lemma bit_char_not_eps b : bit_char b <> EPS.
Proof. destruct b; discriminate. Qed.

Section EpsFree.
Variable nfa : NFA.
Hypothesis Hfree : eps_free nfa.

Lemma n_accepts_from_nil p :
  n_accepts_from nfa p [] <-> n_accept (n_at nfa p) = true.
Proof.
  split.
  - intros (q & H & A). inversion H; subst; auto.
    rewrite Hfree in H0. destruct H0.
  - intros A. exists p. split; [constructor|auto].
Qed.

Lemma n_accepts_from_cons p c w :
  c <> EPS ->
  (n_accepts_from nfa p (c :: w) <->
   exists q, In q (n_targets nfa p c) /\ n_accepts_from nfa q w).
Proof.
  intros Hc. split.
  - intros (r & H & A). inversion H; subst.
    + rewrite Hfree in H0. destruct H0.
    + exists q. split; auto. exists r. auto.
  - intros (q & Hq & r & H & A). exists r. split; auto.
    now apply n_path_chr with (q := q).
Qed.

(** Some state of the subset accepts the word. *)
Definition set_accepts (S : IntSet) (w : list ascii) : Prop :=
  exists p, In p S /\ n_accepts_from nfa p w.

Lemma set_accepts_nil S : set_accepts S [] <-> has_accept nfa S = true.
Proof.
  unfold set_accepts, has_accept. rewrite existsb_exists.
  split; intros (p & Hp & H); exists p; split; auto; now apply n_accepts_from_nil.
Qed.

Lemma set_accepts_cons S c w :
  c <> EPS ->
  (set_accepts S (c :: w) <-> set_accepts (move_set nfa S c) w).
Proof.
  intros Hc. unfold set_accepts. split.
  - intros (p & Hp & H). apply n_accepts_from_cons in H as (q & Hq & H); auto.
    exists q. split; auto. apply in_move_set. eauto.
  - intros (q & Hq & H). apply in_move_set in Hq as (p & Hp & Hq).
    exists p. split; auto. apply n_accepts_from_cons; eauto.
Qed.

Lemma set_accepts_start w : set_accepts [n_start nfa] w <-> n_accepts nfa w.
Proof.
  unfold set_accepts, n_accepts. split.
  - intros (p & [<-|[]] & H). exact H.
  - intros H. exists (n_start nfa). split; auto. now left.
Qed.

End EpsFree.

(** ** Subset construction is correct *)

Section SubsetDfa.
Variables (infa : NFA) (dfa : DFA) (sets : list IntSet).
Hypothesis Hsd : subset_dfa infa dfa sets.

Lemma subset_dfa_total : d_total dfa.
Proof.
  pose proof (sd_len Hsd) as L.
  assert (Hpos : 0 < length sets).
  { pose proof (sd_start_set Hsd) as H.
    apply nth_error_Some. congruence. }
  split; [|split].
  - intros st Hin. apply In_nth with (d := dflt_state) in Hin as (i & Li & <-).
    rewrite L in Li. fold (d_at dfa i).
    destruct (sd_trans Hsd false Li) as (j0 & L0 & E0 & _).
    destruct (sd_trans Hsd true Li) as (j1 & L1 & E1 & _).
    unfold d_tr in E0, E1. rewrite E0, E1.
    split; apply in_range_spec; lia.
  - rewrite (sd_start Hsd). apply in_range_spec. lia.
  - rewrite (sd_trap Hsd). apply in_range_spec. lia.
Qed.

Lemma subset_trap_index :
  d_trap dfa = Z.of_nat (length sets - 1) /\ 0 < length sets
  /\ nth (length sets - 1) sets [] = [].
Proof.
  pose proof (sd_trap Hsd) as Ht.
  assert (Hpos : 0 < length sets).
  { pose proof (sd_start_set Hsd) as H. apply nth_error_Some. congruence. }
  repeat split; auto.
  apply (sd_trap_set Hsd); [lia|]. now rewrite Ht.
Qed.

Lemma subset_empty_move i b :
  i < length sets ->
  move_set infa (nth i sets []) (bit_char b) = [] ->
  d_tr dfa i b = d_trap dfa.
Proof.
  intros Li Hm. destruct (sd_trans Hsd b Li) as (j & Lj & E & Es).
  rewrite Hm in Es. rewrite E. now apply (sd_trap_set Hsd).
Qed.

Lemma subset_succ_set i b :
  i < length sets ->
  nth (d_succ dfa i b) sets [] = move_set infa (nth i sets []) (bit_char b).
Proof.
  intros Li. destruct (sd_trans Hsd b Li) as (j & Lj & E & Es).
  unfold d_succ. rewrite E, Nat2Z.id. exact Es.
Qed.

Hypothesis Hfree : eps_free infa.

Lemma subset_accepts w : forall i,
  i < length sets ->
  (d_accepts_from dfa (Z.of_nat i) w = true <->
   set_accepts infa (nth i sets []) (map bit_char w)).
Proof.
  pose proof subset_dfa_total as (Htr & _ & _).
  pose proof (sd_len Hsd) as L.
  induction w as [|b w IH]; intros i Li.
  - rewrite d_accepts_from_nil by lia. rewrite (sd_accept Hsd Li).
    simpl. symmetry. now apply set_accepts_nil.
  - rewrite (d_accepts_from_cons Htr) by lia. simpl.
    rewrite set_accepts_cons by (auto using bit_char_not_eps).
    rewrite <- subset_succ_set by assumption.
    apply IH. rewrite <- L. apply (d_succ_lt Htr). lia.
Qed.

(** The DFA accepts the words over {0,1} the NFA accepts. *)
Lemma subset_language w :
  d_accepts dfa w = true <-> n_accepts infa (map bit_char w).
Proof.
  unfold d_accepts. rewrite (sd_start Hsd).
  assert (Hpos : 0 < length sets).
  { pose proof (sd_start_set Hsd) as H. apply nth_error_Some. congruence. }
  change 0%Z with (Z.of_nat 0). rewrite subset_accepts by assumption.
  rewrite (@nth_error_nth _ sets 0 _ [] (sd_start_set Hsd)).
  now apply set_accepts_start.
Qed.

End SubsetDfa.

(** C5.  The DFA [convert] returns is total and well-formed: every state's
    0-successor and 1-successor, the start and the trap are indices of
    existing states; exactly one state stands for the empty subset, the trap;
    the trap is non-accepting and both its transitions loop to itself; and
    every subset move that yields the empty set leads to the trap index. *)
Theorem convert_total_with_trap (infa : NFA) :
  nfa_wf infa ->
  exists dfa sets,
    convert_sets infa = Some (dfa, sets) /\ convert infa = Some dfa /\
    length sets = length (d_states dfa) /\
    d_total dfa /\
    (forall i, i < length sets ->
       (nth i sets [] = [] <-> Z.of_nat i = d_trap dfa)) /\
    d_accept (d_at dfa (Z.to_nat (d_trap dfa))) = false /\
    d_t0 (d_at dfa (Z.to_nat (d_trap dfa))) = d_trap dfa /\
    d_t1 (d_at dfa (Z.to_nat (d_trap dfa))) = d_trap dfa /\
    (forall i b, i < length sets ->
       nth (d_succ dfa i b) sets [] = move_set infa (nth i sets []) (bit_char b)) /\
    (forall i b, i < length sets ->
       move_set infa (nth i sets []) (bit_char b) = [] ->
       d_tr dfa i b = d_trap dfa).
Proof.
  intros Hwf. destruct (convert_sets_spec Hwf) as (dfa & sets & E & Hsd).
  exists dfa, sets.
  destruct (subset_trap_index Hsd) as (Et & Hpos & Hempty).
  assert (Lt : length sets - 1 < length sets) by lia.
  assert (Etn : Z.to_nat (d_trap dfa) = length sets - 1) by (rewrite Et; lia).
  split; [exact E|]. split; [unfold convert; now rewrite E|].
  split; [symmetry; apply (sd_len Hsd)|].
  split; [apply (subset_dfa_total Hsd)|].
  split; [apply (sd_trap_set Hsd)|].
  rewrite Etn. split; [|split; [|split; [|split]]].
  - rewrite (sd_accept Hsd Lt), Hempty. reflexivity.
  - apply (@subset_empty_move infa dfa sets Hsd (length sets - 1) false Lt).
    now rewrite Hempty.
  - apply (@subset_empty_move infa dfa sets Hsd (length sets - 1) true Lt).
    now rewrite Hempty.
  - intros i b Li. now apply (subset_succ_set Hsd).
  - intros i b Li. now apply (subset_empty_move Hsd).
Qed.

(** ** EpsilonRemover: the closures *)

(** [q] is reached from [p] by silent transitions alone. *)
Inductive eps_reach (nfa : NFA) (p : nat) : nat -> Prop :=
| eps_reach_refl : eps_reach nfa p p
| eps_reach_step q r :
    eps_reach nfa p q -> In r (n_targets nfa q EPS) -> eps_reach nfa p r.

Lemma eps_reach_trans nfa p q r :
  eps_reach nfa p q -> eps_reach nfa q r -> eps_reach nfa p r.
Proof.
  intros H1 H2. induction H2; auto. eapply eps_reach_step; eauto.
Qed.

Lemma eps_reach_first nfa p q r :
  In q (n_targets nfa p EPS) -> eps_reach nfa q r -> eps_reach nfa p r.
Proof.
  intros H1 H2. apply eps_reach_trans with (q := q); auto.
  eapply eps_reach_step; [constructor|exact H1].
Qed.

Lemma sorted_bounded_length n (s : IntSet) :
  StronglySorted lt s -> (forall x, In x s -> x < n) -> length s <= n.
Proof.
  intros S B.
  assert (H : length s <= length (seq 0 n)).
  { apply NoDup_incl_length; [now apply sorted_lt_nodup|].
    intros x Hx. apply in_seq. specialize (B x Hx). lia. }
  now rewrite length_seq in H.
Qed.

Section Closure.
Variable infa : NFA.
Hypothesis Hwf : nfa_wf infa.
Let n := length (n_states infa).
Variable s : nat.
Hypothesis Hs : s < n.

Record clo_inv (pend : list nat) (clo : IntSet) (st : list nat) : Prop :=
  mkCloInv {
  ci_sorted : StronglySorted lt clo;
  ci_bound : forall x, In x clo -> x < n;
  ci_self : In s clo;
  ci_reach : forall x, In x clo -> eps_reach infa s x;
  ci_stack : forall x, In x st -> In x clo;
  ci_closed : forall x, In x clo ->
      In x (st ++ pend) \/ forall y, In y (n_targets infa x EPS) -> In y clo
}.

Lemma closure_visit_inv pend acc nxt :
  clo_inv pend (fst acc) (snd acc) ->
  nxt < n -> eps_reach infa s nxt ->
  clo_inv pend (fst (closure_visit acc nxt)) (snd (closure_visit acc nxt)) /\
  In nxt (fst (closure_visit acc nxt)) /\
  (forall x, In x (fst acc) -> In x (fst (closure_visit acc nxt))) /\
  length (snd (closure_visit acc nxt)) + length (fst acc)
  = length (snd acc) + length (fst (closure_visit acc nxt)).
Proof.
  intros [So B Se R St C] Ln Hr. unfold closure_visit.
  destruct (set_mem nxt (fst acc)) eqn:M.
  - apply set_mem_spec in M.
    split; [constructor; auto|]. split; auto.
  - assert (Hn : ~ In nxt (fst acc)).
    { intros H. apply set_mem_spec in H. congruence. }
    simpl. split; [constructor|split; [|split]].
    + now apply set_insert_sorted.
    + intros x Hx. apply in_set_insert in Hx as [->|Hx]; auto.
    + apply in_set_insert. auto.
    + intros x Hx. apply in_set_insert in Hx as [->|Hx]; auto.
    + intros x [<-|Hx]; apply in_set_insert; auto.
    + intros x Hx. apply in_set_insert in Hx as [->|Hx].
      * left. now left.
      * destruct (C x Hx) as [Hin|Hc].
        -- left. now right.
        -- right. intros y Hy. apply in_set_insert. auto.
    + apply in_set_insert. auto.
    + intros x Hx. apply in_set_insert. auto.
    + assert (E : length (set_insert nxt (fst acc)) = S (length (fst acc))).
      { clear - Hn. induction (fst acc) as [|y l IH]; simpl; auto.
        destruct (Nat.compare_spec nxt y) as [E|E|E]; simpl; auto.
        - subst. exfalso. apply Hn. now left.
        - rewrite IH; auto. intros H. apply Hn. now right. }
      rewrite E. lia.
Qed.

Lemma closure_fold_inv pend l : forall acc,
  clo_inv pend (fst acc) (snd acc) ->
  (forall y, In y l -> y < n /\ eps_reach infa s y) ->
  clo_inv pend (fst (fold_left closure_visit l acc))
               (snd (fold_left closure_visit l acc)) /\
  (forall y, In y l -> In y (fst (fold_left closure_visit l acc))) /\
  (forall x, In x (fst acc) -> In x (fst (fold_left closure_visit l acc))) /\
  length (snd (fold_left closure_visit l acc)) + length (fst acc)
  = length (snd acc) + length (fst (fold_left closure_visit l acc)).
Proof.
  induction l as [|y l IH]; intros acc I H; simpl.
  - split; [exact I|]. split; [intros ? []|]. split; auto.
  - destruct (H y (or_introl eq_refl)) as [Ly Ry].
    destruct (@closure_visit_inv pend acc y I Ly Ry) as (I1 & In1 & Mono1 & Len1).
    destruct (IH (closure_visit acc y) I1) as (I2 & In2 & Mono2 & Len2).
    { intros z Hz. apply H. now right. }
    split; [exact I2|]. split; [|split].
    + intros z [<-|Hz]; auto.
    + auto.
    + lia.
Qed.

Lemma closure_loop_spec : forall fuel clo st,
  clo_inv [] clo st ->
  n + length st - length clo < fuel ->
  exists clo', closure_loop fuel infa clo st = Some clo' /\ clo_inv [] clo' [].
Proof.
  induction fuel as [|fuel IH]; intros clo st I F; [lia|].
  simpl. destruct st as [|u st'].
  - exists clo. auto.
  - assert (Hu : In u clo) by (apply (ci_stack I); now left).
    assert (I1 : clo_inv [u] (fst (clo, st')) (snd (clo, st'))).
    { destruct I as [So B Se R St C]. constructor; simpl; auto.
      - intros x Hx. apply St. now right.
      - intros x Hx. destruct (C x Hx) as [Hin|Hc]; auto.
        left. rewrite app_nil_r in Hin. destruct Hin as [<-|Hin].
        + apply in_or_app. right. now left.
        + apply in_or_app. now left. }
    destruct (@closure_fold_inv [u] (n_targets infa u EPS) (clo, st') I1)
      as (I2 & In2 & Mono2 & Len2).
    { intros y Hy. split.
      - destruct Hwf as [_ W]. now apply (W u EPS).
      - eapply eps_reach_step; [apply (ci_reach I); exact Hu|exact Hy]. }
    set (acc := fold_left closure_visit (n_targets infa u EPS) (clo, st')) in *.
    apply IH.
    + destruct I2 as [So B Se R St C]. constructor; auto.
      intros x Hx. destruct (C x Hx) as [Hin|Hc]; auto.
      apply in_app_or in Hin as [Hin|[<-|[]]].
      * left. now rewrite app_nil_r.
      * right. exact In2.
    + pose proof (sorted_bounded_length (ci_sorted I2) (ci_bound I2)) as B2.
      pose proof (sorted_bounded_length (ci_sorted I) (ci_bound I)) as B1.
      simpl in Len2, F. fold n in B1, B2. lia.
Qed.

Lemma closure_of_state :
  exists clo,
    closure_loop (S n) infa [s] [s] = Some clo /\
    StronglySorted lt clo /\
    forall x, In x clo <-> eps_reach infa s x.
Proof.
  destruct (@closure_loop_spec (S n) [s] [s]) as (clo & E & I).
  - constructor; simpl; auto.
    + repeat constructor.
    + intros x [<-|[]]. exact Hs.
    + intros x [<-|[]]. constructor.
  - simpl. lia.
  - exists clo. split; auto. split; [apply (ci_sorted I)|].
    intros x. split; [apply (ci_reach I)|].
    intros R. induction R as [|q r R IH Hr].
    + apply (ci_self I).
    + destruct (ci_closed I q IH) as [[]|Hc]. now apply Hc.
Qed.

End Closure.

(** [eps_closures] after the first loop of [remove]. *)
Definition closures_ok (infa : NFA) (e : list IntSet) : Prop :=
  length e = length (n_states infa) /\
  forall i, i < length (n_states infa) ->
    StronglySorted lt (nth i e []) /\
    forall x, In x (nth i e []) <-> eps_reach infa i x.

Lemma compute_closures_spec (infa : NFA) :
  nfa_wf infa ->
  exists e,
    compute_closures infa (seq 0 (length (n_states infa)))
                     (repeat [] (length (n_states infa))) = Some e /\
    closures_ok infa e.
Proof.
  intros Hwf. set (n := length (n_states infa)).
  assert (H : forall m k e0,
    k + m = n -> length e0 = n ->
    (forall i, i < k -> StronglySorted lt (nth i e0 []) /\
                 forall x, In x (nth i e0 []) <-> eps_reach infa i x) ->
    (forall i, k <= i -> nth i e0 [] = []) ->
    exists e, compute_closures infa (seq k m) e0 = Some e /\ closures_ok infa e).
  { induction m as [|m IH]; intros k e0 Hk L Hdone Htodo.
    - exists e0. simpl. split; auto. split; auto.
      intros i Li. apply Hdone. fold n in Li. lia.
    - cbn [seq compute_closures]. unfold compute_epsilon_closure.
      pose proof (Htodo k (le_n k)) as Ek. unfold IntSet in *. rewrite Ek.
      destruct (@closure_of_state infa Hwf k) as (clo & E & So & Hc);
        [fold n; lia|].
      rewrite E. apply IH.
      + lia.
      + now rewrite length_set_nth.
      + intros i Li. destruct (Nat.eq_dec k i) as [<-|Hne].
        * rewrite nth_set_nth_eq by lia. auto.
        * rewrite nth_set_nth_ne by assumption. apply Hdone. lia.
      + intros i Li. rewrite nth_set_nth_ne by lia. apply Htodo. lia. }
  apply H.
  - lia.
  - apply repeat_length.
  - intros i Li. lia.
  - intros i _. destruct (Nat.lt_ge_cases i n).
    + now apply nth_repeat_lt.
    + apply nth_overflow. now rewrite repeat_length.
Qed.

(** ** EpsilonRemover: the output automaton *)

Lemma om_find_in {V : Type} (m : OMap ascii V) k v :
  om_sorted char_compare m ->
  (om_find char_compare k m = Some v <-> In (k, v) m).
Proof.
  unfold om_sorted. induction m as [|[k' v'] m IH]; simpl; intros S.
  - split; [discriminate|tauto].
  - inversion S as [|? ? S' F]; subst. rewrite Forall_forall in F.
    destruct (char_compare k k') eqn:C.
    + apply char_compare_eq in C. subst k'. split.
      * intros [= ->]. now left.
      * intros [[= ->]|Hin]; auto.
        exfalso. assert (Hk : In k (map fst m)) by (apply in_map_iff; exists (k, v); auto).
        specialize (F k Hk). simpl in F.
        assert (R : char_compare k k = Eq) by now apply char_compare_eq.
        congruence.
    + split; [discriminate|].
      intros [[= -> ->]|Hin].
      * assert (R : char_compare k k = Eq) by now apply char_compare_eq.
        congruence.
      * exfalso. assert (Hk : In k (map fst m)) by (apply in_map_iff; exists (k, v); auto).
        specialize (F k Hk). simpl in F.
        rewrite char_compare_antisym, F in C. discriminate.
    + rewrite (IH S'). split; auto.
      intros [[= -> ->]|Hin]; auto.
      assert (R : char_compare k k = Eq) by now apply char_compare_eq.
      congruence.
Qed.

(** The set stored under [c], empty when there is none. *)
Definition om_members (comb : OMap ascii IntSet) (c : ascii) : IntSet :=
  match om_find char_compare c comb with
  | Some s => s
  | None => []
  end.

Lemma om_members_insert comb c ec c' r :
  In r (om_members (om_alter char_compare c (set_insert ec) [] comb) c') <->
  (c' = c /\ r = ec) \/ In r (om_members comb c').
Proof.
  unfold om_members. destruct (ascii_dec c c') as [<-|Hne].
  - rewrite (@om_find_alter_eq _ _ char_compare char_compare_eq).
    rewrite in_set_insert. intuition.
  - rewrite (@om_find_alter_ne _ _ char_compare char_compare_eq char_compare_trans)
      by assumption.
    intuition congruence.
Qed.

Definition insert_all (c : ascii) (comb : OMap ascii IntSet) (ecs : list nat)
  : OMap ascii IntSet :=
  fold_left (fun comb ec => om_alter char_compare c (set_insert ec) [] comb)
            ecs comb.

Lemma om_members_insert_all c ecs : forall comb c' r,
  In r (om_members (insert_all c comb ecs) c') <->
  (c' = c /\ In r ecs) \/ In r (om_members comb c').
Proof.
  unfold insert_all. induction ecs as [|ec ecs IH]; intros comb c' r; simpl.
  - tauto.
  - rewrite IH, om_members_insert. intuition.
Qed.

Lemma insert_all_sorted c ecs : forall comb,
  om_sorted char_compare comb -> om_sorted char_compare (insert_all c comb ecs).
Proof.
  unfold insert_all. induction ecs as [|ec ecs IH]; intros comb S; simpl; auto.
  apply IH.
  now apply (@om_alter_sorted _ _ char_compare char_compare_eq
               char_compare_trans char_compare_antisym).
Qed.

Section RemoveState.
Variable infa : NFA.
Variable e : list IntSet.

Lemma combine_entry_members kv : forall comb c' r,
  In r (om_members (combine_entry e comb kv) c') <->
  (c' = fst kv /\ c' <> EPS /\ exists nxt, In nxt (snd kv) /\ In r (nth nxt e []))
  \/ In r (om_members comb c').
Proof.
  intros comb c' r. unfold combine_entry.
  destruct (Ascii.eqb_spec (fst kv) EPS) as [E|E].
  - split; auto. intros [(-> & H & _)|H]; auto. contradiction.
  - fold (insert_all (fst kv)).
    generalize (snd kv) as l. intros l. revert comb.
    induction l as [|nxt l IH]; intros comb; simpl.
    + split; auto. intros [(_ & _ & x & [] & _)|H]; auto.
    + rewrite IH. fold (insert_all (fst kv) comb (nth nxt e [])).
      rewrite om_members_insert_all. split.
      * intros [(-> & _ & x & Hx & Hr)|[[-> Hr]|H]]; eauto 10.
      * intros [(-> & _ & x & [<-|Hx] & Hr)|H]; eauto 10.
Qed.

Lemma combine_entry_sorted kv comb :
  om_sorted char_compare comb -> om_sorted char_compare (combine_entry e comb kv).
Proof.
  intros S. unfold combine_entry. destruct (Ascii.eqb (fst kv) EPS); auto.
  generalize (snd kv) as l. intros l. revert comb S.
  induction l as [|nxt l IH]; intros comb S; simpl; auto.
  apply IH. fold (insert_all (fst kv) comb (nth nxt e [])).
  now apply insert_all_sorted.
Qed.

Lemma combine_entries_members m : forall comb c' r,
  In r (om_members (fold_left (combine_entry e) m comb) c') <->
  (c' <> EPS /\ exists v nxt, In (c', v) m /\ In nxt v /\ In r (nth nxt e []))
  \/ In r (om_members comb c').
Proof.
  induction m as [|[k v] m IH]; intros comb c' r; simpl.
  - split; auto. intros [(_ & ? & ? & [] & _)|H]; auto.
  - rewrite IH, combine_entry_members. simpl. split.
    + intros [(Hc & v' & nxt & Hin & Hn & Hr)|[(-> & Hc & nxt & Hn & Hr)|H]];
        eauto 10.
    + intros [(Hc & v' & nxt & [[= <- <-]|Hin] & Hn & Hr)|H]; eauto 10.
Qed.

Lemma combine_entries_sorted m : forall comb,
  om_sorted char_compare comb ->
  om_sorted char_compare (fold_left (combine_entry e) m comb).
Proof.
  induction m as [|kv m IH]; intros comb S; simpl; auto.
  apply IH. now apply combine_entry_sorted.
Qed.

Hypothesis Hsorted : forall st, In st (n_states infa) ->
  om_sorted char_compare (n_trans st).

Lemma n_at_sorted i : om_sorted char_compare (n_trans (n_at infa i)).
Proof.
  unfold n_at. destruct (Nat.lt_ge_cases i (length (n_states infa))) as [L|L].
  - apply Hsorted. now apply nth_In.
  - rewrite nth_overflow by assumption. constructor.
Qed.

Lemma in_n_targets i c q :
  In q (n_targets infa i c) <->
  exists v, In (c, v) (n_trans (n_at infa i)) /\ In q v.
Proof.
  unfold n_targets. split.
  - destruct (om_find char_compare c (n_trans (n_at infa i))) as [v|] eqn:F;
      [|intros []].
    intros H. exists v. split; auto. apply om_find_in; auto. apply n_at_sorted.
  - intros (v & Hin & Hq). apply om_find_in in Hin; [|apply n_at_sorted].
    now rewrite Hin.
Qed.

Lemma combine_states_spec l : forall acc c' r,
  (fst (fold_left (combine_state infa e) l acc) = true <->
   (exists cst, In cst l /\ n_accept (n_at infa cst) = true) \/ fst acc = true) /\
  (In r (om_members (snd (fold_left (combine_state infa e) l acc)) c') <->
   (c' <> EPS /\ exists cst nxt, In cst l /\ In nxt (n_targets infa cst c')
                                 /\ In r (nth nxt e []))
   \/ In r (om_members (snd acc) c')) /\
  (om_sorted char_compare (snd acc) ->
   om_sorted char_compare (snd (fold_left (combine_state infa e) l acc))).
Proof.
  induction l as [|cst l IH]; intros acc c' r; simpl.
  - repeat split; auto.
    + intros [(? & [] & _)|H]; auto.
    + intros [(_ & ? & ? & [] & _)|H]; auto.
  - destruct (IH (combine_state infa e acc cst) c' r) as (IH1 & IH2 & IH3).
    split; [|split].
    + rewrite IH1. unfold combine_state. simpl. split.
      * intros [(x & Hx & A)|H]; eauto.
        destruct (n_accept (n_at infa cst)) eqn:A; eauto.
      * intros [(x & [<-|Hx] & A)|H]; eauto.
        -- right. now rewrite A.
        -- right. rewrite H. now destruct (n_accept (n_at infa cst)).
    + rewrite IH2. unfold combine_state. simpl.
      rewrite combine_entries_members. split.
      * intros [(Hc & x & nxt & Hx & Hn & Hr)|[(Hc & v & nxt & Hin & Hn & Hr)|H]];
          eauto 10.
        left. split; auto. exists cst, nxt. repeat split; auto.
        apply in_n_targets. eauto.
      * intros [(Hc & x & nxt & [<-|Hx] & Hn & Hr)|H]; eauto 10.
        apply in_n_targets in Hn as (v & Hin & Hn). eauto 10.
    + intros S. apply IH3. unfold combine_state. simpl.
      now apply combine_entries_sorted.
Qed.

End RemoveState.

(** The NFA is well formed and its transition maps are ordered maps. *)
Definition nfa_ok (nfa : NFA) : Prop :=
  nfa_wf nfa /\
  forall st, In st (n_states nfa) -> om_sorted char_compare (n_trans st).

Lemma eps_reach_bound nfa p q :
  nfa_wf nfa -> p < length (n_states nfa) -> eps_reach nfa p q ->
  q < length (n_states nfa).
Proof.
  intros [_ W] Lp R. induction R; auto. eapply W; eauto.
Qed.

(** What [remove] computes, in terms of the closure relation. *)
Record eps_removed (infa onfa : NFA) : Prop := mkEpsRemoved {
  er_len : length (n_states onfa) = length (n_states infa);
  er_start : n_start onfa = n_start infa;
  er_accept : forall i, i < length (n_states infa) ->
      (n_accept (n_at onfa i) = true <->
       exists q, eps_reach infa i q /\ n_accept (n_at infa q) = true);
  er_trans : forall i c r, i < length (n_states infa) -> c <> EPS ->
      (In r (n_targets onfa i c) <->
       exists p q, eps_reach infa i p /\ In q (n_targets infa p c)
                   /\ eps_reach infa q r);
  er_free : eps_free onfa
}.

Lemma remove_spec (infa : NFA) :
  nfa_ok infa ->
  exists onfa, remove infa = Some onfa /\ eps_removed infa onfa.
Proof.
  intros [Hwf Hso]. unfold remove.
  destruct (compute_closures_spec Hwf) as (e & E & Le & He).
  rewrite E. eexists. split; [reflexivity|].
  set (n := length (n_states infa)) in *.
  set (onfa := mkNFA (map (remove_state infa e) (seq 0 n)) (n_start infa)).
  assert (Hat : forall i, i < n -> n_at onfa i = remove_state infa e i).
  { intros i Li. unfold n_at, onfa. cbn [n_states]. now apply nth_map_seq. }
  assert (Hout : forall i, n <= i -> n_at onfa i = dflt_nstate).
  { intros i Li. unfold n_at, onfa. cbn [n_states].
    apply nth_overflow. rewrite length_map, length_seq. exact Li. }
  assert (Htg : forall i c, i < n ->
            n_targets onfa i c
            = om_members (snd (fold_left (combine_state infa e) (nth i e [])
                                         (false, []))) c).
  { intros i c Li. unfold n_targets. rewrite Hat by assumption.
    unfold remove_state. cbn [n_trans].
    rewrite (@om_copy _ _ char_compare char_compare_antisym _ []).
    - reflexivity.
    - simpl.
      apply (proj2 (proj2 (@combine_states_spec infa e Hso (nth i e []) (false, [])
                             EPS 0))).
      constructor. }
  change (eps_removed infa onfa).
  constructor.
  - unfold onfa. cbn [n_states]. now rewrite length_map, length_seq.
  - reflexivity.
  - intros i Li. rewrite Hat by assumption. unfold remove_state. cbn [n_accept].
    rewrite (proj1 (@combine_states_spec infa e Hso (nth i e []) (false, []) EPS 0)).
    simpl. split.
    + intros [(cst & Hc & A)|H]; [|discriminate].
      exists cst. split; auto. now apply (He i Li).
    + intros (q & R & A). left. exists q. split; auto. now apply (He i Li).
  - intros i c r Li Hc. rewrite Htg by assumption.
    rewrite (proj1 (proj2 (@combine_states_spec infa e Hso (nth i e []) (false, []) c r))).
    simpl. split.
    + intros [(_ & cst & nxt & Hcst & Hn & Hr)|[]].
      exists cst, nxt. repeat split; auto.
      * now apply (He i Li).
      * assert (Ln : nxt < n) by (destruct Hwf as [_ W]; eapply W; eauto).
        now apply (He nxt Ln).
    + intros (p & q & Rp & Hq & Rq). left. split; auto.
      exists p, q. repeat split; auto.
      * now apply (He i Li).
      * assert (Ln : q < n) by (destruct Hwf as [_ W]; eapply W; eauto).
        now apply (He q Ln).
  - intros p. destruct (Nat.lt_ge_cases p n) as [L|L].
    + rewrite Htg by assumption.
      destruct (om_members _ EPS) as [|r l] eqn:Em; auto.
      assert (Hr : In r (r :: l)) by now left.
      rewrite <- Em in Hr.
      apply (proj1 (proj2 (@combine_states_spec infa e Hso (nth p e []) (false, []) EPS r))) in Hr.
      simpl in Hr. destruct Hr as [(Hc & _)|[]]. congruence.
    + unfold n_targets. now rewrite Hout.
Qed.

(** C6.  In the automaton [remove] returns, a state is accepting exactly
    when some state of its epsilon-closure is accepting in the input; for
    each real symbol its successors are the states in the closures of the
    direct successors of the members of its closure; and no state has a
    silent transition. *)
Theorem remove_closure_semantics (infa : NFA) :
  nfa_ok infa ->
  exists onfa,
    remove infa = Some onfa /\
    length (n_states onfa) = length (n_states infa) /\
    n_start onfa = n_start infa /\
    (forall i, i < length (n_states infa) ->
       (n_accept (n_at onfa i) = true <->
        exists q, eps_reach infa i q /\ n_accept (n_at infa q) = true)) /\
    (forall i c r, i < length (n_states infa) -> c <> EPS ->
       (In r (n_targets onfa i c) <->
        exists p q, eps_reach infa i p /\ In q (n_targets infa p c)
                    /\ eps_reach infa q r)) /\
    (forall p, n_targets onfa p EPS = []).
Proof.
  intros Hok. destruct (remove_spec Hok) as (onfa & E & [L S A T F]).
  exists onfa. repeat split; auto; try apply A; try apply T; auto.
Qed.

(** ** Silent-transition elimination keeps the language *)

Section RemoveLanguage.
Variables infa onfa : NFA.
Hypothesis Hwf : nfa_wf infa.
Hypothesis Hrem : eps_removed infa onfa.
Let n := length (n_states infa).

Lemma eps_removed_wf : nfa_wf onfa.
Proof.
  destruct Hwf as [Hs W]. split.
  - rewrite (er_len Hrem), (er_start Hrem). exact Hs.
  - intros i c q Hq. rewrite (er_len Hrem).
    destruct (Nat.lt_ge_cases i n) as [L|L].
    + destruct (ascii_dec c EPS) as [->|Hc].
      * rewrite (er_free Hrem) in Hq. destruct Hq.
      * apply (er_trans Hrem) in Hq as (p & q' & Rp & Hq' & Rq); auto.
        apply (@eps_reach_bound infa q' q Hwf); [eapply W; eauto|exact Rq].
    + exfalso. unfold n_targets, n_at in Hq.
      rewrite nth_overflow in Hq by (rewrite (er_len Hrem); exact L).
      destruct Hq.
Qed.

Lemma eps_reach_path p q w r :
  eps_reach infa p q -> n_path infa q w r -> n_path infa p w r.
Proof.
  intros R. revert w r. induction R as [|q q' R IH Hq]; intros w r H; auto.
  apply IH. eapply n_path_eps; eauto.
Qed.

Lemma onfa_lift p p1 w :
  p < n -> p1 < n -> In p1 (n_targets infa p EPS) ->
  n_accepts_from onfa p1 w -> n_accepts_from onfa p w.
Proof.
  intros Lp Lp1 He H. destruct w as [|c w].
  - apply (n_accepts_from_nil (er_free Hrem)) in H.
    apply (n_accepts_from_nil (er_free Hrem)).
    apply (er_accept Hrem) in H as (q & R & A); auto.
    apply (er_accept Hrem); auto. exists q. split; auto.
    eapply eps_reach_first; eauto.
  - destruct (ascii_dec c EPS) as [->|Hc].
    + destruct H as (q & H & _).
      inversion H as [|? q0 ? ? He0 Hp0|? ? q0 ? ? Hc0 He0 Hp0]; subst.
      * rewrite (er_free Hrem) in He0. destruct He0.
      * congruence.
    + apply (n_accepts_from_cons (er_free Hrem)) in H as (r & Hr & H); auto.
      apply (n_accepts_from_cons (er_free Hrem)); auto.
      exists r. split; auto.
      apply (er_trans Hrem) in Hr as (a & b & Ra & Hb & Rb); auto.
      apply (er_trans Hrem); auto. exists a, b. repeat split; auto.
      eapply eps_reach_first; eauto.
Qed.

Lemma infa_to_onfa p w q :
  n_path infa p w q -> p < n -> n_accept (n_at infa q) = true ->
  n_accepts_from onfa p w.
Proof.
  destruct Hwf as [_ W].
  induction 1 as [p|p p1 r w He H IH|p c p1 r w Hc He H IH]; intros Lp A.
  - apply (n_accepts_from_nil (er_free Hrem)). apply (er_accept Hrem); auto.
    exists p. split; [constructor|auto].
  - assert (L1 : p1 < n) by (eapply W; eauto).
    eapply onfa_lift; eauto.
  - assert (L1 : p1 < n) by (eapply W; eauto).
    apply (n_accepts_from_cons (er_free Hrem)); auto.
    exists p1. split; auto.
    apply (er_trans Hrem); auto. exists p, p1. repeat split; auto; constructor.
Qed.

Lemma onfa_to_infa p w q :
  n_path onfa p w q -> p < n -> n_accept (n_at onfa q) = true ->
  n_accepts_from infa p w.
Proof.
  pose proof eps_removed_wf as [_ W']. rewrite (er_len Hrem) in W'. fold n in W'.
  induction 1 as [p|p p1 r w He H IH|p c p1 r w Hc He H IH]; intros Lp A.
  - apply (er_accept Hrem) in A as (q & R & A); auto.
    exists q. split; auto. eapply eps_reach_path; eauto. constructor.
  - rewrite (er_free Hrem) in He. destruct He.
  - assert (L1 : p1 < n) by (eapply W'; eauto).
    destruct (IH L1 A) as (q & Hq & Aq).
    apply (er_trans Hrem) in He as (a & b & Ra & Hb & Rb); auto.
    exists q. split; auto.
    eapply eps_reach_path; eauto.
    eapply n_path_chr; eauto.
    eapply eps_reach_path; eauto.
Qed.

Lemma remove_language w : n_accepts onfa w <-> n_accepts infa w.
Proof.
  destruct Hwf as [Hs _]. unfold n_accepts. rewrite (er_start Hrem). split.
  - intros (q & H & A). eapply onfa_to_infa; eauto.
  - intros (q & H & A). eapply infa_to_onfa; eauto.
Qed.

End RemoveLanguage.

(** ** The language of a regular expression *)

Fixpoint lang (r : RegexNode) (w : list ascii) : Prop :=
  match r with
  | CHAR ch => w = [ch]
  | CONCAT l r' => exists w1 w2, w = w1 ++ w2 /\ lang l w1 /\ lang r' w2
  | UNION l r' => lang l w \/ lang r' w
  | STAR l => exists ws, w = concat ws /\ Forall (lang l) ws
  end.

(** Every symbol of the expression is [0] or [1]. *)
Fixpoint wf_regex (r : RegexNode) : Prop :=
  match r with
  | CHAR ch => ch = "0"%char \/ ch = "1"%char
  | CONCAT l r' => wf_regex l /\ wf_regex r'
  | UNION l r' => wf_regex l /\ wf_regex r'
  | STAR l => wf_regex l
  end.

(** ** Thompson: the effect of the two primitives on the transitions *)

Lemma n_targets_out nfa i c :
  length (n_states nfa) <= i -> n_targets nfa i c = [].
Proof.
  intros L. unfold n_targets, n_at. now rewrite nth_overflow.
Qed.

Lemma new_state_fst nfa : fst (new_state nfa) = length (n_states nfa).
Proof. reflexivity. Qed.

Lemma new_state_length nfa :
  length (n_states (snd (new_state nfa))) = S (length (n_states nfa)).
Proof. simpl. rewrite length_app. simpl. lia. Qed.

Lemma new_state_at nfa i :
  i < length (n_states nfa) -> n_at (snd (new_state nfa)) i = n_at nfa i.
Proof. intros L. unfold n_at. simpl. now rewrite app_nth1. Qed.

Lemma new_state_new nfa :
  n_at (snd (new_state nfa)) (length (n_states nfa))
  = mkNState (length (n_states nfa)) false [].
Proof.
  unfold n_at. simpl. rewrite app_nth2 by lia. now rewrite Nat.sub_diag.
Qed.

Lemma new_state_targets nfa i c :
  n_targets (snd (new_state nfa)) i c = n_targets nfa i c.
Proof.
  destruct (Nat.lt_ge_cases i (length (n_states nfa))) as [L|L].
  - unfold n_targets. now rewrite new_state_at.
  - rewrite (n_targets_out nfa c L).
    destruct (Nat.eq_dec i (length (n_states nfa))) as [->|Hne].
    + unfold n_targets. now rewrite new_state_new.
    + apply n_targets_out. rewrite new_state_length. lia.
Qed.

Lemma new_state_accept nfa i :
  n_accept (n_at (snd (new_state nfa)) i) = n_accept (n_at nfa i).
Proof.
  destruct (Nat.lt_ge_cases i (length (n_states nfa))) as [L|L].
  - now rewrite new_state_at.
  - destruct (Nat.eq_dec i (length (n_states nfa))) as [->|Hne].
    + rewrite new_state_new. unfold n_at. now rewrite nth_overflow.
    + unfold n_at. rewrite !nth_overflow; auto.
      rewrite new_state_length. lia.
Qed.

Lemma new_state_sorted nfa :
  (forall st, In st (n_states nfa) -> om_sorted char_compare (n_trans st)) ->
  forall st, In st (n_states (snd (new_state nfa))) ->
    om_sorted char_compare (n_trans st).
Proof.
  intros H st Hin. simpl in Hin. apply in_app_or in Hin as [Hin|[<-|[]]]; auto.
  constructor.
Qed.

Lemma add_transition_length from to c nfa :
  length (n_states (snd (add_transition from to c nfa))) = length (n_states nfa).
Proof. simpl. apply length_upd_nth. Qed.

Lemma add_transition_targets from to c nfa i c' :
  from < length (n_states nfa) ->
  n_targets (snd (add_transition from to c nfa)) i c' =
  if Nat.eqb i from && Ascii.eqb c' c
  then n_targets nfa i c' ++ [to]
  else n_targets nfa i c'.
Proof.
  intros L. unfold n_targets, n_at. simpl.
  destruct (Nat.eqb_spec i from) as [->|Hne]; simpl.
  - destruct (nth_error (n_states nfa) from) as [st|] eqn:E;
      [|apply nth_error_None in E; lia].
    rewrite (nth_error_nth _ _ dflt_nstate (nth_error_upd_nth_eq _ _ _ E)).
    rewrite (nth_error_nth _ _ dflt_nstate E). simpl.
    destruct (Ascii.eqb_spec c' c) as [->|Hc].
    + rewrite (@om_find_alter_eq _ _ char_compare char_compare_eq).
      now destruct (om_find char_compare c (n_trans st)).
    + rewrite (@om_find_alter_ne _ _ char_compare char_compare_eq char_compare_trans);
        auto.
  - assert (E : nth i (upd_nth from
                  (fun st => mkNState (n_id st) (n_accept st)
                     (om_alter char_compare c (fun v => v ++ [to]) [] (n_trans st)))
                  (n_states nfa)) dflt_nstate = nth i (n_states nfa) dflt_nstate).
    { destruct (nth_error (n_states nfa) i) as [st|] eqn:E.
      - apply nth_error_nth. rewrite nth_error_upd_nth_ne by auto.
        rewrite E. f_equal. symmetry. now apply nth_error_nth.
      - apply nth_error_None in E. rewrite !nth_overflow; auto.
        now rewrite length_upd_nth. }
    now rewrite E.
Qed.

Lemma in_add_transition from to c nfa i c' q :
  from < length (n_states nfa) ->
  (In q (n_targets (snd (add_transition from to c nfa)) i c') <->
   In q (n_targets nfa i c') \/ (i = from /\ c' = c /\ q = to)).
Proof.
  intros L. rewrite add_transition_targets by assumption.
  destruct (Nat.eqb_spec i from) as [->|Hne];
    destruct (Ascii.eqb_spec c' c) as [->|Hc]; simpl;
    rewrite ?in_app_iff; simpl; intuition congruence.
Qed.

Lemma add_transition_accept from to c nfa i :
  n_accept (n_at (snd (add_transition from to c nfa)) i) = n_accept (n_at nfa i).
Proof.
  unfold n_at. simpl.
  destruct (nth_error (n_states nfa) i) as [st|] eqn:E.
  - rewrite (nth_error_nth _ _ dflt_nstate E).
    destruct (Nat.eq_dec from i) as [->|Hne].
    + now rewrite (nth_error_nth _ _ dflt_nstate (nth_error_upd_nth_eq _ _ _ E)).
    + apply f_equal. apply nth_error_nth. now rewrite nth_error_upd_nth_ne.
  - apply nth_error_None in E. rewrite !nth_overflow; auto.
    now rewrite length_upd_nth.
Qed.

Lemma add_transition_sorted from to c nfa :
  (forall st, In st (n_states nfa) -> om_sorted char_compare (n_trans st)) ->
  forall st, In st (n_states (snd (add_transition from to c nfa))) ->
    om_sorted char_compare (n_trans st).
Proof.
  intros H st Hin. simpl in Hin. apply In_nth_error in Hin as (i & Hi).
  rewrite nth_error_upd_nth in Hi.
  destruct (Nat.eqb from i).
  - destruct (nth_error (n_states nfa) i) as [st0|] eqn:E; [|discriminate].
    simpl in Hi. injection Hi as <-. simpl.
    apply (@om_alter_sorted _ _ char_compare char_compare_eq char_compare_trans
             char_compare_antisym).
    apply H. eapply nth_error_In; eauto.
  - apply H. eapply nth_error_In; eauto.
Qed.

(** ** Paths through a growing automaton *)

Lemma n_path_app X p w1 q w2 r :
  n_path X p w1 q -> n_path X q w2 r -> n_path X p (w1 ++ w2) r.
Proof.
  induction 1 as [p|p p1 q w He H IH|p c p1 q w Hc He H IH]; intros H2; simpl; auto.
  - eapply n_path_eps; eauto.
  - eapply n_path_chr; eauto.
Qed.

Lemma n_path_mono X Y p w q :
  (forall i c j, In j (n_targets X i c) -> In j (n_targets Y i c)) ->
  n_path X p w q -> n_path Y p w q.
Proof.
  intros M. induction 1 as [p|p p1 q w He H IH|p c p1 q w Hc He H IH].
  - constructor.
  - eapply n_path_eps; eauto.
  - eapply n_path_chr; eauto.
Qed.

(** From a state without transitions only the empty path starts. *)
Lemma n_path_stuck X a w q :
  (forall c, n_targets X a c = []) -> n_path X a w q -> w = [] /\ q = a.
Proof.
  intros Hs H. inversion H as [|? p1 ? ? He Hp|? c p1 ? ? Hc He Hp]; subst; auto.
  - rewrite Hs in He. destruct He.
  - rewrite Hs in He. destruct He.
Qed.

(** A path of [Y] that starts in a region whose transitions are those of
    [X] and stay in the region is a path of [X]. *)
Lemma n_path_region (R : nat -> Prop) X Y p w q :
  (forall i c j, R i -> In j (n_targets Y i c) ->
                 In j (n_targets X i c) /\ R j) ->
  R p -> n_path Y p w q -> n_path X p w q /\ R q.
Proof.
  intros HR Rp H. induction H as [p|p p1 q w He H IH|p c p1 q w Hc He H IH].
  - split; [constructor|auto].
  - destruct (HR _ _ _ Rp He) as [He' R1]. destruct (IH R1) as [H' Rq].
    split; auto. eapply n_path_eps; eauto.
  - destruct (HR _ _ _ Rp He) as [He' R1]. destruct (IH R1) as [H' Rq].
    split; auto. eapply n_path_chr; eauto.
Qed.

(** A path of [Y] that leaves a region of [X] does so through a new silent
    transition from the exit state [a1]. *)
Lemma n_path_exit (R N : nat -> Prop) X Y a1 p w t :
  (forall i c j, R i -> In j (n_targets Y i c) ->
     (In j (n_targets X i c) /\ R j) \/ (i = a1 /\ c = EPS /\ N j)) ->
  n_path Y p w t -> R p -> ~ R t ->
  exists w1 w2 q,
    w = w1 ++ w2 /\ n_path X p w1 a1 /\ N q /\ n_path Y q w2 t.
Proof.
  intros HR H. induction H as [p|p p1 q w He H IH|p c p1 q w Hc He H IH];
    intros Rp Rt.
  - contradiction.
  - destruct (HR _ _ _ Rp He) as [[He' R1]|(-> & _ & Nq)].
    + destruct (IH R1 Rt) as (w1 & w2 & q' & -> & H1 & Nq & H2).
      exists w1, w2, q'. repeat split; auto. eapply n_path_eps; eauto.
    + exists [], w, p1. repeat split; auto. constructor.
  - destruct (HR _ _ _ Rp He) as [[He' R1]|(_ & E & _)]; [|congruence].
    destruct (IH R1 Rt) as (w1 & w2 & q' & -> & H1 & Nq & H2).
    exists (c :: w1), w2, q'. repeat split; auto. eapply n_path_chr; eauto.
Qed.

(** The loop of a star: a path of [Y] from the region to [a] is a path of
    [X] to the exit followed by words of the inner language. *)
Lemma n_path_star (R L : nat -> Prop) (Lw : list ascii -> Prop) X Y s1 a1 a p w t :
  (forall i c j, R i -> In j (n_targets Y i c) ->
     (In j (n_targets X i c) /\ R j) \/
     (i = a1 /\ c = EPS /\ (j = a \/ j = s1))) ->
  (forall c, n_targets Y a c = []) ->
  (forall v, n_path X s1 v a1 -> Lw v) ->
  R s1 -> ~ R a ->
  n_path Y p w t -> t = a -> R p ->
  exists w1 ws, w = w1 ++ concat ws /\ n_path X p w1 a1 /\ Forall Lw ws.
Proof.
  intros HR Hstuck HL Rs Ra H.
  induction H as [p|p p1 q w He H IH|p c p1 q w Hc He H IH]; intros -> Rp.
  - contradiction.
  - destruct (HR _ _ _ Rp He) as [[He' R1]|(-> & _ & [->| ->])].
    + destruct (IH eq_refl R1) as (w1 & ws & -> & H1 & F).
      exists w1, ws. repeat split; auto. eapply n_path_eps; eauto.
    + destruct (n_path_stuck Hstuck H) as [-> _].
      exists [], []. repeat split; auto. constructor.
    + destruct (IH eq_refl Rs) as (w1 & ws & -> & H1 & F).
      exists [], (w1 :: ws). repeat split; auto. constructor.
  - destruct (HR _ _ _ Rp He) as [[He' R1]|(_ & E & _)]; [|congruence].
    destruct (IH eq_refl R1) as (w1 & ws & -> & H1 & F).
    exists (c :: w1), ws. repeat split; auto. eapply n_path_chr; eauto.
Qed.

(** ** Thompson: the fragment built for an expression *)

Record built (r : RegexNode) (X0 X1 : NFA) (f : NFAFragment) : Prop := mkBuilt {
  bt_len : length (n_states X0) <= length (n_states X1);
  bt_start : length (n_states X0) <= f_start f < length (n_states X1);
  bt_exit : length (n_states X0) <= f_accept f < length (n_states X1);
  bt_old : forall i c, i < length (n_states X0) ->
      n_targets X1 i c = n_targets X0 i c;
  bt_new : forall i c q, length (n_states X0) <= i ->
      In q (n_targets X1 i c) ->
      length (n_states X0) <= q < length (n_states X1);
  bt_stuck : forall c, n_targets X1 (f_accept f) c = [];
  bt_lang : forall w, n_path X1 (f_start f) w (f_accept f) <-> lang r w;
  bt_acc : forall i, n_accept (n_at X1 i) = n_accept (n_at X0 i);
  bt_sorted :
      (forall st, In st (n_states X0) -> om_sorted char_compare (n_trans st)) ->
      forall st, In st (n_states X1) -> om_sorted char_compare (n_trans st);
  bt_nstart : n_start X1 = n_start X0
}.

Lemma built_char ch X0 :
  ch <> EPS ->
  built (CHAR ch) X0 (snd (buildFragment (CHAR ch) X0))
        (fst (buildFragment (CHAR ch) X0)).
Proof.
  intros Hch. set (n0 := length (n_states X0)).
  set (Xa := snd (new_state X0)). set (Xb := snd (new_state Xa)).
  set (Y := snd (add_transition n0 (S n0) ch Xb)).
  assert (La : length (n_states Xa) = S n0) by apply new_state_length.
  assert (Lb : length (n_states Xb) = S (S n0))
    by (unfold Xb; rewrite new_state_length; lia).
  assert (LY : length (n_states Y) = S (S n0))
    by (unfold Y; rewrite add_transition_length; lia).
  assert (Eres : buildFragment (CHAR ch) X0 = (mkFragment n0 (S n0), Y)).
  { unfold buildFragment, bind, ret. simpl.
    unfold Y, Xb, Xa, n0. simpl. rewrite length_app. simpl.
    replace (length (n_states X0) + 1) with (S (length (n_states X0))) by lia.
    reflexivity. }
  rewrite Eres. cbn [fst snd f_start f_accept].
  assert (Hedge : forall i c q,
            In q (n_targets Y i c) <->
            In q (n_targets X0 i c) \/ (i = n0 /\ c = ch /\ q = S n0)).
  { intros i c q. unfold Y. rewrite in_add_transition by lia.
    unfold Xb, Xa. now rewrite !new_state_targets. }
  assert (Hnone : forall i c, n0 <= i -> n_targets X0 i c = [])
    by (intros; now apply n_targets_out).
  constructor; cbn [f_start f_accept]; fold n0; rewrite ?LY.
  - lia.
  - lia.
  - lia.
  - intros i c Li. unfold Y. rewrite add_transition_targets by lia.
    destruct (Nat.eqb_spec i n0); [lia|]. simpl.
    unfold Xb, Xa. now rewrite !new_state_targets.
  - intros i c q Li Hq. apply Hedge in Hq as [Hq|(-> & -> & ->)]; [|lia].
    rewrite Hnone in Hq by assumption. destruct Hq.
  - intros c. destruct (n_targets Y (S n0) c) as [|q l] eqn:E; auto.
    assert (Hq : In q (n_targets Y (S n0) c)) by (rewrite E; now left).
    apply Hedge in Hq as [Hq|(? & _)]; [|lia].
    rewrite Hnone in Hq by lia. destruct Hq.
  - intros w. simpl. split.
    + intros H.
      inversion H as [|? p1 ? ? He Hp|? c p1 ? ? Hc He Hp]; subst.
      * lia.
      * apply Hedge in He as [He|(_ & E & _)]; [|congruence].
        rewrite Hnone in He by lia. destruct He.
      * apply Hedge in He as [He|(_ & -> & ->)].
        -- rewrite Hnone in He by lia. destruct He.
        -- apply n_path_stuck in Hp as [-> _]; auto.
           intros c'. destruct (n_targets Y (S n0) c') as [|q l] eqn:E; auto.
           assert (Hq : In q (n_targets Y (S n0) c')) by (rewrite E; now left).
           apply Hedge in Hq as [Hq|(? & _)]; [|lia].
           rewrite Hnone in Hq by lia. destruct Hq.
    + intros ->. eapply n_path_chr; eauto; [|constructor].
      apply Hedge. auto.
  - intros i. unfold Y. rewrite add_transition_accept.
    unfold Xb, Xa. now rewrite !new_state_accept.
  - intros Hs. unfold Y. apply add_transition_sorted.
    unfold Xb. apply new_state_sorted. unfold Xa. now apply new_state_sorted.
  - reflexivity.
Qed.

Lemma add_transition_start from to c nfa :
  n_start (snd (add_transition from to c nfa)) = n_start nfa.
Proof. reflexivity. Qed.

Lemma nil_of_no_member {A : Type} (l : list A) : (forall x, ~ In x l) -> l = [].
Proof. destruct l as [|x l]; auto. intros H. exfalso. apply (H x). now left. Qed.

Section BuiltConcat.
Variables (l r : RegexNode) (X0 : NFA).
Hypothesis IHl : forall X, built l X (snd (buildFragment l X)) (fst (buildFragment l X)).
Hypothesis IHr : forall X, built r X (snd (buildFragment r X)) (fst (buildFragment r X)).

Lemma built_concat :
  built (CONCAT l r) X0 (snd (buildFragment (CONCAT l r) X0))
        (fst (buildFragment (CONCAT l r) X0)).
Proof.
  pose proof (IHl X0) as B1.
  set (X1 := snd (buildFragment l X0)) in *.
  set (f1 := fst (buildFragment l X0)) in *.
  pose proof (IHr X1) as B2.
  set (X2 := snd (buildFragment r X1)) in *.
  set (f2 := fst (buildFragment r X1)) in *.
  set (Y := snd (add_transition (f_accept f1) (f_start f2) EPS X2)).
  assert (Eres : buildFragment (CONCAT l r) X0
                 = (mkFragment (f_start f1) (f_accept f2), Y)).
  { cbn [buildFragment]. unfold bind, ret.
    unfold Y, f2, X2, f1, X1.
    destruct (buildFragment l X0) as [g1 Z1]. cbn [fst snd].
    destruct (buildFragment r Z1) as [g2 Z2]. reflexivity. }
  rewrite Eres. cbn [fst snd].
  destruct B1 as [L01 S1 A1 Old1 New1 Stuck1 Lang1 Acc1 Sorted1 Start1].
  destruct B2 as [L12 S2 A2 Old2 New2 Stuck2 Lang2 Acc2 Sorted2 Start2].
  set (n0 := length (n_states X0)) in *.
  set (n1 := length (n_states X1)) in *.
  set (n2 := length (n_states X2)) in *.
  assert (LY : length (n_states Y) = n2) by apply add_transition_length.
  assert (Hedge : forall i c q,
            In q (n_targets Y i c) <->
            In q (n_targets X2 i c) \/
            (i = f_accept f1 /\ c = EPS /\ q = f_start f2)).
  { intros i c q. unfold Y. apply in_add_transition. fold n2. lia. }
  assert (H12 : forall i c j, In j (n_targets X1 i c) -> In j (n_targets X2 i c)).
  { intros i c j Hj. destruct (Nat.lt_ge_cases i n1) as [Li|Li].
    - now rewrite Old2.
    - rewrite n_targets_out in Hj by assumption. destruct Hj. }
  assert (HR1 : forall i c j, n0 <= i < n1 -> In j (n_targets Y i c) ->
            (In j (n_targets X1 i c) /\ n0 <= j < n1) \/
            (i = f_accept f1 /\ c = EPS /\ j = f_start f2)).
  { intros i c j Ri Hj. apply Hedge in Hj as [Hj|Hj]; auto.
    left. rewrite Old2 in Hj by lia.
    split; auto. apply (New1 i c j); auto. lia. }
  assert (HR2 : forall i c j, n1 <= i -> In j (n_targets Y i c) ->
            In j (n_targets X2 i c) /\ n1 <= j).
  { intros i c j Ri Hj. apply Hedge in Hj as [Hj|(-> & _)]; [|lia].
    split; auto. apply (New2 i c j) in Hj; auto. lia. }
  constructor; cbn [f_start f_accept]; fold n0; rewrite ?LY.
  - lia.
  - lia.
  - lia.
  - intros i c Li. unfold Y. rewrite add_transition_targets by (fold n2; lia).
    destruct (Nat.eqb_spec i (f_accept f1)); [lia|]. simpl.
    rewrite Old2 by lia. now apply Old1.
  - intros i c q Li Hq. destruct (Nat.lt_ge_cases i n1) as [L1|L1].
    + destruct (HR1 i c q (conj Li L1) Hq) as [[_ H]|(_ & _ & ->)]; lia.
    + destruct (HR2 i c q L1 Hq) as [Hq' _].
      apply (New2 i c q) in Hq'; auto. lia.
  - intros c. apply nil_of_no_member. intros q Hq.
    apply Hedge in Hq as [Hq|(E & _)]; [|lia].
    rewrite Stuck2 in Hq. destruct Hq.
  - intros w. simpl. split.
    + intros H.
      destruct (@n_path_exit (fun i => n0 <= i < n1) (fun q => q = f_start f2)
                  X1 Y (f_accept f1) (f_start f1) w (f_accept f2) HR1 H)
        as (w1 & w2 & q & -> & H1 & -> & H2); [lia|lia|].
      exists w1, w2. repeat split.
      * now apply Lang1.
      * apply Lang2.
        apply (@n_path_region (fun i => n1 <= i) X2 Y (f_start f2) w2 (f_accept f2) HR2);
          auto; lia.
    + intros (w1 & w2 & -> & H1 & H2).
      apply Lang1 in H1. apply Lang2 in H2.
      apply n_path_app with (q := f_accept f1).
      * apply n_path_mono with (X := X1); auto.
        intros i c j Hj. apply Hedge. left. now apply H12.
      * apply n_path_eps with (q := f_start f2).
        -- apply Hedge. right. auto.
        -- apply n_path_mono with (X := X2); auto.
           intros i c j Hj. apply Hedge. now left.
  - intros i. unfold Y. rewrite add_transition_accept.
    rewrite Acc2. apply Acc1.
  - intros Hs. unfold Y. apply add_transition_sorted.
    apply Sorted2. now apply Sorted1.
  - unfold Y. rewrite add_transition_start, Start2. apply Start1.
Qed.

End BuiltConcat.

Lemma n_path_inv X p w q :
  n_path X p w q ->
  (w = [] /\ q = p) \/
  (exists p1, In p1 (n_targets X p EPS) /\ n_path X p1 w q) \/
  (exists c p1 w', w = c :: w' /\ c <> EPS /\ In p1 (n_targets X p c)
                   /\ n_path X p1 w' q).
Proof.
  intros H. inversion H; subst; eauto 10.
Qed.

Section BuiltUnion.
Variables (l r : RegexNode) (X0 : NFA).
Hypothesis IHl : forall X, built l X (snd (buildFragment l X)) (fst (buildFragment l X)).
Hypothesis IHr : forall X, built r X (snd (buildFragment r X)) (fst (buildFragment r X)).

Lemma built_union :
  built (UNION l r) X0 (snd (buildFragment (UNION l r) X0))
        (fst (buildFragment (UNION l r) X0)).
Proof.
  set (s := fst (new_state X0)). set (Xa := snd (new_state X0)).
  set (a := fst (new_state Xa)). set (Xb := snd (new_state Xa)).
  pose proof (IHl Xb) as B1.
  set (X1 := snd (buildFragment l Xb)) in *.
  set (f1 := fst (buildFragment l Xb)) in *.
  pose proof (IHr X1) as B2.
  set (X2 := snd (buildFragment r X1)) in *.
  set (f2 := fst (buildFragment r X1)) in *.
  set (Y1 := snd (add_transition s (f_start f1) EPS X2)).
  set (Y2 := snd (add_transition s (f_start f2) EPS Y1)).
  set (Y3 := snd (add_transition (f_accept f1) a EPS Y2)).
  set (Y4 := snd (add_transition (f_accept f2) a EPS Y3)).
  assert (Eres : buildFragment (UNION l r) X0 = (mkFragment s a, Y4)).
  { cbn [buildFragment]. unfold bind, ret.
    unfold Y4, Y3, Y2, Y1, f2, X2, f1, X1, Xb, a, Xa, s.
    destruct (new_state X0) as [s0 Z0]. cbn [fst snd].
    destruct (new_state Z0) as [a0 Z0']. cbn [fst snd].
    destruct (buildFragment l Z0') as [g1 Z1]. cbn [fst snd].
    destruct (buildFragment r Z1) as [g2 Z2]. reflexivity. }
  rewrite Eres. cbn [fst snd].
  destruct B1 as [L01 S1 A1 Old1 New1 Stuck1 Lang1 Acc1 Sorted1 Start1].
  destruct B2 as [L12 S2 A2 Old2 New2 Stuck2 Lang2 Acc2 Sorted2 Start2].
  set (n0 := length (n_states X0)) in *.
  assert (Es : s = n0) by reflexivity.
  assert (La : length (n_states Xa) = S n0) by apply new_state_length.
  assert (Ea : a = S n0) by (unfold a; rewrite new_state_fst; exact La).
  assert (Lb : length (n_states Xb) = S (S n0))
    by (unfold Xb; rewrite new_state_length; lia).
  rewrite Lb in *.
  set (n1 := length (n_states X1)) in *.
  set (n2 := length (n_states X2)) in *.
  assert (LY1 : length (n_states Y1) = n2) by apply add_transition_length.
  assert (LY2 : length (n_states Y2) = n2)
    by (unfold Y2; now rewrite add_transition_length).
  assert (LY3 : length (n_states Y3) = n2)
    by (unfold Y3; now rewrite add_transition_length).
  assert (LY4 : length (n_states Y4) = n2)
    by (unfold Y4; now rewrite add_transition_length).
  assert (Hedge : forall i c q,
            In q (n_targets Y4 i c) <->
            In q (n_targets X2 i c) \/
            (i = s /\ c = EPS /\ (q = f_start f1 \/ q = f_start f2)) \/
            ((i = f_accept f1 \/ i = f_accept f2) /\ c = EPS /\ q = a)).
  { intros i c q. unfold Y4. rewrite in_add_transition by (rewrite LY3; lia).
    unfold Y3. rewrite in_add_transition by (rewrite LY2; lia).
    unfold Y2. rewrite in_add_transition by (rewrite LY1; lia).
    unfold Y1. rewrite in_add_transition by (fold n2; lia).
    intuition. }
  assert (Hlow : forall i c, i < S (S n0) -> n_targets X2 i c = n_targets X0 i c).
  { intros i c Li. rewrite Old2 by lia. rewrite Old1 by lia.
    unfold Xb, Xa. now rewrite !new_state_targets. }
  assert (Hsa : forall i c, n0 <= i < S (S n0) -> n_targets X2 i c = []).
  { intros i c Li. rewrite Hlow by lia. apply n_targets_out. fold n0. lia. }
  assert (H12 : forall i c j, In j (n_targets X1 i c) -> In j (n_targets X2 i c)).
  { intros i c j Hj. destruct (Nat.lt_ge_cases i n1) as [Li|Li].
    - now rewrite Old2.
    - rewrite n_targets_out in Hj by assumption. destruct Hj. }
  assert (HR1 : forall i c j, S (S n0) <= i < n1 -> In j (n_targets Y4 i c) ->
            (In j (n_targets X1 i c) /\ S (S n0) <= j < n1) \/
            (i = f_accept f1 /\ c = EPS /\ j = a)).
  { intros i c j Ri Hj.
    apply Hedge in Hj as [Hj|[(E & _)|([E|E] & Hc & Hq)]]; auto; try lia.
    left. rewrite Old2 in Hj by lia. split; auto.
    apply (New1 i c j); auto. lia. }
  assert (HR2 : forall i c j, n1 <= i < n2 -> In j (n_targets Y4 i c) ->
            (In j (n_targets X2 i c) /\ n1 <= j < n2) \/
            (i = f_accept f2 /\ c = EPS /\ j = a)).
  { intros i c j Ri Hj.
    apply Hedge in Hj as [Hj|[(E & _)|([E|E] & Hc & Hq)]]; auto; try lia.
    left. split; auto. apply (New2 i c j); auto. lia. }
  assert (Hstuck : forall c, n_targets Y4 a c = []).
  { intros c. apply nil_of_no_member. intros q Hq.
    apply Hedge in Hq as [Hq|[(E & _)|([E|E] & _)]]; try lia.
    rewrite Hsa in Hq by lia. destruct Hq. }
  constructor; cbn [f_start f_accept]; fold n0; rewrite ?LY4.
  - lia.
  - lia.
  - lia.
  - intros i c Li. unfold Y4. rewrite add_transition_targets by (rewrite LY3; lia).
    destruct (Nat.eqb_spec i (f_accept f2)); [lia|]. simpl.
    unfold Y3. rewrite add_transition_targets by (rewrite LY2; lia).
    destruct (Nat.eqb_spec i (f_accept f1)); [lia|]. simpl.
    unfold Y2. rewrite add_transition_targets by (rewrite LY1; lia).
    destruct (Nat.eqb_spec i s); [lia|]. simpl.
    unfold Y1. rewrite add_transition_targets by (fold n2; lia).
    destruct (Nat.eqb_spec i s); [lia|]. simpl.
    apply Hlow. lia.
  - intros i c q Li Hq.
    destruct (Nat.lt_ge_cases i (S (S n0))) as [Lb'|Lb'].
    + apply Hedge in Hq as [Hq|[(_ & _ & [->| ->])|(_ & _ & ->)]]; try lia.
      rewrite Hsa in Hq by lia. destruct Hq.
    + destruct (Nat.lt_ge_cases i n1) as [L1|L1].
      * destruct (HR1 i c q (conj Lb' L1) Hq) as [[_ H]|(_ & _ & ->)]; lia.
      * destruct (Nat.lt_ge_cases i n2) as [L2|L2].
        -- destruct (HR2 i c q (conj L1 L2) Hq) as [[_ H]|(_ & _ & ->)]; lia.
        -- rewrite n_targets_out in Hq by (rewrite LY4; lia). destruct Hq.
  - exact Hstuck.
  - intros w. simpl. split.
    + intros H.
      apply n_path_inv in H
        as [[_ E]|[(p1 & He & Hp)|(c & p1 & w' & -> & Hc & He & Hp)]].
      * lia.
      * apply Hedge in He as [He|[(_ & _ & [->| ->])|([E|E] & _)]]; try lia.
        -- rewrite Hsa in He by lia. destruct He.
        -- left.
           destruct (@n_path_exit (fun i => S (S n0) <= i < n1) (fun q => q = a)
                       X1 Y4 (f_accept f1) (f_start f1) _ a HR1 Hp)
             as (w1 & w2 & q & -> & P1 & -> & P2); [lia|lia|].
           apply (n_path_stuck Hstuck) in P2 as [-> _].
           rewrite app_nil_r. now apply Lang1.
        -- right.
           destruct (@n_path_exit (fun i => n1 <= i < n2) (fun q => q = a)
                       X2 Y4 (f_accept f2) (f_start f2) _ a HR2 Hp)
             as (w1 & w2 & q & -> & P1 & -> & P2); [lia|lia|].
           apply (n_path_stuck Hstuck) in P2 as [-> _].
           rewrite app_nil_r. now apply Lang2.
      * apply Hedge in He as [He|[(_ & E & _)|(_ & E & _)]]; try congruence.
        rewrite Hsa in He by lia. destruct He.
    + intros [H|H].
      * apply Lang1 in H. apply n_path_eps with (q := f_start f1).
        { apply Hedge. right. left. auto. }
        rewrite <- (app_nil_r w). apply n_path_app with (q := f_accept f1).
        -- apply n_path_mono with (X := X1); auto.
           intros i c j Hj. apply Hedge. left. now apply H12.
        -- apply n_path_eps with (q := a); [|constructor].
           apply Hedge. right. right. auto.
      * apply Lang2 in H. apply n_path_eps with (q := f_start f2).
        { apply Hedge. right. left. auto. }
        rewrite <- (app_nil_r w). apply n_path_app with (q := f_accept f2).
        -- apply n_path_mono with (X := X2); auto.
           intros i c j Hj. apply Hedge. now left.
        -- apply n_path_eps with (q := a); [|constructor].
           apply Hedge. right. right. auto.
  - intros i. unfold Y4, Y3, Y2, Y1. rewrite !add_transition_accept.
    rewrite Acc2, Acc1. unfold Xb, Xa. now rewrite !new_state_accept.
  - intros Hs. unfold Y4, Y3, Y2, Y1. repeat apply add_transition_sorted.
    apply Sorted2. apply Sorted1. unfold Xb, Xa.
    apply new_state_sorted. now apply new_state_sorted.
  - unfold Y4, Y3, Y2, Y1. rewrite !add_transition_start, Start2, Start1.
    reflexivity.
Qed.

End BuiltUnion.

Section BuiltStar.
Variables (l : RegexNode) (X0 : NFA).
Hypothesis IHl : forall X, built l X (snd (buildFragment l X)) (fst (buildFragment l X)).

Lemma built_star :
  built (STAR l) X0 (snd (buildFragment (STAR l) X0))
        (fst (buildFragment (STAR l) X0)).
Proof.
  set (s := fst (new_state X0)). set (Xa := snd (new_state X0)).
  set (a := fst (new_state Xa)). set (Xb := snd (new_state Xa)).
  pose proof (IHl Xb) as B1.
  set (X1 := snd (buildFragment l Xb)) in *.
  set (f1 := fst (buildFragment l Xb)) in *.
  set (Y1 := snd (add_transition s (f_start f1) EPS X1)).
  set (Y2 := snd (add_transition (f_accept f1) a EPS Y1)).
  set (Y3 := snd (add_transition s a EPS Y2)).
  set (Y4 := snd (add_transition (f_accept f1) (f_start f1) EPS Y3)).
  assert (Eres : buildFragment (STAR l) X0 = (mkFragment s a, Y4)).
  { cbn [buildFragment]. unfold bind, ret.
    unfold Y4, Y3, Y2, Y1, f1, X1, Xb, a, Xa, s.
    destruct (new_state X0) as [s0 Z0]. cbn [fst snd].
    destruct (new_state Z0) as [a0 Z0']. cbn [fst snd].
    destruct (buildFragment l Z0') as [g1 Z1]. reflexivity. }
  rewrite Eres. cbn [fst snd].
  destruct B1 as [L01 S1 A1 Old1 New1 Stuck1 Lang1 Acc1 Sorted1 Start1].
  set (n0 := length (n_states X0)) in *.
  assert (Es : s = n0) by reflexivity.
  assert (La : length (n_states Xa) = S n0) by apply new_state_length.
  assert (Ea : a = S n0) by (unfold a; rewrite new_state_fst; exact La).
  assert (Lb : length (n_states Xb) = S (S n0))
    by (unfold Xb; rewrite new_state_length; lia).
  rewrite Lb in *.
  set (n1 := length (n_states X1)) in *.
  assert (LY1 : length (n_states Y1) = n1) by apply add_transition_length.
  assert (LY2 : length (n_states Y2) = n1)
    by (unfold Y2; now rewrite add_transition_length).
  assert (LY3 : length (n_states Y3) = n1)
    by (unfold Y3; now rewrite add_transition_length).
  assert (LY4 : length (n_states Y4) = n1)
    by (unfold Y4; now rewrite add_transition_length).
  assert (Hedge : forall i c q,
            In q (n_targets Y4 i c) <->
            In q (n_targets X1 i c) \/
            (i = s /\ c = EPS /\ (q = f_start f1 \/ q = a)) \/
            (i = f_accept f1 /\ c = EPS /\ (q = a \/ q = f_start f1))).
  { intros i c q. unfold Y4. rewrite in_add_transition by (rewrite LY3; lia).
    unfold Y3. rewrite in_add_transition by (rewrite LY2; lia).
    unfold Y2. rewrite in_add_transition by (rewrite LY1; lia).
    unfold Y1. rewrite in_add_transition by (fold n1; lia).
    intuition. }
  assert (Hlow : forall i c, i < S (S n0) -> n_targets X1 i c = n_targets X0 i c).
  { intros i c Li. rewrite Old1 by lia.
    unfold Xb, Xa. now rewrite !new_state_targets. }
  assert (Hsa : forall i c, n0 <= i < S (S n0) -> n_targets X1 i c = []).
  { intros i c Li. rewrite Hlow by lia. apply n_targets_out. fold n0. lia. }
  assert (HR1 : forall i c j, S (S n0) <= i < n1 -> In j (n_targets Y4 i c) ->
            (In j (n_targets X1 i c) /\ S (S n0) <= j < n1) \/
            (i = f_accept f1 /\ c = EPS /\ (j = a \/ j = f_start f1))).
  { intros i c j Ri Hj.
    apply Hedge in Hj as [Hj|[(E & _)|Hj]]; auto; try lia.
    left. split; auto. apply (New1 i c j); auto. lia. }
  assert (Hstuck : forall c, n_targets Y4 a c = []).
  { intros c. apply nil_of_no_member. intros q Hq.
    apply Hedge in Hq as [Hq|[(E & _)|(E & _)]]; try lia.
    rewrite Hsa in Hq by lia. destruct Hq. }
  assert (Hinner : forall v, lang l v ->
            n_path Y4 (f_start f1) v (f_accept f1)).
  { intros v Hv. apply Lang1 in Hv. apply n_path_mono with (X := X1); auto.
    intros i c j Hj. apply Hedge. now left. }
  assert (Hloop : forall ws, Forall (lang l) ws ->
            n_path Y4 (f_accept f1) (concat ws) a).
  { induction 1 as [|v ws Hv F IH]; simpl.
    - apply n_path_eps with (q := a); [|constructor].
      apply Hedge. right. right. auto.
    - apply n_path_eps with (q := f_start f1).
      { apply Hedge. right. right. auto. }
      apply n_path_app with (q := f_accept f1); auto. }
  constructor; cbn [f_start f_accept]; fold n0; rewrite ?LY4.
  - lia.
  - lia.
  - lia.
  - intros i c Li. unfold Y4. rewrite add_transition_targets by (rewrite LY3; lia).
    destruct (Nat.eqb_spec i (f_accept f1)); [lia|]. simpl.
    unfold Y3. rewrite add_transition_targets by (rewrite LY2; lia).
    destruct (Nat.eqb_spec i s); [lia|]. simpl.
    unfold Y2. rewrite add_transition_targets by (rewrite LY1; lia).
    destruct (Nat.eqb_spec i (f_accept f1)); [lia|]. simpl.
    unfold Y1. rewrite add_transition_targets by (fold n1; lia).
    destruct (Nat.eqb_spec i s); [lia|]. simpl.
    apply Hlow. lia.
  - intros i c q Li Hq.
    destruct (Nat.lt_ge_cases i (S (S n0))) as [Lb'|Lb'].
    + apply Hedge in Hq as [Hq|[(_ & _ & [->| ->])|(_ & _ & [->| ->])]]; try lia.
      rewrite Hsa in Hq by lia. destruct Hq.
    + destruct (Nat.lt_ge_cases i n1) as [L1|L1].
      * destruct (HR1 i c q (conj Lb' L1) Hq) as [[_ H]|(_ & _ & [->| ->])]; lia.
      * rewrite n_targets_out in Hq by (rewrite LY4; lia). destruct Hq.
  - exact Hstuck.
  - intros w. simpl. split.
    + intros H.
      apply n_path_inv in H
        as [[_ E]|[(p1 & He & Hp)|(c & p1 & w' & -> & Hc & He & Hp)]].
      * lia.
      * apply Hedge in He as [He|[(_ & _ & [->| ->])|(E & _)]]; try lia.
        -- rewrite Hsa in He by lia. destruct He.
        -- destruct (@n_path_star (fun i => S (S n0) <= i < n1) (fun _ => True)
                       (lang l) X1 Y4 (f_start f1) (f_accept f1) a
                       (f_start f1) w a HR1 Hstuck)
             as (w1 & ws & -> & P1 & F); auto; try lia.
           { intros v Hv. now apply Lang1. }
           exists (w1 :: ws). split; auto. constructor; auto. now apply Lang1.
        -- apply (n_path_stuck Hstuck) in Hp as [-> _].
           exists []. split; auto.
      * apply Hedge in He as [He|[(_ & E & _)|(_ & E & _)]]; try congruence.
        rewrite Hsa in He by lia. destruct He.
    + intros (ws & -> & F). destruct F as [|v ws Hv F].
      * simpl. apply n_path_eps with (q := a); [|constructor].
        apply Hedge. right. left. auto.
      * simpl. apply n_path_eps with (q := f_start f1).
        { apply Hedge. right. left. auto. }
        apply n_path_app with (q := f_accept f1); auto.
  - intros i. unfold Y4, Y3, Y2, Y1. rewrite !add_transition_accept.
    rewrite Acc1. unfold Xb, Xa. now rewrite !new_state_accept.
  - intros Hs. unfold Y4, Y3, Y2, Y1. repeat apply add_transition_sorted.
    apply Sorted1. unfold Xb, Xa.
    apply new_state_sorted. now apply new_state_sorted.
  - unfold Y4, Y3, Y2, Y1. rewrite !add_transition_start, Start1.
    reflexivity.
Qed.

End BuiltStar.

(** An expression none of whose symbols is the silent character. *)
Fixpoint no_eps (r : RegexNode) : Prop :=
  match r with
  | CHAR ch => ch <> EPS
  | CONCAT l r' => no_eps l /\ no_eps r'
  | UNION l r' => no_eps l /\ no_eps r'
  | STAR l => no_eps l
  end.

Lemma wf_regex_no_eps r : wf_regex r -> no_eps r.
Proof.
  induction r; simpl; intuition; subst; discriminate.
Qed.

Theorem buildFragment_built r :
  no_eps r ->
  forall X, built r X (snd (buildFragment r X)) (fst (buildFragment r X)).
Proof.
  induction r as [ch|l IHl r IHr|l IHl r IHr|l IHl]; simpl; intros H X.
  - now apply built_char.
  - destruct H. apply built_concat; auto.
  - destruct H. apply built_union; auto.
  - apply built_star; auto.
Qed.

(** ** Thompson: the automaton returned by [build] *)

Lemma in_upd_nth (A : Type) i (f : A -> A) l x :
  In x (upd_nth i f l) -> In x l \/ exists y, In y l /\ x = f y.
Proof.
  revert i; induction l as [|y l IH]; intros [|i]; simpl; auto.
  - intros [<-|H]; eauto.
  - intros [<-|H]; auto. destruct (IH _ H) as [H'|(z & Hz & ->)]; eauto.
Qed.

Definition mark_accept (st : NState) : NState :=
  mkNState (n_id st) true (n_trans st).

Lemma build_eq r :
  build r =
  mkNFA (upd_nth (f_accept (fst (buildFragment r (mkNFA [] 0)))) mark_accept
           (n_states (snd (buildFragment r (mkNFA [] 0)))))
        (f_start (fst (buildFragment r (mkNFA [] 0)))).
Proof.
  unfold build. now destruct (buildFragment r (mkNFA [] 0)).
Qed.

Lemma mark_at a sts s s' i :
  n_at (mkNFA (upd_nth a mark_accept sts) s) i =
  if Nat.eqb a i && Nat.ltb i (length sts)
  then mark_accept (n_at (mkNFA sts s') i)
  else n_at (mkNFA sts s') i.
Proof.
  unfold n_at. cbn [n_states].
  destruct (nth_error sts i) as [st|] eqn:E.
  - assert (L : i < length sts) by (apply nth_error_Some; congruence).
    apply Nat.ltb_lt in L. rewrite L, andb_true_r.
    rewrite (nth_error_nth _ _ dflt_nstate E).
    apply nth_error_nth. rewrite nth_error_upd_nth, E.
    now destruct (Nat.eqb a i).
  - assert (L : length sts <= i) by now apply nth_error_None.
    rewrite !nth_overflow by (rewrite ?length_upd_nth; lia).
    apply Nat.ltb_ge in L. rewrite L, andb_false_r. reflexivity.
Qed.

Lemma mark_targets a sts s s' i c :
  n_targets (mkNFA (upd_nth a mark_accept sts) s) i c =
  n_targets (mkNFA sts s') i c.
Proof.
  unfold n_targets. rewrite (mark_at a sts s s' i).
  now destruct (Nat.eqb a i && Nat.ltb i (length sts)).
Qed.

Lemma mark_path a sts s s' p w q :
  n_path (mkNFA (upd_nth a mark_accept sts) s) p w q <->
  n_path (mkNFA sts s') p w q.
Proof.
  split; apply n_path_mono; intros i c j;
    now rewrite (mark_targets a sts s s').
Qed.

Section BuildCorrect.
Variable r : RegexNode.
Hypothesis Hr : no_eps r.

Lemma build_length :
  length (n_states (build r)) =
  length (n_states (snd (buildFragment r (mkNFA [] 0)))).
Proof. rewrite build_eq. cbn [n_states]. apply length_upd_nth. Qed.

Lemma build_targets i c :
  n_targets (build r) i c = n_targets (snd (buildFragment r (mkNFA [] 0))) i c.
Proof.
  rewrite build_eq.
  destruct (snd (buildFragment r (mkNFA [] 0))) as [sts s0].
  apply mark_targets.
Qed.

Lemma build_start :
  n_start (build r) = f_start (fst (buildFragment r (mkNFA [] 0))).
Proof. now rewrite build_eq. Qed.

Lemma build_accept i :
  n_accept (n_at (build r) i) = true <->
  i = f_accept (fst (buildFragment r (mkNFA [] 0))).
Proof.
  pose proof (buildFragment_built r Hr (mkNFA [] 0)) as B.
  destruct B as [L01 S1 A1 Old1 New1 Stuck1 Lang1 Acc1 Sorted1 Start1].
  rewrite build_eq.
  specialize (Acc1 i). revert Acc1 A1.
  destruct (snd (buildFragment r (mkNFA [] 0))) as [sts s0].
  cbn [n_states]. intros Acc1 A1.
  rewrite (mark_at _ sts _ s0 i).
  destruct (Nat.eqb_spec (f_accept (fst (buildFragment r (mkNFA [] 0)))) i)
    as [E|E]; cbn [andb].
  - destruct (Nat.ltb_spec i (length sts)) as [L|L]; [|lia].
    simpl. split; auto.
  - rewrite Acc1. unfold n_at. simpl.
    split; [destruct i; simpl; discriminate | congruence].
Qed.

Lemma build_path p w q :
  n_path (build r) p w q <->
  n_path (snd (buildFragment r (mkNFA [] 0))) p w q.
Proof.
  split; apply n_path_mono; intros i c j; now rewrite build_targets.
Qed.

(** The automaton of [build] accepts exactly the language of the expression. *)
Theorem build_language w : n_accepts (build r) w <-> lang r w.
Proof.
  pose proof (buildFragment_built r Hr (mkNFA [] 0)) as B.
  unfold n_accepts, n_accepts_from. rewrite build_start.
  rewrite <- (bt_lang B). split.
  - intros (q & P & A). apply build_accept in A. subst q.
    now apply build_path.
  - intros P. eexists. split; [apply build_path; exact P|].
    now apply build_accept.
Qed.

Theorem build_ok : nfa_ok (build r).
Proof.
  pose proof (buildFragment_built r Hr (mkNFA [] 0)) as B.
  destruct B as [L01 S1 A1 Old1 New1 Stuck1 Lang1 Acc1 Sorted1 Start1].
  split; [split|].
  - rewrite build_start, build_length. lia.
  - intros i c q Hq. rewrite build_targets in Hq. rewrite build_length.
    apply (New1 i c q); auto. simpl. lia.
  - intros st Hst. rewrite build_eq in Hst. cbn [n_states] in Hst.
    assert (S0 : forall st0, In st0 (n_states (mkNFA [] 0)) ->
                   om_sorted char_compare (n_trans st0)) by (intros ? []).
    apply in_upd_nth in Hst as [Hst|(y & Hy & ->)]; [now apply Sorted1|].
    simpl. now apply Sorted1.
Qed.

End BuildCorrect.

(** ** Trap removal keeps the language when the trap is a dead sink *)

Lemma d_step_out d s b : in_range d s = false -> d_step d s b = (-1)%Z.
Proof. intros H. unfold d_step. now rewrite d_get_none. Qed.

Lemma in_range_neg d : in_range d (-1) = false.
Proof. reflexivity. Qed.

Lemma d_run_out d w : d_run d (-1) w = (-1)%Z.
Proof.
  induction w as [|b w IH]; simpl; auto.
Qed.

Lemma d_run_app d s u w : d_run d s (u ++ w) = d_run d (d_run d s u) w.
Proof. revert s; induction u as [|b u IH]; intros s; simpl; auto. Qed.

Lemma d_accepts_from_app d s u w :
  d_accepts_from d s (u ++ w) = d_accepts_from d (d_run d s u) w.
Proof. unfold d_accepts_from. now rewrite d_run_app. Qed.

Lemma d_total_step d s b :
  d_total d -> in_range d s = true -> in_range d (d_step d s b) = true.
Proof.
  intros [T _] H. rewrite d_step_at by assumption.
  assert (I : In (d_at d (Z.to_nat s)) (d_states d)).
  { apply nth_In. apply in_range_spec in H. lia. }
  destruct (T _ I). now destruct b.
Qed.

Lemma d_total_run d s w :
  d_total d -> in_range d s = true -> in_range d (d_run d s w) = true.
Proof.
  intros T. revert s; induction w as [|b w IH]; intros s H; simpl; auto.
  apply IH. now apply d_total_step.
Qed.

Lemma in_range_remove_trap d s : in_range (remove_trap d) s = in_range d s.
Proof. unfold in_range, d_size. now rewrite remove_trap_length. Qed.

Section TrapLanguage.
Local Open Scope Z_scope.
Variable md : DFA.
Hypothesis Htot : d_total md.
Hypothesis Habs : forall b, d_step md (d_trap md) b = d_trap md.
Hypothesis Hdead : d_accepting md (d_trap md) = false.

Lemma trap_in_range : in_range md (d_trap md) = true.
Proof. apply Htot. Qed.

Lemma trap_recorded : d_trap md <> -1.
Proof.
  intros E. pose proof trap_in_range as H. rewrite E in H. discriminate.
Qed.

Lemma remove_trap_get s :
  in_range md s = true ->
  d_get (remove_trap md) s =
  Some (if s =? d_trap md
        then clear_state (retarget (d_trap md) (d_at md (Z.to_nat s)))
        else retarget (d_trap md) (d_at md (Z.to_nat s))).
Proof.
  intros H. pose proof H as R. apply in_range_spec in R.
  unfold d_get. destruct (Z.ltb_spec s 0) as [L|L]; [lia|].
  rewrite (@remove_trap_nth md (Z.to_nat s) (d_at md (Z.to_nat s)) trap_recorded).
  - now rewrite Z2Nat.id by lia.
  - unfold d_at. apply nth_error_nth'. lia.
Qed.

Lemma remove_trap_step s b :
  in_range md s = true ->
  d_step (remove_trap md) s b =
  if (s =? d_trap md) || (d_step md s b =? d_trap md) then -1
  else d_step md s b.
Proof.
  intros H. unfold d_step at 1. rewrite remove_trap_get by assumption.
  rewrite (@d_step_at md s b H).
  destruct (s =? d_trap md); simpl.
  - now destruct b.
  - now destruct b.
Qed.

Lemma remove_trap_accepting s :
  d_accepting (remove_trap md) s = d_accepting md s.
Proof.
  destruct (in_range md s) eqn:H.
  - unfold d_accepting at 1. rewrite remove_trap_get by assumption.
    destruct (Z.eqb_spec s (d_trap md)) as [->|Hne].
    + simpl. now rewrite Hdead.
    + simpl. unfold d_accepting. now rewrite d_get_at.
  - unfold d_accepting. rewrite !d_get_none; auto.
    now rewrite in_range_remove_trap.
Qed.

Lemma trap_run w : d_run md (d_trap md) w = d_trap md.
Proof. induction w as [|b w IH]; simpl; auto. now rewrite Habs. Qed.

Lemma remove_trap_run s w :
  in_range md s = true -> s <> d_trap md ->
  d_run (remove_trap md) s w =
  if d_run md s w =? d_trap md then -1 else d_run md s w.
Proof.
  revert s; induction w as [|b w IH]; intros s H Hne; simpl.
  - now destruct (Z.eqb_spec s (d_trap md)).
  - rewrite remove_trap_step by assumption.
    destruct (Z.eqb_spec s (d_trap md)) as [E|_]; [contradiction|]. simpl.
    destruct (Z.eqb_spec (d_step md s b) (d_trap md)) as [E|E].
    + rewrite E, trap_run, Z.eqb_refl. apply d_run_out.
    + apply IH; auto. now apply d_total_step.
Qed.

Lemma remove_trap_run_trap w :
  d_accepting (remove_trap md) (d_run (remove_trap md) (d_trap md) w) = false.
Proof.
  destruct w as [|b w]; simpl.
  - now rewrite remove_trap_accepting.
  - rewrite remove_trap_step by apply trap_in_range.
    rewrite Z.eqb_refl. simpl. now rewrite d_run_out.
Qed.

Lemma remove_trap_accepts_from s w :
  in_range md s = true ->
  d_accepts_from (remove_trap md) s w = d_accepts_from md s w.
Proof.
  intros H. unfold d_accepts_from.
  destruct (Z.eq_dec s (d_trap md)) as [->|Hne].
  - now rewrite remove_trap_run_trap, trap_run, Hdead.
  - rewrite remove_trap_run by assumption.
    destruct (Z.eqb_spec (d_run md s w) (d_trap md)) as [E|E].
    + now rewrite E, Hdead.
    + apply remove_trap_accepting.
Qed.

(** The automaton without its trap accepts the same strings. *)
Lemma remove_trap_language w :
  d_accepts (remove_trap md) w = d_accepts md w.
Proof.
  unfold d_accepts. rewrite remove_trap_start.
  apply remove_trap_accepts_from. apply Htot.
Qed.

Lemma remove_trap_partial : d_partial (remove_trap md).
Proof.
  intros st Hst. apply In_nth_error in Hst as (i & Hi).
  assert (L : (i < length (d_states md))%nat).
  { rewrite <- remove_trap_length. apply nth_error_Some. congruence. }
  destruct (nth_error (d_states md) i) as [st0|] eqn:E;
    [|apply nth_error_None in E; lia].
  rewrite (@remove_trap_nth md i st0 trap_recorded E) in Hi.
  assert (I : In st0 (d_states md)) by (eapply nth_error_In; eauto).
  destruct Htot as [T _]. destruct (T _ I) as [T0 T1].
  rewrite !in_range_remove_trap.
  destruct (Z.of_nat i =? d_trap md); injection Hi as <-; simpl; auto.
  split.
  - destruct (d_t0 st0 =? d_trap md); auto.
  - destruct (d_t1 st0 =? d_trap md); auto.
Qed.

End TrapLanguage.

(** ** The stages in sequence *)

(** What the minimized automaton of an expression is, before its trap is
    removed. *)
Record compiled (r : RegexNode) (md : DFA) : Prop := mkCompiled {
  cp_total : d_total md;
  cp_reduced : d_reduced md;
  cp_sink : forall b, d_step md (d_trap md) b = d_trap md;
  cp_dead : d_accepting md (d_trap md) = false;
  cp_lang : forall w, d_accepts md w = true <-> lang r (map bit_char w)
}.

Lemma has_accept_nil infa : has_accept infa [] = false.
Proof. reflexivity. Qed.

Lemma pipeline_stages r :
  wf_regex r ->
  exists md, pipeline r = Some (remove_trap md) /\ compiled r md.
Proof.
  intros Hwf. pose proof (wf_regex_no_eps r Hwf) as Hne.
  pose proof (@build_ok r Hne) as Hok.
  destruct (remove_spec Hok) as (onfa & Erem & Hrem).
  pose proof (eps_removed_wf (proj1 Hok) Hrem) as Hwf1.
  destruct (convert_sets_spec Hwf1) as (dfa & sets & Econv & Hsd).
  pose proof (subset_dfa_total Hsd) as Htot.
  destruct (minimize_spec Htot) as (md & q & P & k & Emin & Hmin).
  exists md. split.
  { unfold pipeline, convert, minimize. rewrite Erem, Econv.
    cbn [option_map fst]. now rewrite Emin. }
  destruct (subset_trap_index Hsd) as (Et & Lpos & Hnil).
  pose proof (sd_len Hsd) as Len.
  set (t := length sets - 1) in *.
  assert (Lt : t < length (d_states dfa)) by (unfold t; lia).
  assert (Etm : d_trap md = nth t P 0%Z).
  { rewrite (mz_trap Hmin). unfold pclass. now rewrite Et, Nat2Z.id. }
  constructor.
  - exact (mz_total Hmin).
  - exact (minimized_reduced Hmin).
  - intros b. rewrite Etm, (mz_step Hmin b Lt). f_equal.
    unfold d_succ.
    rewrite (@subset_empty_move onfa dfa sets Hsd t b) by
      (try lia; rewrite Hnil; apply move_set_nil).
    now rewrite Et, Nat2Z.id.
  - rewrite Etm, (mz_accepting Hmin Lt).
    rewrite (sd_accept Hsd) by lia. now rewrite Hnil.
  - intros w. rewrite (minimize_language w Htot Hmin).
    rewrite (subset_language Hsd (er_free Hrem)).
    rewrite (remove_language (proj1 Hok) Hrem).
    apply (@build_language r Hne).
Qed.

(** ** Reachable states as runs *)

Lemma d_reach_run d s :
  in_range d (d_start d) = true ->
  (d_reach d (d_start d) s <->
   exists u, d_run d (d_start d) u = s /\ in_range d s = true).
Proof.
  intros Hs. split.
  - induction 1 as [|s' b R (u & E & I) Hb].
    + exists []. auto.
    + exists (u ++ [b]). rewrite d_run_app, E. auto.
  - intros (u & E & I). revert s E I.
    induction u as [|b u IH] using rev_ind; intros s E I.
    + simpl in E. subst s. constructor.
    + rewrite d_run_app in E. simpl in E. subst s.
      destruct (in_range d (d_run d (d_start d) u)) eqn:R.
      * apply d_reach_step; auto.
      * rewrite d_step_out in I by assumption. discriminate.
Qed.

(** ** Residual languages *)

(** [u] and [v] have the same residual language: the Nerode equivalence. *)
Definition residual_eq (r : RegexNode) (u v : list bool) : Prop :=
  forall w, lang r (map bit_char (u ++ w)) <-> lang r (map bit_char (v ++ w)).

(** [u] is a prefix of some string of the language. *)
Definition live (r : RegexNode) (u : list bool) : Prop :=
  exists w, lang r (map bit_char (u ++ w)).

Lemma lang_inhabited r : wf_regex r -> exists w, lang r (map bit_char w).
Proof.
  induction r as [ch|l IHl r IHr|l IHl r IHr|l IHl]; simpl.
  - intros [->| ->]; [exists [false]|exists [true]]; reflexivity.
  - intros [Hl Hr]. destruct (IHl Hl) as (w1 & H1), (IHr Hr) as (w2 & H2).
    exists (w1 ++ w2). rewrite map_app. eauto.
  - intros [Hl _]. destruct (IHl Hl) as (w1 & H1). eauto.
  - intros _. exists [], []. split; auto.
Qed.

Section Compiled.
Local Open Scope Z_scope.
Variables (r : RegexNode) (md : DFA).
Hypothesis Hwf : wf_regex r.
Hypothesis C : compiled r md.

Lemma compiled_trap_dead w : d_accepts_from md (d_trap md) w = false.
Proof.
  unfold d_accepts_from. rewrite (@trap_run md (cp_sink C)). apply (cp_dead C).
Qed.

Lemma compiled_residual u w :
  d_accepts_from md (d_run md (d_start md) u) w = true <->
  lang r (map bit_char (u ++ w)).
Proof. rewrite <- d_accepts_from_app. apply (cp_lang C). Qed.

Lemma compiled_run_range u : in_range md (d_run md (d_start md) u) = true.
Proof. apply d_total_run; apply (cp_total C). Qed.

Lemma compiled_live u : d_run md (d_start md) u <> d_trap md <-> live r u.
Proof.
  split.
  - intros Hne.
    destruct (cp_reduced C (compiled_run_range u)
                (trap_in_range (cp_total C)) Hne) as (w & Hw).
    rewrite compiled_trap_dead in Hw. exists w.
    apply compiled_residual. now apply not_false_is_true.
  - intros (w & Hw) E. apply compiled_residual in Hw.
    rewrite E, compiled_trap_dead in Hw. discriminate.
Qed.

Lemma compiled_start : d_start md <> d_trap md.
Proof.
  apply (compiled_live []). destruct (lang_inhabited r Hwf) as (w & Hw).
  now exists w.
Qed.

Lemma compiled_same_state u v :
  d_run md (d_start md) u = d_run md (d_start md) v <-> residual_eq r u v.
Proof.
  split.
  - intros E w. rewrite <- !compiled_residual. now rewrite E.
  - intros R.
    destruct (Z.eq_dec (d_run md (d_start md) u) (d_run md (d_start md) v))
      as [E|Hne]; auto.
    destruct (cp_reduced C (compiled_run_range u) (compiled_run_range v) Hne)
      as (w & Hw).
    exfalso. apply Hw. apply eq_true_iff_eq.
    rewrite !compiled_residual. apply R.
Qed.

Lemma final_run u :
  d_run (remove_trap md) (d_start (remove_trap md)) u =
  if d_run md (d_start md) u =? d_trap md then -1
  else d_run md (d_start md) u.
Proof.
  rewrite remove_trap_start.
  apply (remove_trap_run (cp_total C) (cp_sink C)).
  - apply (cp_total C).
  - apply compiled_start.
Qed.

Lemma final_live u :
  in_range (remove_trap md)
    (d_run (remove_trap md) (d_start (remove_trap md)) u) = true <-> live r u.
Proof.
  rewrite final_run, in_range_remove_trap, <- compiled_live.
  destruct (Z.eqb_spec (d_run md (d_start md) u) (d_trap md)) as [E|E].
  - split; [discriminate|contradiction].
  - split; auto. intros _. apply compiled_run_range.
Qed.

Lemma final_same_state u v :
  live r u -> live r v ->
  (d_run (remove_trap md) (d_start (remove_trap md)) u =
   d_run (remove_trap md) (d_start (remove_trap md)) v <-> residual_eq r u v).
Proof.
  intros Lu Lv. apply compiled_live in Lu, Lv. rewrite !final_run.
  destruct (Z.eqb_spec (d_run md (d_start md) u) (d_trap md)); [contradiction|].
  destruct (Z.eqb_spec (d_run md (d_start md) v) (d_trap md)); [contradiction|].
  apply compiled_same_state.
Qed.

Lemma final_reduced : d_reduced (remove_trap md).
Proof.
  intros s s' Hs Hs' Hne. rewrite in_range_remove_trap in Hs, Hs'.
  destruct (cp_reduced C Hs Hs' Hne) as (w & Hw). exists w.
  now rewrite !(remove_trap_accepts_from (cp_total C) (cp_sink C) (cp_dead C)).
Qed.

Lemma final_start_range :
  in_range (remove_trap md) (d_start (remove_trap md)) = true.
Proof. rewrite in_range_remove_trap, remove_trap_start. apply (cp_total C). Qed.

End Compiled.

(** ** The whole pipeline *)

(** C1. For a well-formed expression the pipeline returns an automaton, and
    that automaton accepts a string over {0,1} (the run along [t0]/[t1] from
    the start state ends in an accepting state, a [-1] transition rejecting)
    exactly when the string is in the language of the expression. *)
Theorem pipeline_accepts_language (r : RegexNode) :
  wf_regex r ->
  exists d, pipeline r = Some d /\
    forall w, d_accepts d w = true <-> lang r (map bit_char w).
Proof.
  intros Hwf. destruct (pipeline_stages r Hwf) as (md & E & C).
  exists (remove_trap md). split; auto. intros w.
  rewrite (remove_trap_language (cp_total C) (cp_sink C) (cp_dead C)).
  apply (cp_lang C).
Qed.

Lemma pipeline_accepts_language_witness :
  wf_regex (CONCAT (CHAR "0") (STAR (CHAR "1"))) /\
  exists d, pipeline (CONCAT (CHAR "0") (STAR (CHAR "1"))) = Some d /\
    forall w, d_accepts d w = true <->
              lang (CONCAT (CHAR "0") (STAR (CHAR "1"))) (map bit_char w).
Proof.
  split; [simpl; auto|].
  apply (pipeline_accepts_language (CONCAT (CHAR "0") (STAR (CHAR "1")))).
  simpl; auto.
Defined.

(** C2 on the empty string.  For [0*] the final automaton accepts the empty
    string, and the emitted grammar, which has no production with an empty
    right-hand side, does not derive it. *)
Lemma grammar_misses_empty_string :
  exists d G, pipeline (STAR (CHAR "0")) = Some d /\
    emit_grammar d = Some G /\
    d_accepts d [] = true /\ ~ derives G "q0" [].
Proof.
  eexists. eexists. split; [vm_compute; reflexivity|].
  split; [vm_compute; reflexivity|]. split; [reflexivity|].
  intros H. now apply derives_nonempty in H.
Qed.

(** C2.  For a well-formed expression the grammar is emitted, and a
    string is derivable from [q0] exactly when it is not empty and the final
    automaton accepts it. *)
Theorem grammar_matches_pipeline (r : RegexNode) :
  wf_regex r ->
  exists d G, pipeline r = Some d /\ emit_grammar d = Some G /\
    forall w, derives G "q0" w <-> (w <> [] /\ d_accepts d w = true).
Proof.
  intros Hwf. destruct (pipeline_stages r Hwf) as (md & E & C).
  destruct (@grammar_matches_dfa (remove_trap md)) as (G & EG & HG).
  - apply remove_trap_partial. apply (cp_total C).
  - apply (final_start_range C).
  - exists (remove_trap md), G. split; auto. split; auto. intros w. split.
    + intros D. pose proof (derives_nonempty D) as Hne. split; auto.
      now apply HG.
    + intros [Hne A]. now apply HG.
Qed.

Lemma grammar_matches_pipeline_witness :
  wf_regex (UNION (CHAR "0") (CHAR "1")) /\
  exists d G, pipeline (UNION (CHAR "0") (CHAR "1")) = Some d /\
    emit_grammar d = Some G /\
    forall w, derives G "q0" w <-> (w <> [] /\ d_accepts d w = true).
Proof.
  split; [simpl; auto|].
  apply (grammar_matches_pipeline (UNION (CHAR "0") (CHAR "1"))).
  simpl; auto.
Defined.

(** The final automaton of the expression [0]: the cleared trap at index 0,
    the start state at index 1 and the accepting state at index 2. *)
Definition dfa_single_zero : DFA :=
  mkDFA [mkDState 0 false (-1) (-1); mkDState 1 false 2 (-1);
         mkDState 2 true (-1) (-1)] 1 (-1).

(** C3 on a language with a dead residual.  For [0] the final automaton has
    two reachable states, and the strings [], [0] and [1] are pairwise
    inequivalent, so the Nerode relation of the language has at least three
    classes. *)
Lemma reachable_count_below_nerode_index :
  pipeline (CHAR "0") = Some dfa_single_zero /\
  (exists l, NoDup l /\ length l = 2 /\
     forall s, In s l <-> d_reach dfa_single_zero (d_start dfa_single_zero) s) /\
  ~ residual_eq (CHAR "0") [] [false] /\
  ~ residual_eq (CHAR "0") [] [true] /\
  ~ residual_eq (CHAR "0") [false] [true].
Proof.
  split; [vm_compute; reflexivity|]. split.
  - exists [1%Z; 2%Z]. split; [|split; [reflexivity|]].
    + repeat constructor; simpl; intuition discriminate.
    + intros s. split.
      * intros [<-|[<-|[]]]; [constructor|].
        exact (@d_reach_step dfa_single_zero 1%Z 1%Z false
                 (d_reach_refl dfa_single_zero 1%Z) eq_refl).
      * cbn [d_start dfa_single_zero].
        induction 1 as [|s' b R IH Hb]; [simpl; auto|].
        destruct IH as [<-|[<-|[]]]; destruct b; vm_compute in Hb;
          try discriminate; simpl; auto.
  - split; [|split].
    + intros R. destruct (R []) as [_ R2]. simpl in R2.
      specialize (R2 eq_refl). discriminate.
    + intros R. destruct (R [false]) as [R1 _]. simpl in R1.
      specialize (R1 eq_refl). discriminate.
    + intros R. destruct (R []) as [R1 _]. simpl in R1.
      specialize (R1 eq_refl). discriminate.
Qed.

(** C3.  The reachable states of the final automaton are the runs of
    the live strings, one state for each residual language that is not
    empty, and no two of them are equivalent. *)
Theorem reachable_states_are_live_residuals (r : RegexNode) :
  wf_regex r ->
  exists d, pipeline r = Some d /\
    (forall s, d_reach d (d_start d) s <->
               exists u, d_run d (d_start d) u = s /\ in_range d s = true) /\
    (forall u, in_range d (d_run d (d_start d) u) = true <-> live r u) /\
    (forall u v, live r u -> live r v ->
       (d_run d (d_start d) u = d_run d (d_start d) v <-> residual_eq r u v)) /\
    (forall s s', d_reach d (d_start d) s -> d_reach d (d_start d) s' ->
       s <> s' -> d_distinct d s s').
Proof.
  intros Hwf. destruct (pipeline_stages r Hwf) as (md & E & C).
  exists (remove_trap md). split; auto.
  pose proof (final_start_range C) as Hs.
  split; [|split; [|split]].
  - intros s. now apply d_reach_run.
  - apply (final_live Hwf C).
  - apply (final_same_state Hwf C).
  - intros s s' R R' Hne.
    apply (final_reduced C); auto; eapply d_reach_in_range; eauto.
Qed.

Lemma reachable_states_are_live_residuals_witness :
  wf_regex (CONCAT (CHAR "0") (CHAR "0")) /\
  exists d, pipeline (CONCAT (CHAR "0") (CHAR "0")) = Some d /\
    (forall s, d_reach d (d_start d) s <->
               exists u, d_run d (d_start d) u = s /\ in_range d s = true) /\
    (forall u, in_range d (d_run d (d_start d) u) = true <->
               live (CONCAT (CHAR "0") (CHAR "0")) u) /\
    (forall u v, live (CONCAT (CHAR "0") (CHAR "0")) u ->
       live (CONCAT (CHAR "0") (CHAR "0")) v ->
       (d_run d (d_start d) u = d_run d (d_start d) v <->
        residual_eq (CONCAT (CHAR "0") (CHAR "0")) u v)) /\
    (forall s s', d_reach d (d_start d) s -> d_reach d (d_start d) s' ->
       s <> s' -> d_distinct d s s').
Proof.
  split; [simpl; auto|].
  apply (reachable_states_are_live_residuals (CONCAT (CHAR "0") (CHAR "0"))).
  simpl; auto.
Defined.

(** ** Trap removal: what changes and what stays *)

Section TrapRemoverClaims.
Local Open Scope Z_scope.

(** C9.  [remove_trap] rewrites every transition that targets the recorded
    trap index to [-1], clears the trap state's two transitions and its
    accept flag, and sets the recorded trap index to [-1]; the other
    transitions, the accept flags of the other states, the ids, the start
    index and the number of states are unchanged; and with no trap recorded
    ([trap = -1]) the whole DFA is unchanged. *)
Theorem remove_trap_frame (dfa : DFA) :
  (d_trap dfa = -1 -> remove_trap dfa = dfa) /\
  (d_trap dfa <> -1 ->
     d_trap (remove_trap dfa) = -1 /\
     d_start (remove_trap dfa) = d_start dfa /\
     length (d_states (remove_trap dfa)) = length (d_states dfa) /\
     forall (i : nat) (st : DState),
       nth_error (d_states dfa) i = Some st ->
       exists st',
         nth_error (d_states (remove_trap dfa)) i = Some st' /\
         d_id st' = d_id st /\
         (Z.of_nat i = d_trap dfa ->
            d_accept st' = false /\ d_t0 st' = -1 /\ d_t1 st' = -1) /\
         (Z.of_nat i <> d_trap dfa ->
            d_accept st' = d_accept st /\
            d_t0 st' = (if d_t0 st =? d_trap dfa then -1 else d_t0 st) /\
            d_t1 st' = (if d_t1 st =? d_trap dfa then -1 else d_t1 st))).
Proof.
  split; [apply remove_trap_none|].
  intros Ht. repeat split.
  - apply remove_trap_trap.
  - apply remove_trap_start.
  - apply remove_trap_length.
  - intros i st Hi. rewrite (@remove_trap_nth dfa i st Ht Hi).
    eexists. split; [reflexivity|].
    destruct (Z.eqb_spec (Z.of_nat i) (d_trap dfa)) as [E|E]; simpl;
      repeat split; auto; intros; congruence.
Qed.

(** After [remove_trap] no transition targets the former trap. *)
Lemma remove_trap_no_edge (dfa : DFA) (st : DState) :
  0 <= d_trap dfa ->
  In st (d_states (remove_trap dfa)) ->
  d_t0 st <> d_trap dfa /\ d_t1 st <> d_trap dfa.
Proof.
  intros Ht Hin. apply In_nth_error in Hin as (i & Hi).
  assert (Hne : d_trap dfa <> -1) by lia.
  assert (L : (i < length (d_states dfa))%nat).
  { rewrite <- remove_trap_length. apply nth_error_Some. congruence. }
  destruct (nth_error (d_states dfa) i) as [st0|] eqn:E0;
    [|apply nth_error_None in E0; lia].
  rewrite (@remove_trap_nth dfa _ _ Hne E0) in Hi. injection Hi as <-.
  destruct (Z.of_nat i =? d_trap dfa); simpl.
  - lia.
  - destruct (Z.eqb_spec (d_t0 st0) (d_trap dfa));
      destruct (Z.eqb_spec (d_t1 st0) (d_trap dfa)); lia.
Qed.

Lemma remove_trap_unreachable (dfa : DFA) (s x : Z) :
  0 <= d_trap dfa -> s <> d_trap dfa ->
  d_reach (remove_trap dfa) s x -> x <> d_trap dfa.
Proof.
  intros Ht Hs R. induction R as [|s' b R IH Hb]; auto.
  unfold d_step in *. destruct (d_get (remove_trap dfa) s') as [st|] eqn:E.
  - apply d_get_in in E. apply (@remove_trap_no_edge dfa st Ht) in E as [E0 E1].
    now destruct b.
  - lia.
Qed.

(** C10.  Trap elimination keeps the trap state in the vector: the size is
    unchanged and the former trap stays at its index, non-accepting, with
    both transitions [-1].  When the start state is not the former trap, that
    state is unreachable from the start, [name_states] leaves its name empty,
    [get_order] does not list it, and every name written in the transition
    table and in the grammar is the name of another state. *)
Theorem trap_state_kept (dfa : DFA) :
  in_range dfa (d_trap dfa) = true ->
  length (d_states (remove_trap dfa)) = length (d_states dfa) /\
  (exists st,
     nth_error (d_states (remove_trap dfa)) (Z.to_nat (d_trap dfa)) = Some st /\
     d_accept st = false /\ d_t0 st = -1 /\ d_t1 st = -1) /\
  (d_start dfa <> d_trap dfa ->
   ~ d_reach (remove_trap dfa) (d_start (remove_trap dfa)) (d_trap dfa) /\
   exists qname order,
     name_states (remove_trap dfa) = Some qname /\
     get_order qname = Some order /\
     nth (Z.to_nat (d_trap dfa)) qname ""%string = ""%string /\
     ~ In (Z.to_nat (d_trap dfa)) (map snd order) /\
     (forall r, In r (table_of (remove_trap dfa) qname order) ->
        (exists i, i <> Z.to_nat (d_trap dfa) /\ named qname i /\
                   r_name r = nth i qname ""%string) /\
        (r_c0 r = "N"%string \/
         exists j, j <> Z.to_nat (d_trap dfa) /\ named qname j /\
                   r_c0 r = nth j qname ""%string) /\
        (r_c1 r = "N"%string \/
         exists j, j <> Z.to_nat (d_trap dfa) /\ named qname j /\
                   r_c1 r = nth j qname ""%string)) /\
     (forall p, In p (grammar_of (remove_trap dfa) qname order) ->
        (exists i, i <> Z.to_nat (d_trap dfa) /\ named qname i /\
                   p_lhs p = nth i qname ""%string) /\
        (p_rhs p = ""%string \/
         exists j, j <> Z.to_nat (d_trap dfa) /\ named qname j /\
                   p_rhs p = nth j qname ""%string))).
Proof.
  intros Hr. pose proof Hr as Hr'. apply in_range_spec in Hr'.
  set (t := Z.to_nat (d_trap dfa)).
  assert (Hne : d_trap dfa <> -1) by lia.
  split; [apply remove_trap_length|]. split.
  - destruct (nth_error (d_states dfa) t) as [st0|] eqn:E0;
      [|apply nth_error_None in E0; lia].
    rewrite (@remove_trap_nth dfa _ _ Hne E0).
    replace (Z.of_nat t =? d_trap dfa) with true by (symmetry; apply Z.eqb_eq; lia).
    eexists. split; [reflexivity|]. simpl. auto.
  - intros Hst.
    assert (Hunreach : ~ d_reach (remove_trap dfa) (d_start (remove_trap dfa)) (d_trap dfa)).
    { intros R. rewrite remove_trap_start in R.
      apply remove_trap_unreachable in R; auto; lia. }
    split; auto.
    destruct (name_states_ok (remove_trap dfa)) as (qname & Eq & N).
    destruct (get_order_ok N) as (order & Eo & Ho).
    exists qname, order.
    assert (Hun : nth t qname ""%string = ""%string).
    { destruct (string_dec (nth t qname ""%string) ""%string) as [E|E]; auto.
      exfalso. apply Hunreach.
      apply (no_reach N) in E as [_ R].
      - subst t. now rewrite Z2Nat.id in R by lia.
      - rewrite remove_trap_length. lia. }
    assert (Hnamed : forall j, named qname j -> j <> t).
    { intros j Hj ->. now apply Hj. }
    assert (Hord : forall k i, In (k, i) order -> named qname i).
    { intros k i Hin. apply Ho in Hin. unfold named. rewrite Hin. apply qn_nonempty. }
    assert (Hcell : forall tid,
              print_transition tid qname = "N"%string \/
              exists j, j <> t /\ named qname j /\
                        print_transition tid qname = nth j qname ""%string).
    { intros tid. unfold print_transition.
      destruct (no_target qname tid) eqn:Hnt; auto.
      right. exists (Z.to_nat tid).
      apply no_target_false in Hnt as (_ & _ & Hn). auto. }
    repeat split; auto.
    + rewrite in_map_iff. intros ([k i] & Ei & Hin). simpl in Ei. subst i.
      apply Hord in Hin. now apply Hin.
    + unfold table_of in H. apply in_map_iff in H as ([k i] & <- & Hin).
      simpl. exists i. apply Hord in Hin. auto.
    + unfold table_of in H. apply in_map_iff in H as ([k i] & <- & Hin).
      simpl. apply Hcell.
    + unfold table_of in H. apply in_map_iff in H as ([k i] & <- & Hin).
      simpl. apply Hcell.
    + apply in_grammar_of in H as (k & i & Hin & Hp).
      apply in_process_symbol in Hp as (b & _ & [[_ ->]|[_ ->]]);
        simpl; exists i; apply Hord in Hin; auto.
    + apply in_grammar_of in H as (k & i & Hin & Hp).
      apply in_process_symbol in Hp as (b & Hnt & [[_ ->]|[_ ->]]); simpl; auto.
      right. apply no_target_false in Hnt as (_ & _ & Hn).
      exists (Z.to_nat (d_tr (remove_trap dfa) i b)). auto.
Qed.

End TrapRemoverClaims.

(** ** The theorems at concrete automata *)

(** The Thompson automaton of [0*]. *)
Definition nfa_zero_star : NFA :=
  mkNFA [mkNState 0 false [(EPS, [2; 1])];
         mkNState 1 true [];
         mkNState 2 false [("0"%char, [3])];
         mkNState 3 false [(EPS, [1; 2])]] 0.

(** The automaton of [0] without silent transitions. *)
Definition nfa_zero : NFA :=
  mkNFA [mkNState 0 false [("0"%char, [1])]; mkNState 1 true []] 0.

(** The subset automaton of [0]; state 2 is the trap. *)
Definition dfa_zero : DFA :=
  mkDFA [mkDState 0 false 1 2; mkDState 1 true 2 2; mkDState 2 false 2 2] 0 2.

Ltac by_cases_on_state H i c :=
  destruct i as [|[|[|[|i]]]];
  [..|rewrite n_targets_out in H by (simpl; lia); contradiction];
  cbn in H; try contradiction;
  destruct c as [[] [] [] [] [] [] [] []]; cbn in H; intuition lia.

Lemma nfa_zero_wf : nfa_wf nfa_zero.
Proof.
  split; [simpl; lia|]. intros i c q H. simpl.
  destruct i as [|[|i]];
    [..|rewrite n_targets_out in H by (simpl; lia); contradiction];
    cbn in H; try contradiction;
    destruct c as [[] [] [] [] [] [] [] []]; cbn in H; intuition lia.
Qed.

Lemma nfa_zero_star_ok : nfa_ok nfa_zero_star.
Proof.
  split; [split; [simpl; lia|]|].
  - intros i c q H. simpl. by_cases_on_state H i c.
  - intros st [<-|[<-|[<-|[<-|[]]]]]; repeat constructor.
Qed.

Lemma dfa_zero_total : d_total dfa_zero.
Proof.
  split; [|split; reflexivity].
  intros st [<-|[<-|[<-|[]]]]; split; reflexivity.
Qed.

Lemma fixpoint_partition_invariant_witness :
  d_trans_total dfa_zero /\
  exists P passes,
    refine_loop (S (S (length (d_states dfa_zero)))) dfa_zero
      (initial_partition dfa_zero) 0 = Some (P, passes) /\
    refine dfa_zero P = P /\
    forall i j, i < length (d_states dfa_zero) ->
      j < length (d_states dfa_zero) ->
      (nth i P 0%Z = nth j P 0%Z <->
       d_accept (d_at dfa_zero i) = d_accept (d_at dfa_zero j) /\
       pclass P (d_t0 (d_at dfa_zero i)) = pclass P (d_t0 (d_at dfa_zero j)) /\
       pclass P (d_t1 (d_at dfa_zero i)) = pclass P (d_t1 (d_at dfa_zero j))).
Proof.
  assert (H : d_trans_total dfa_zero).
  { intros st [<-|[<-|[<-|[]]]]; split; reflexivity. }
  split; [exact H|]. exact (fixpoint_partition_invariant H).
Defined.

Lemma convert_total_with_trap_witness :
  nfa_wf nfa_zero /\
  exists dfa sets,
    convert_sets nfa_zero = Some (dfa, sets) /\ convert nfa_zero = Some dfa /\
    length sets = length (d_states dfa) /\
    d_total dfa /\
    (forall i, i < length sets ->
       (nth i sets [] = [] <-> Z.of_nat i = d_trap dfa)) /\
    d_accept (d_at dfa (Z.to_nat (d_trap dfa))) = false /\
    d_t0 (d_at dfa (Z.to_nat (d_trap dfa))) = d_trap dfa /\
    d_t1 (d_at dfa (Z.to_nat (d_trap dfa))) = d_trap dfa /\
    (forall i b, i < length sets ->
       nth (d_succ dfa i b) sets [] =
       move_set nfa_zero (nth i sets []) (bit_char b)) /\
    (forall i b, i < length sets ->
       move_set nfa_zero (nth i sets []) (bit_char b) = [] ->
       d_tr dfa i b = d_trap dfa).
Proof.
  split; [exact nfa_zero_wf|]. exact (convert_total_with_trap nfa_zero_wf).
Defined.

Lemma remove_closure_semantics_witness :
  nfa_ok nfa_zero_star /\
  exists onfa,
    remove nfa_zero_star = Some onfa /\
    length (n_states onfa) = length (n_states nfa_zero_star) /\
    n_start onfa = n_start nfa_zero_star /\
    (forall i, i < length (n_states nfa_zero_star) ->
       (n_accept (n_at onfa i) = true <->
        exists q, eps_reach nfa_zero_star i q /\
                  n_accept (n_at nfa_zero_star q) = true)) /\
    (forall i c r, i < length (n_states nfa_zero_star) -> c <> EPS ->
       (In r (n_targets onfa i c) <->
        exists p q, eps_reach nfa_zero_star i p /\
                    In q (n_targets nfa_zero_star p c) /\
                    eps_reach nfa_zero_star q r)) /\
    (forall p, n_targets onfa p EPS = []).
Proof.
  split; [exact nfa_zero_star_ok|].
  exact (remove_closure_semantics nfa_zero_star_ok).
Defined.

Lemma minimize_idempotent_witness :
  d_total dfa_zero /\
  (d_reduced dfa_zero ->
   exists md, minimize dfa_zero = Some md /\ dfa_iso dfa_zero md) /\
  (exists md md',
     minimize dfa_zero = Some md /\ d_total md /\ d_reduced md /\
     minimize md = Some md' /\ dfa_iso md md').
Proof.
  split; [exact dfa_zero_total|]. exact (minimize_idempotent dfa_zero_total).
Defined.

Lemma refine_loop_bound_witness :
  in_range dfa_zero (d_trap dfa_zero) = true /\
  d_accept (d_at dfa_zero (Z.to_nat (d_trap dfa_zero))) = false /\
  (forall P i j, i < length (d_states dfa_zero) ->
     j < length (d_states dfa_zero) ->
     nth i (refine dfa_zero P) 0%Z = nth j (refine dfa_zero P) 0%Z ->
     nth i P 0%Z = nth j P 0%Z) /\
  (forall P, length P = length (d_states dfa_zero) ->
     num_classes P <= num_classes (refine dfa_zero P)
       <= length (d_states dfa_zero)) /\
  (exists P passes,
     refine_loop (S (S (length (d_states dfa_zero)))) dfa_zero
       (initial_partition dfa_zero) 0 = Some (P, passes) /\
     refine dfa_zero P = P /\
     passes <= length (d_states dfa_zero)).
Proof.
  split; [reflexivity|]. split; [reflexivity|].
  exact (@refine_loop_bound dfa_zero eq_refl eq_refl).
Defined.

Section TrapRemoverExample.
Local Open Scope Z_scope.

Lemma trap_state_kept_witness :
  in_range dfa_zero (d_trap dfa_zero) = true /\
  length (d_states (remove_trap dfa_zero)) = length (d_states dfa_zero) /\
  (exists st,
     nth_error (d_states (remove_trap dfa_zero)) (Z.to_nat (d_trap dfa_zero)) = Some st /\
     d_accept st = false /\ d_t0 st = -1 /\ d_t1 st = -1) /\
  (d_start dfa_zero <> d_trap dfa_zero ->
   ~ d_reach (remove_trap dfa_zero) (d_start (remove_trap dfa_zero)) (d_trap dfa_zero) /\
   exists qname order,
     name_states (remove_trap dfa_zero) = Some qname /\
     get_order qname = Some order /\
     nth (Z.to_nat (d_trap dfa_zero)) qname ""%string = ""%string /\
     ~ In (Z.to_nat (d_trap dfa_zero)) (map snd order) /\
     (forall r, In r (table_of (remove_trap dfa_zero) qname order) ->
        (exists i, i <> Z.to_nat (d_trap dfa_zero) /\ named qname i /\
                   r_name r = nth i qname ""%string) /\
        (r_c0 r = "N"%string \/
         exists j, j <> Z.to_nat (d_trap dfa_zero) /\ named qname j /\
                   r_c0 r = nth j qname ""%string) /\
        (r_c1 r = "N"%string \/
         exists j, j <> Z.to_nat (d_trap dfa_zero) /\ named qname j /\
                   r_c1 r = nth j qname ""%string)) /\
     (forall p, In p (grammar_of (remove_trap dfa_zero) qname order) ->
        (exists i, i <> Z.to_nat (d_trap dfa_zero) /\ named qname i /\
                   p_lhs p = nth i qname ""%string) /\
        (p_rhs p = ""%string \/
         exists j, j <> Z.to_nat (d_trap dfa_zero) /\ named qname j /\
                   p_rhs p = nth j qname ""%string))).
Proof.
  split; [reflexivity|]. exact (@trap_state_kept dfa_zero eq_refl).
Defined.

End TrapRemoverExample.

(** * Further properties of the code *)

(** ** RegexParser *)

(** A [RegexNode*]: [nullptr], or a node whose children are pointers.  The
    parser builds such pointers; on malformed text some are null. *)
Inductive NodePtr : Type :=
| NULLPTR
| NODE_CHAR (ch : ascii)
| NODE_CONCAT (l r : NodePtr)
| NODE_UNION (l r : NodePtr)
| NODE_STAR (l : NodePtr).

(** The pointer to a tree without null pointers. *)
Fixpoint ptr_of (r : RegexNode) : NodePtr :=
  match r with
  | CHAR ch => NODE_CHAR ch
  | CONCAT l r' => NODE_CONCAT (ptr_of l) (ptr_of r')
  | UNION l r' => NODE_UNION (ptr_of l) (ptr_of r')
  | STAR l => NODE_STAR (ptr_of l)
  end.

(** The tree behind a pointer, when no pointer in it is null. *)
Fixpoint tree_of (p : NodePtr) : option RegexNode :=
  match p with
  | NULLPTR => None
  | NODE_CHAR ch => Some (CHAR ch)
  | NODE_CONCAT l r =>
      match tree_of l, tree_of r with
      | Some l', Some r' => Some (CONCAT l' r')
      | _, _ => None
      end
  | NODE_UNION l r =>
      match tree_of l, tree_of r with
      | Some l', Some r' => Some (UNION l' r')
      | _, _ => None
      end
  | NODE_STAR l => option_map STAR (tree_of l)
  end.

Section Parser.
(** The member [str]; the member [pos] is threaded through the calls. *)
Variable str : list ascii.

(** [pos < (int) str.size() && str[pos] == c] *)
Definition at_char (pos : nat) (c : ascii) : bool :=
  match nth_error str pos with
  | Some c' => Ascii.eqb c' c
  | None => false
  end.

(** [pos < (int) str.size() && (str[pos] != ')' && str[pos] != '+')] *)
Definition concat_continues (pos : nat) : bool :=
  match nth_error str pos with
  | Some c' => negb (Ascii.eqb c' ")") && negb (Ascii.eqb c' "+")
  | None => false
  end.

(** The loop of [parseStar]. *)
Fixpoint star_loop (fuel : nat) (node : NodePtr) (pos : nat)
  : option (NodePtr * nat) :=
  match fuel with
  | O => None
  | S f =>
      if at_char pos "*" then star_loop f (NODE_STAR node) (S pos)
      else Some (node, pos)
  end.

(** The four mutually recursive functions and the loops of [parseUnion] and
    [parseConcat], on a common fuel; [None] is a computation that has not
    returned. *)
Fixpoint parseUnion (fuel pos : nat) : option (NodePtr * nat) :=
  match fuel with
  | O => None
  | S f =>
      match parseConcat f pos with
      | None => None
      | Some (node, pos1) => union_loop f node pos1
      end
  end
with union_loop (fuel : nat) (node : NodePtr) (pos : nat)
  : option (NodePtr * nat) :=
  match fuel with
  | O => None
  | S f =>
      if at_char pos "+" then
        match parseConcat f (S pos) with
        | None => None
        | Some (rhs, pos1) => union_loop f (NODE_UNION node rhs) pos1
        end
      else Some (node, pos)
  end
with parseConcat (fuel pos : nat) : option (NodePtr * nat) :=
  match fuel with
  | O => None
  | S f =>
      match parseStar f pos with
      | None => None
      | Some (node, pos1) => concat_loop f node pos1
      end
  end
with concat_loop (fuel : nat) (node : NodePtr) (pos : nat)
  : option (NodePtr * nat) :=
  match fuel with
  | O => None
  | S f =>
      if concat_continues pos then
        match parseStar f pos with
        | None => None
        | Some (rhs, pos1) => concat_loop f (NODE_CONCAT node rhs) pos1
        end
      else Some (node, pos)
  end
with parseStar (fuel pos : nat) : option (NodePtr * nat) :=
  match fuel with
  | O => None
  | S f =>
      match parseBase f pos with
      | None => None
      | Some (node, pos1) => star_loop f node pos1
      end
  end
with parseBase (fuel pos : nat) : option (NodePtr * nat) :=
  match fuel with
  | O => None
  | S f =>
      match nth_error str pos with
      | None => Some (NULLPTR, pos)
      | Some c =>
          if Ascii.eqb c "(" then
            match parseUnion f (S pos) with
            | None => None
            | Some (node, pos1) =>
                Some (node, if at_char pos1 ")" then S pos1 else pos1)
            end
          else if Ascii.eqb c "0" || Ascii.eqb c "1" then
            Some (NODE_CHAR c, S pos)
          else Some (NULLPTR, pos)
      end
  end.

(** [RegexParser::parse], from [pos = 0]. *)
Definition parse (fuel : nat) : option (NodePtr * nat) := parseUnion fuel 0.

End Parser.

(** [main] from the text on.  [None] stands for a parser that does not return
    and for a null pointer handed to [Thompson]. *)
Definition main_dfa (fuel : nat) (re : list ascii) : option DFA :=
  match parse re fuel with
  | Some (root, _) =>
      match tree_of root with
      | Some r => pipeline r
      | None => None
      end
  | None => None
  end.

(** The text of a tree, with parentheses where the precedence of the parser
    (union below concatenation below star, both binary operators grouping to
    the left) needs them.  [lvl] is 0 where a union may stand, 1 where a
    concatenation may, 2 where only a starred or basic expression may. *)
Definition paren (b : bool) (s : list ascii) : list ascii :=
  if b then "("%char :: s ++ [")"%char] else s.

Fixpoint show (lvl : nat) (r : RegexNode) : list ascii :=
  match r with
  | CHAR ch => [ch]
  | STAR l => show 2 l ++ ["*"%char]
  | CONCAT l r' => paren (1 <? lvl) (show 1 l ++ show 2 r')
  | UNION l r' => paren (0 <? lvl) (show 0 l ++ "+"%char :: show 1 r')
  end.

(** *** Calls that return *)

(** [F] returns [a] once the fuel is enough. *)
Definition returns {A : Type} (F : nat -> option A) (a : A) : Prop :=
  exists f0, forall f, f0 <= f -> F f = Some a.

Lemma returns_bind (A B : Type) (F : nat -> option B) (G : nat -> option A)
    (H : nat -> A -> option B) (x : A) (res : B) :
  (forall f, F (S f) = match G f with Some y => H f y | None => None end) ->
  returns G x -> returns (fun f => H f x) res -> returns F res.
Proof.
  intros E [f1 H1] [f2 H2]. exists (S (Nat.max f1 f2)). intros f L.
  destruct f as [|f]; [lia|]. rewrite E, H1 by lia. apply H2. lia.
Qed.

Lemma returns_step (B : Type) (F G : nat -> option B) (res : B) :
  (forall f, F (S f) = G f) -> returns G res -> returns F res.
Proof.
  intros E [f1 H1]. exists (S f1). intros f L.
  destruct f as [|f]; [lia|]. rewrite E. apply H1. lia.
Qed.

Lemma returns_now (B : Type) (F : nat -> option B) (res : B) :
  (forall f, F (S f) = Some res) -> returns F res.
Proof.
  intros E. exists 1. intros f L. destruct f as [|f]; [lia|]. apply E.
Qed.

Lemma returns_unique (B : Type) (F : nat -> option B) (a b : B) :
  returns F a -> returns F b -> a = b.
Proof.
  intros [f1 H1] [f2 H2].
  pose proof (H1 (Nat.max f1 f2) (Nat.le_max_l _ _)) as E1.
  pose proof (H2 (Nat.max f1 f2) (Nat.le_max_r _ _)) as E2.
  congruence.
Qed.

(** A result, once returned, is returned with more fuel too. *)
Definition fuel_mono {A : Type} (F : nat -> option A) : Prop :=
  forall f y, F f = Some y -> F (S f) = Some y.

Lemma fuel_mono_le (A : Type) (F : nat -> option A) f f' y :
  fuel_mono F -> F f = Some y -> f <= f' -> F f' = Some y.
Proof. intros M H L. induction L; auto. Qed.

Lemma returns_agree (A : Type) (F : nat -> option A) f x y :
  fuel_mono F -> returns F x -> F f = Some y -> y = x.
Proof.
  intros M [f0 H0] H.
  pose proof (@fuel_mono_le A F f (Nat.max f f0) y M H (Nat.le_max_l _ _)) as E1.
  pose proof (H0 (Nat.max f f0) (Nat.le_max_r _ _)) as E2. congruence.
Qed.

(** What a call does: it returns [a] ([Some a]), or it never returns
    ([None]). *)
Definition behaves {A : Type} (F : nat -> option A) (o : option A) : Prop :=
  match o with
  | Some a => returns F a
  | None => forall f, F f = None
  end.

Lemma behaves_bind (A B : Type) (F : nat -> option B) (G : nat -> option A)
    (H : nat -> A -> option B) (x : A) (o : option B) :
  (forall f, F (S f) = match G f with Some y => H f y | None => None end) ->
  F 0 = None -> fuel_mono G ->
  returns G x -> behaves (fun f => H f x) o -> behaves F o.
Proof.
  intros E E0 M R1 R2. destruct o as [res|]; simpl in *.
  - now apply (@returns_bind A B F G H x res E R1).
  - intros [|f]; auto. rewrite E. destruct (G f) as [y|] eqn:Ey; auto.
    rewrite (@returns_agree A G f x y M R1 Ey). apply R2.
Qed.

Lemma behaves_step (B : Type) (F G : nat -> option B) (o : option B) :
  (forall f, F (S f) = G f) -> F 0 = None -> behaves G o -> behaves F o.
Proof.
  intros E E0 R. destruct o as [res|]; simpl in *.
  - now apply (@returns_step B F G res E).
  - intros [|f]; auto. now rewrite E.
Qed.

Lemma nth_error_skipn_hd (A : Type) (l : list A) n :
  nth_error l n = hd_error (skipn n l).
Proof.
  revert l; induction n as [|n IH]; intros [|x l]; simpl; auto.
Qed.

Lemma skipn_past (A : Type) (l a rest : list A) pos :
  skipn pos l = a ++ rest -> skipn (pos + length a) l = rest.
Proof.
  intros H. rewrite Nat.add_comm, <- skipn_skipn, H, skipn_app, skipn_all.
  now rewrite Nat.sub_diag.
Qed.

Lemma skipn_next (A : Type) (l : list A) pos c tl :
  skipn pos l = c :: tl -> skipn (S pos) l = tl.
Proof.
  intros H. apply (@skipn_past A l [c] tl pos) in H.
  now rewrite Nat.add_1_r in H.
Qed.

Section ParserSteps.
Variable str : list ascii.

Lemma at_char_hd pos c :
  at_char str pos c =
  match hd_error (skipn pos str) with
  | Some c' => Ascii.eqb c' c
  | None => false
  end.
Proof. unfold at_char. now rewrite nth_error_skipn_hd. Qed.

Lemma concat_continues_hd pos :
  concat_continues str pos =
  match hd_error (skipn pos str) with
  | Some c' => negb (Ascii.eqb c' ")") && negb (Ascii.eqb c' "+")
  | None => false
  end.
Proof. unfold concat_continues. now rewrite nth_error_skipn_hd. Qed.

(** The bodies, one unfolding each. *)
Lemma parseUnion_eq f pos :
  parseUnion str (S f) pos =
  match parseConcat str f pos with
  | Some y => union_loop str f (fst y) (snd y)
  | None => None
  end.
Proof. simpl. destruct (parseConcat str f pos) as [[? ?]|]; reflexivity. Qed.

Lemma union_loop_eq f node pos :
  union_loop str (S f) node pos =
  if at_char str pos "+" then
    match parseConcat str f (S pos) with
    | Some y => union_loop str f (NODE_UNION node (fst y)) (snd y)
    | None => None
    end
  else Some (node, pos).
Proof.
  simpl. destruct (at_char str pos "+"); auto.
  destruct (parseConcat str f (S pos)) as [[? ?]|]; reflexivity.
Qed.

Lemma parseConcat_eq f pos :
  parseConcat str (S f) pos =
  match parseStar str f pos with
  | Some y => concat_loop str f (fst y) (snd y)
  | None => None
  end.
Proof. simpl. destruct (parseStar str f pos) as [[? ?]|]; reflexivity. Qed.

Lemma concat_loop_eq f node pos :
  concat_loop str (S f) node pos =
  if concat_continues str pos then
    match parseStar str f pos with
    | Some y => concat_loop str f (NODE_CONCAT node (fst y)) (snd y)
    | None => None
    end
  else Some (node, pos).
Proof.
  simpl. destruct (concat_continues str pos); auto.
  destruct (parseStar str f pos) as [[? ?]|]; reflexivity.
Qed.

Lemma parseStar_eq f pos :
  parseStar str (S f) pos =
  match parseBase str f pos with
  | Some y => star_loop str f (fst y) (snd y)
  | None => None
  end.
Proof. simpl. destruct (parseBase str f pos) as [[? ?]|]; reflexivity. Qed.

Lemma parseBase_eq f pos :
  parseBase str (S f) pos =
  match nth_error str pos with
  | None => Some (NULLPTR, pos)
  | Some c =>
      if Ascii.eqb c "(" then
        match parseUnion str f (S pos) with
        | Some y => Some (fst y, if at_char str (snd y) ")"
                                 then S (snd y) else snd y)
        | None => None
        end
      else if Ascii.eqb c "0" || Ascii.eqb c "1" then Some (NODE_CHAR c, S pos)
      else Some (NULLPTR, pos)
  end.
Proof.
  simpl. destruct (nth_error str pos) as [c|]; auto.
  destruct (Ascii.eqb c "("); auto.
  destruct (parseUnion str f (S pos)) as [[? ?]|]; reflexivity.
Qed.

(** More fuel does not change a result. *)
Lemma star_loop_mono node pos : fuel_mono (fun f => star_loop str f node pos).
Proof.
  intros f. revert node pos. induction f as [|f IH]; intros node pos y H.
  - discriminate.
  - cbn [star_loop] in *. destruct (at_char str pos "*"); auto.
Qed.

Definition mono_at (f : nat) : Prop :=
  (forall pos y, parseUnion str f pos = Some y ->
                 parseUnion str (S f) pos = Some y) /\
  (forall node pos y, union_loop str f node pos = Some y ->
                      union_loop str (S f) node pos = Some y) /\
  (forall pos y, parseConcat str f pos = Some y ->
                 parseConcat str (S f) pos = Some y) /\
  (forall node pos y, concat_loop str f node pos = Some y ->
                      concat_loop str (S f) node pos = Some y) /\
  (forall pos y, parseStar str f pos = Some y ->
                 parseStar str (S f) pos = Some y) /\
  (forall pos y, parseBase str f pos = Some y ->
                 parseBase str (S f) pos = Some y).

Lemma parser_mono_at f : mono_at f.
Proof.
  induction f as [|f (MU & MUl & MC & MCl & MS & MB)].
  - repeat split; intros; discriminate.
  - repeat split.
    + intros pos y. rewrite !parseUnion_eq.
      destruct (parseConcat str f pos) as [x|] eqn:E; [|discriminate].
      rewrite (MC _ _ E). apply MUl.
    + intros node pos y. rewrite !union_loop_eq.
      destruct (at_char str pos "+"); auto.
      destruct (parseConcat str f (S pos)) as [x|] eqn:E; [|discriminate].
      rewrite (MC _ _ E). apply MUl.
    + intros pos y. rewrite !parseConcat_eq.
      destruct (parseStar str f pos) as [x|] eqn:E; [|discriminate].
      rewrite (MS _ _ E). apply MCl.
    + intros node pos y. rewrite !concat_loop_eq.
      destruct (concat_continues str pos); auto.
      destruct (parseStar str f pos) as [x|] eqn:E; [|discriminate].
      rewrite (MS _ _ E). apply MCl.
    + intros pos y. rewrite !parseStar_eq.
      destruct (parseBase str f pos) as [x|] eqn:E; [|discriminate].
      rewrite (MB _ _ E). apply star_loop_mono.
    + intros pos y. rewrite !parseBase_eq.
      destruct (nth_error str pos) as [c|]; auto.
      destruct (Ascii.eqb c "("); auto.
      destruct (parseUnion str f (S pos)) as [x|] eqn:E; [|discriminate].
      now rewrite (MU _ _ E).
Qed.

Lemma parseUnion_mono pos : fuel_mono (fun f => parseUnion str f pos).
Proof. intros f y. apply (parser_mono_at f). Qed.

Lemma parseConcat_mono pos : fuel_mono (fun f => parseConcat str f pos).
Proof. intros f y. apply (parser_mono_at f). Qed.

Lemma parseStar_mono pos : fuel_mono (fun f => parseStar str f pos).
Proof. intros f y. apply (parser_mono_at f). Qed.

Lemma parseBase_mono pos : fuel_mono (fun f => parseBase str f pos).
Proof. intros f y. apply (parser_mono_at f). Qed.

(** The loops: one more round, or the end. *)
Lemma star_loop_stop node pos :
  at_char str pos "*" = false ->
  returns (fun f => star_loop str f node pos) (node, pos).
Proof. intros H. apply returns_now. intros f. simpl. now rewrite H. Qed.

Lemma star_loop_more node pos o :
  at_char str pos "*" = true ->
  behaves (fun f => star_loop str f (NODE_STAR node) (S pos)) o ->
  behaves (fun f => star_loop str f node pos) o.
Proof.
  intros H. apply behaves_step; auto. intros f. simpl. now rewrite H.
Qed.

Lemma union_loop_stop node pos :
  at_char str pos "+" = false ->
  returns (fun f => union_loop str f node pos) (node, pos).
Proof. intros H. apply returns_now. intros f. simpl. now rewrite H. Qed.

Lemma union_loop_more node pos rhs pos1 o :
  at_char str pos "+" = true ->
  returns (fun f => parseConcat str f (S pos)) (rhs, pos1) ->
  behaves (fun f => union_loop str f (NODE_UNION node rhs) pos1) o ->
  behaves (fun f => union_loop str f node pos) o.
Proof.
  intros H R1 R2.
  apply (@behaves_bind _ _ _ (fun f => parseConcat str f (S pos))
           (fun f y => union_loop str f (NODE_UNION node (fst y)) (snd y))
           (rhs, pos1) o); auto.
  - intros f. now rewrite union_loop_eq, H.
  - apply parseConcat_mono.
Qed.

Lemma concat_loop_stop node pos :
  concat_continues str pos = false ->
  returns (fun f => concat_loop str f node pos) (node, pos).
Proof. intros H. apply returns_now. intros f. simpl. now rewrite H. Qed.

Lemma concat_loop_more node pos rhs pos1 o :
  concat_continues str pos = true ->
  returns (fun f => parseStar str f pos) (rhs, pos1) ->
  behaves (fun f => concat_loop str f (NODE_CONCAT node rhs) pos1) o ->
  behaves (fun f => concat_loop str f node pos) o.
Proof.
  intros H R1 R2.
  apply (@behaves_bind _ _ _ (fun f => parseStar str f pos)
           (fun f y => concat_loop str f (NODE_CONCAT node (fst y)) (snd y))
           (rhs, pos1) o); auto.
  - intros f. now rewrite concat_loop_eq, H.
  - apply parseStar_mono.
Qed.

(** The functions: the first call, then the loop. *)
Lemma parseUnion_behaves pos node pos1 o :
  returns (fun f => parseConcat str f pos) (node, pos1) ->
  behaves (fun f => union_loop str f node pos1) o ->
  behaves (fun f => parseUnion str f pos) o.
Proof.
  intros R1 R2.
  apply (@behaves_bind _ _ _ (fun f => parseConcat str f pos)
           (fun f y => union_loop str f (fst y) (snd y)) (node, pos1) o); auto.
  - intros f. apply parseUnion_eq.
  - apply parseConcat_mono.
Qed.

Lemma parseConcat_behaves pos node pos1 o :
  returns (fun f => parseStar str f pos) (node, pos1) ->
  behaves (fun f => concat_loop str f node pos1) o ->
  behaves (fun f => parseConcat str f pos) o.
Proof.
  intros R1 R2.
  apply (@behaves_bind _ _ _ (fun f => parseStar str f pos)
           (fun f y => concat_loop str f (fst y) (snd y)) (node, pos1) o); auto.
  - intros f. apply parseConcat_eq.
  - apply parseStar_mono.
Qed.

Lemma parseStar_behaves pos node pos1 o :
  returns (fun f => parseBase str f pos) (node, pos1) ->
  behaves (fun f => star_loop str f node pos1) o ->
  behaves (fun f => parseStar str f pos) o.
Proof.
  intros R1 R2.
  apply (@behaves_bind _ _ _ (fun f => parseBase str f pos)
           (fun f y => star_loop str f (fst y) (snd y)) (node, pos1) o); auto.
  - intros f. apply parseStar_eq.
  - apply parseBase_mono.
Qed.

Lemma parseBase_char pos c :
  nth_error str pos = Some c -> c = "0"%char \/ c = "1"%char ->
  returns (fun f => parseBase str f pos) (NODE_CHAR c, S pos).
Proof.
  intros H Hc. apply returns_now. intros f. rewrite parseBase_eq, H.
  destruct Hc as [-> | ->]; reflexivity.
Qed.

Lemma parseBase_paren pos node pos1 :
  nth_error str pos = Some "("%char ->
  returns (fun f => parseUnion str f (S pos)) (node, pos1) ->
  returns (fun f => parseBase str f pos)
          (node, if at_char str pos1 ")" then S pos1 else pos1).
Proof.
  intros H R1.
  apply (@returns_bind _ _ _ (fun f => parseUnion str f (S pos))
           (fun f y => Some (fst y, if at_char str (snd y) ")"
                                    then S (snd y) else snd y))
           (node, pos1)); auto.
  - intros f. now rewrite parseBase_eq, H.
  - exists 0. reflexivity.
Qed.

End ParserSteps.

(** *** Parsing the text of a tree *)

(** What may follow an expression where a union ends: the end of the text, a
    closing parenthesis or a [+]. *)
Definition closes (rest : list ascii) : Prop :=
  match rest with
  | [] => True
  | c :: _ => c = ")"%char \/ c = "+"%char
  end.

Definition no_star (rest : list ascii) : Prop :=
  hd_error rest <> Some "*"%char.

Lemma closes_no_star rest : closes rest -> no_star rest.
Proof.
  destruct rest as [|c rest]; simpl; [discriminate|].
  intros [-> | ->]; discriminate.
Qed.

Lemma show_head r :
  wf_regex r ->
  exists c tl, show 2 r = c :: tl /\
    (c = "("%char \/ c = "0"%char \/ c = "1"%char).
Proof.
  induction r as [ch|l IHl r IHr|l IHl r IHr|l IHl]; simpl.
  - intros H. exists ch, []. intuition.
  - intros _. eexists _, _. split; [reflexivity|auto].
  - intros _. eexists _, _. split; [reflexivity|auto].
  - intros H. destruct (IHl H) as (c & tl & -> & Hc).
    exists c, (tl ++ ["*"%char]). auto.
Qed.

Lemma tree_of_ptr_of r : tree_of (ptr_of r) = Some r.
Proof.
  induction r as [ch|l IHl r IHr|l IHl r IHr|l IHl]; simpl;
    rewrite ?IHl, ?IHr; reflexivity.
Qed.

Section ParseShow.
Variable str : list ascii.

Definition star_ok (r : RegexNode) : Prop :=
  forall pos rest o,
    skipn pos str = show 2 r ++ rest ->
    behaves (fun f => star_loop str f (ptr_of r) (pos + length (show 2 r))) o ->
    behaves (fun f => parseStar str f pos) o.

Definition concat_ok (r : RegexNode) : Prop :=
  forall pos rest o,
    skipn pos str = show 1 r ++ rest -> no_star rest ->
    behaves (fun f => concat_loop str f (ptr_of r) (pos + length (show 1 r))) o ->
    behaves (fun f => parseConcat str f pos) o.

Definition union_ok (r : RegexNode) : Prop :=
  forall pos rest o,
    skipn pos str = show 0 r ++ rest -> closes rest ->
    behaves (fun f => union_loop str f (ptr_of r) (pos + length (show 0 r))) o ->
    behaves (fun f => parseUnion str f pos) o.

Lemma at_star_false pos rest :
  skipn pos str = rest -> no_star rest -> at_char str pos "*" = false.
Proof.
  intros H N. rewrite at_char_hd, H. unfold no_star in N.
  destruct rest as [|c rest]; simpl in *; auto.
  destruct (Ascii.eqb_spec c "*"); congruence.
Qed.

Lemma concat_stops pos rest :
  skipn pos str = rest -> closes rest -> concat_continues str pos = false.
Proof.
  intros H N. rewrite concat_continues_hd, H.
  destruct rest as [|c rest]; simpl in *; auto.
  destruct N as [-> | ->]; reflexivity.
Qed.

Lemma star_ok_char ch : ch = "0"%char \/ ch = "1"%char -> star_ok (CHAR ch).
Proof.
  intros Hc pos rest o H R. simpl in *.
  apply (@parseStar_behaves str pos (NODE_CHAR ch) (S pos)).
  - apply parseBase_char; auto. now rewrite nth_error_skipn_hd, H.
  - now rewrite Nat.add_1_r in R.
Qed.

Lemma star_ok_star l : star_ok l -> star_ok (STAR l).
Proof.
  intros IH pos rest o H R. simpl in H, R.
  rewrite <- app_assoc in H. apply (IH pos _ o H).
  apply star_loop_more.
  - rewrite at_char_hd, (skipn_past _ _ _ _ H). reflexivity.
  - rewrite length_app in R. simpl in R.
    now replace (S (pos + length (show 2 l)))
      with (pos + (length (show 2 l) + 1)) by lia.
Qed.

Lemma star_ok_paren r :
  show 2 r = "("%char :: show 0 r ++ [")"%char] ->
  union_ok r -> star_ok r.
Proof.
  intros E U pos rest o H R. rewrite E in H, R. simpl in H.
  rewrite <- app_assoc in H. simpl in H.
  pose proof (skipn_next _ _ H) as H1.
  pose proof (skipn_past _ _ _ _ H1) as H2.
  apply (@parseStar_behaves str pos (ptr_of r)
           (S (S pos + length (show 0 r)))).
  - replace (S (S pos + length (show 0 r)))
      with (if at_char str (S pos + length (show 0 r)) ")"
            then S (S pos + length (show 0 r))
            else S pos + length (show 0 r))
      by (rewrite at_char_hd, H2; reflexivity).
    apply parseBase_paren; [now rewrite nth_error_skipn_hd, H|].
    apply (U (S pos) _ (Some _) H1); [simpl; auto|].
    apply union_loop_stop. rewrite at_char_hd, H2. reflexivity.
  - simpl in R. rewrite length_app in R. simpl in R.
    now replace (S (S pos + length (show 0 r)))
      with (pos + S (length (show 0 r) + 1)) by lia.
Qed.

Lemma concat_ok_star r : show 1 r = show 2 r -> star_ok r -> concat_ok r.
Proof.
  intros E St pos rest o H N R. rewrite E in H, R.
  apply (@parseConcat_behaves str pos (ptr_of r) (pos + length (show 2 r)));
    auto.
  apply (St pos _ (Some _) H). apply star_loop_stop.
  apply (@at_star_false _ _ (skipn_past _ _ _ _ H) N).
Qed.

Lemma concat_ok_concat l r :
  wf_regex r -> concat_ok l -> star_ok r -> concat_ok (CONCAT l r).
Proof.
  intros Hr Cl Sr pos rest o H N R. simpl in H, R.
  rewrite <- app_assoc in H.
  destruct (show_head r Hr) as (c & tl & Ec & Hc).
  apply (Cl pos _ o H).
  { unfold no_star. rewrite Ec. simpl.
    destruct Hc as [-> |[-> | ->]]; discriminate. }
  pose proof (skipn_past _ _ _ _ H) as H1.
  apply (@concat_loop_more str _ _ (ptr_of r)
           (pos + length (show 1 l) + length (show 2 r))).
  - rewrite concat_continues_hd, H1, Ec. simpl.
    destruct Hc as [-> |[-> | ->]]; reflexivity.
  - apply (Sr _ _ (Some _) H1). apply star_loop_stop.
    apply (@at_star_false _ _ (skipn_past _ _ _ _ H1) N).
  - rewrite length_app, Nat.add_assoc in R. exact R.
Qed.

Lemma union_ok_concat r : show 0 r = show 1 r -> concat_ok r -> union_ok r.
Proof.
  intros E Cr pos rest o H N R. rewrite E in H, R.
  apply (@parseUnion_behaves str pos (ptr_of r) (pos + length (show 1 r)));
    auto.
  apply (Cr pos _ (Some _) H (closes_no_star _ N)). apply concat_loop_stop.
  apply (@concat_stops _ _ (skipn_past _ _ _ _ H) N).
Qed.

Lemma union_ok_union l r : union_ok l -> concat_ok r -> union_ok (UNION l r).
Proof.
  intros Ul Cr pos rest o H N R. simpl in H, R.
  rewrite <- app_assoc in H. simpl in H.
  apply (Ul pos _ o H); [simpl; auto|].
  pose proof (skipn_past _ _ _ _ H) as H1.
  pose proof (skipn_next _ _ H1) as H2.
  apply (@union_loop_more str _ _ (ptr_of r)
           (S (pos + length (show 0 l)) + length (show 1 r))).
  - rewrite at_char_hd, H1. reflexivity.
  - apply (Cr _ _ (Some _) H2 (closes_no_star _ N)). apply concat_loop_stop.
    apply (@concat_stops _ _ (skipn_past _ _ _ _ H2) N).
  - rewrite length_app in R. simpl in R.
    now replace (S (pos + length (show 0 l)) + length (show 1 r))
      with (pos + (length (show 0 l) + S (length (show 1 r)))) by lia.
Qed.

Lemma parse_show_levels r :
  wf_regex r -> star_ok r /\ concat_ok r /\ union_ok r.
Proof.
  induction r as [ch|l IHl r IHr|l IHl r IHr|l IHl]; simpl; intros H.
  - assert (S0 : star_ok (CHAR ch)) by now apply star_ok_char.
    assert (C0 : concat_ok (CHAR ch)) by now apply concat_ok_star.
    repeat split; auto. now apply union_ok_concat.
  - destruct H as [Hl Hr].
    destruct (IHl Hl) as (_ & Cl & _), (IHr Hr) as (Sr & _ & _).
    assert (C0 : concat_ok (CONCAT l r)) by now apply concat_ok_concat.
    assert (U0 : union_ok (CONCAT l r)) by now apply union_ok_concat.
    repeat split; auto. now apply star_ok_paren.
  - destruct H as [Hl Hr].
    destruct (IHl Hl) as (_ & _ & Ul), (IHr Hr) as (_ & Cr & _).
    assert (U0 : union_ok (UNION l r)) by now apply union_ok_union.
    assert (S0 : star_ok (UNION l r)) by now apply star_ok_paren.
    repeat split; auto. now apply concat_ok_star.
  - destruct (IHl H) as (Sl & _ & _).
    assert (S0 : star_ok (STAR l)) by now apply star_ok_star.
    assert (C0 : concat_ok (STAR l)) by now apply concat_ok_star.
    repeat split; auto. now apply union_ok_concat.
Qed.

End ParseShow.

(** *** What the parser does with a text *)

(** A character the grammar does not know. *)
Definition stray (c : ascii) : bool :=
  negb (Ascii.eqb c "(" || Ascii.eqb c ")" || Ascii.eqb c "+" ||
        Ascii.eqb c "*" || Ascii.eqb c "0" || Ascii.eqb c "1").

Lemma at_char_end str pos c :
  skipn pos str = [] -> at_char str pos c = false.
Proof. intros H. now rewrite at_char_hd, H. Qed.

Lemma union_at_end str r pos :
  wf_regex r -> skipn pos str = show 0 r ->
  returns (fun f => parseUnion str f pos) (ptr_of r, pos + length (show 0 r)).
Proof.
  intros Hwf H. destruct (parse_show_levels str r Hwf) as (_ & _ & U).
  rewrite <- (app_nil_r (show 0 r)) in H.
  apply (U pos [] (Some (ptr_of r, pos + length (show 0 r))) H I).
  apply union_loop_stop. apply at_char_end.
  apply (skipn_past _ _ _ _ H).
Qed.

(** X1.  Round trip: the text of a well-formed tree, written with the
    parentheses the precedences need, is parsed back to that tree, and the
    whole text is read. *)
Theorem parse_show (r : RegexNode) :
  wf_regex r ->
  tree_of (ptr_of r) = Some r /\
  exists f0, forall fuel, f0 <= fuel ->
    parse (show 0 r) fuel = Some (ptr_of r, length (show 0 r)).
Proof.
  intros Hwf. split; [apply tree_of_ptr_of|].
  apply (@union_at_end (show 0 r) r 0 Hwf eq_refl).
Qed.

Lemma parse_show_witness :
  wf_regex (UNION (CHAR "0") (CONCAT (CHAR "1") (STAR (CHAR "0")))) /\
  tree_of (ptr_of (UNION (CHAR "0") (CONCAT (CHAR "1") (STAR (CHAR "0")))))
  = Some (UNION (CHAR "0") (CONCAT (CHAR "1") (STAR (CHAR "0")))) /\
  exists f0, forall fuel, f0 <= fuel ->
    parse (show 0 (UNION (CHAR "0") (CONCAT (CHAR "1") (STAR (CHAR "0")))))
          fuel
    = Some (ptr_of (UNION (CHAR "0") (CONCAT (CHAR "1") (STAR (CHAR "0")))),
            length (show 0 (UNION (CHAR "0")
                                  (CONCAT (CHAR "1") (STAR (CHAR "0")))))).
Proof.
  split; [simpl; auto|].
  apply (parse_show (UNION (CHAR "0") (CONCAT (CHAR "1") (STAR (CHAR "0"))))).
  simpl; auto.
Defined.

(** X2.  A closing parenthesis that closes nothing ends the parse: the
    expression before it is returned, the cursor stays on the parenthesis
    and the rest of the text is never read. *)
Theorem parse_stops_at_close (r : RegexNode) (junk : list ascii) :
  wf_regex r ->
  exists f0, forall fuel, f0 <= fuel ->
    parse (show 0 r ++ ")"%char :: junk) fuel
    = Some (ptr_of r, length (show 0 r)).
Proof.
  intros Hwf.
  destruct (parse_show_levels (show 0 r ++ ")"%char :: junk) r Hwf)
    as (_ & _ & U).
  apply (U 0 (")"%char :: junk) (Some (ptr_of r, length (show 0 r))) eq_refl).
  - simpl. auto.
  - apply union_loop_stop.
    assert (H2 : skipn (length (show 0 r)) (show 0 r ++ ")"%char :: junk)
                 = ")"%char :: junk)
      by apply (skipn_past _ (show 0 r) (")"%char :: junk) 0 eq_refl).
    now rewrite at_char_hd, H2.
Qed.

Lemma parse_stops_at_close_witness :
  wf_regex (CONCAT (CHAR "0") (CHAR "1")) /\
  exists f0, forall fuel, f0 <= fuel ->
    parse (show 0 (CONCAT (CHAR "0") (CHAR "1")) ++ ")"%char :: ["1"%char])
          fuel
    = Some (ptr_of (CONCAT (CHAR "0") (CHAR "1")),
            length (show 0 (CONCAT (CHAR "0") (CHAR "1")))).
Proof.
  split; [simpl; auto|].
  apply (parse_stops_at_close (CONCAT (CHAR "0") (CHAR "1")) ["1"%char]).
  simpl; auto.
Defined.

(** X3.  An opening parenthesis that is never closed is accepted: at the end
    of the text [parseBase] returns the expression read so far. *)
Theorem parse_unclosed (r : RegexNode) :
  wf_regex r ->
  exists f0, forall fuel, f0 <= fuel ->
    parse ("("%char :: show 0 r) fuel
    = Some (ptr_of r, S (length (show 0 r))).
Proof.
  intros Hwf. set (str := "("%char :: show 0 r).
  assert (H1 : skipn 1 str = show 0 r) by reflexivity.
  assert (H2 : skipn (1 + length (show 0 r)) str = []).
  { apply (skipn_past str (show 0 r) [] 1). now rewrite app_nil_r. }
  pose proof (@union_at_end str r 1 Hwf H1) as RU.
  apply (@parseBase_paren str 0) in RU; [|reflexivity].
  rewrite (@at_char_end str _ ")"%char H2) in RU.
  apply (@parseUnion_behaves str 0 (ptr_of r) (1 + length (show 0 r))
           (Some (ptr_of r, 1 + length (show 0 r)))).
  - apply (@parseConcat_behaves str 0 (ptr_of r) (1 + length (show 0 r))
             (Some (ptr_of r, 1 + length (show 0 r)))).
    + apply (@parseStar_behaves str 0 (ptr_of r) (1 + length (show 0 r))
               (Some (ptr_of r, 1 + length (show 0 r))) RU).
      apply star_loop_stop. now apply at_char_end.
    + apply concat_loop_stop. now rewrite concat_continues_hd, H2.
  - apply union_loop_stop. now apply at_char_end.
Qed.

Lemma parse_unclosed_witness :
  wf_regex (UNION (CHAR "0") (CHAR "1")) /\
  exists f0, forall fuel, f0 <= fuel ->
    parse ("("%char :: show 0 (UNION (CHAR "0") (CHAR "1"))) fuel
    = Some (ptr_of (UNION (CHAR "0") (CHAR "1")),
            S (length (show 0 (UNION (CHAR "0") (CHAR "1"))))).
Proof.
  split; [simpl; auto|].
  apply (parse_unclosed (UNION (CHAR "0") (CHAR "1"))). simpl; auto.
Defined.

Section Stray.
Variables (str : list ascii) (pos : nat) (c : ascii).
Hypothesis Hc : nth_error str pos = Some c.
Hypothesis Hs : stray c = true.

Lemma stray_cases :
  Ascii.eqb c "(" = false /\ Ascii.eqb c ")" = false /\
  Ascii.eqb c "+" = false /\ Ascii.eqb c "*" = false /\
  Ascii.eqb c "0" = false /\ Ascii.eqb c "1" = false.
Proof.
  unfold stray in Hs. apply negb_true_iff in Hs.
  repeat (apply orb_false_iff in Hs; destruct Hs as [Hs ?]).
  repeat split; assumption.
Qed.

(** The parser returns a null pointer without moving. *)
Lemma parseStar_stray f :
  parseStar str f pos = None \/ parseStar str f pos = Some (NULLPTR, pos).
Proof.
  destruct stray_cases as (E1 & E2 & E3 & E4 & E5 & E6).
  destruct f as [|f]; [now left|]. rewrite parseStar_eq.
  destruct f as [|f]; [now left|].
  rewrite parseBase_eq, Hc, E1, E5, E6. cbn [orb fst snd].
  right. cbn [star_loop].
  unfold at_char. now rewrite Hc, E4.
Qed.

(** The loop of [parseConcat] calls [parseStar] again and again. *)
Lemma concat_loop_stray f : forall node, concat_loop str f node pos = None.
Proof.
  destruct stray_cases as (E1 & E2 & E3 & E4 & E5 & E6).
  induction f as [|f IH]; intros node; auto.
  rewrite concat_loop_eq. unfold concat_continues. rewrite Hc, E2, E3.
  cbn [negb andb].
  destruct (parseStar_stray f) as [-> | ->]; auto.
Qed.

Lemma parseConcat_stray f : parseConcat str f pos = None.
Proof.
  destruct f as [|f]; auto. rewrite parseConcat_eq.
  destruct (parseStar_stray f) as [-> | ->]; auto. apply concat_loop_stray.
Qed.

End Stray.

(** X4.  A character other than [0 1 ( ) + *] after a well-formed
    expression makes the parser loop for ever: [parseStar] returns a null
    pointer there without moving the cursor, and the loop of [parseConcat]
    goes on.  No fuel is enough. *)
Theorem parse_stray_diverges (r : RegexNode) (c : ascii) (rest : list ascii) :
  wf_regex r -> stray c = true ->
  forall fuel, parse (show 0 r ++ c :: rest) fuel = None.
Proof.
  intros Hwf Hs. set (str := show 0 r ++ c :: rest).
  assert (Hnostar : no_star (c :: rest)).
  { unfold no_star. simpl. intros [= ->]. discriminate. }
  assert (Hcat : forall r' pos, wf_regex r' ->
            skipn pos str = show 1 r' ++ c :: rest ->
            forall f, parseConcat str f pos = None).
  { intros r' pos Hwf' H.
    destruct (parse_show_levels str r' Hwf') as (_ & C & _).
    apply (C pos (c :: rest) None H Hnostar).
    intros f. apply concat_loop_stray with (c := c); auto.
    now rewrite nth_error_skipn_hd, (skipn_past _ _ _ _ H). }
  unfold parse.
  destruct r as [ch|l r'|l r'|l].
  - intros [|f]; auto. rewrite parseUnion_eq.
    now rewrite (Hcat (CHAR ch) 0 Hwf eq_refl).
  - intros [|f]; auto. rewrite parseUnion_eq.
    now rewrite (Hcat (CONCAT l r') 0 Hwf eq_refl).
  - destruct Hwf as [Hl Hr].
    destruct (parse_show_levels str l Hl) as (_ & _ & U).
    assert (H : skipn 0 str = show 0 l ++ "+"%char :: show 1 r' ++ c :: rest).
    { unfold str. simpl. now rewrite <- app_assoc. }
    apply (U 0 _ None H); [simpl; auto|].
    pose proof (skipn_past _ _ _ _ H) as H1.
    pose proof (skipn_next _ _ H1) as H2.
    intros [|f]; auto. rewrite union_loop_eq, at_char_hd, H1. simpl.
    now rewrite (Hcat r' _ Hr H2).
  - intros [|f]; auto. rewrite parseUnion_eq.
    now rewrite (Hcat (STAR l) 0 Hwf eq_refl).
Qed.

Lemma parse_stray_diverges_witness :
  wf_regex (CHAR "0") /\ stray "a" = true /\
  forall fuel, parse (show 0 (CHAR "0") ++ "a"%char :: []) fuel = None.
Proof.
  split; [simpl; auto|]. split; [reflexivity|].
  apply (parse_stray_diverges (CHAR "0") "a" []); [simpl; auto|reflexivity].
Defined.

Section ParserCursor.
Variable str : list ascii.

Lemma at_char_lt pos c : at_char str pos c = true -> pos < length str.
Proof.
  unfold at_char. destruct (nth_error str pos) eqn:E; [|discriminate].
  intros _. apply nth_error_Some. congruence.
Qed.

Lemma star_loop_cursor f : forall node pos y,
  pos <= length str -> star_loop str f node pos = Some y ->
  pos <= snd y <= length str.
Proof.
  induction f as [|f IH]; intros node pos y L H; [discriminate|].
  cbn [star_loop] in H. destruct (at_char str pos "*") eqn:E.
  - apply at_char_lt in E. apply IH in H; lia.
  - injection H as <-. simpl. lia.
Qed.

Definition cursor_at (f : nat) : Prop :=
  (forall pos y, pos <= length str -> parseUnion str f pos = Some y ->
                 pos <= snd y <= length str) /\
  (forall node pos y, pos <= length str ->
                 union_loop str f node pos = Some y ->
                 pos <= snd y <= length str) /\
  (forall pos y, pos <= length str -> parseConcat str f pos = Some y ->
                 pos <= snd y <= length str) /\
  (forall node pos y, pos <= length str ->
                 concat_loop str f node pos = Some y ->
                 pos <= snd y <= length str) /\
  (forall pos y, pos <= length str -> parseStar str f pos = Some y ->
                 pos <= snd y <= length str) /\
  (forall pos y, pos <= length str -> parseBase str f pos = Some y ->
                 pos <= snd y <= length str).

Lemma parser_cursor_at f : cursor_at f.
Proof.
  induction f as [|f (CU & CUl & CC & CCl & CS & CB)].
  - unfold cursor_at. repeat split; intros; discriminate.
  - split; [|split; [|split; [|split; [|split]]]].
    + intros pos y L. rewrite parseUnion_eq.
      destruct (parseConcat str f pos) as [x|] eqn:E; [|discriminate].
      intros H. apply CC in E; auto. apply CUl in H; lia.
    + intros node pos y L. rewrite union_loop_eq.
      destruct (at_char str pos "+") eqn:A.
      * apply at_char_lt in A.
        destruct (parseConcat str f (S pos)) as [x|] eqn:E; [|discriminate].
        intros H. apply CC in E; auto. apply CUl in H; lia.
      * intros [= <-]. simpl. lia.
    + intros pos y L. rewrite parseConcat_eq.
      destruct (parseStar str f pos) as [x|] eqn:E; [|discriminate].
      intros H. apply CS in E; auto. apply CCl in H; lia.
    + intros node pos y L. rewrite concat_loop_eq.
      destruct (concat_continues str pos).
      * destruct (parseStar str f pos) as [x|] eqn:E; [|discriminate].
        intros H. apply CS in E; auto. apply CCl in H; lia.
      * intros [= <-]. simpl. lia.
    + intros pos y L. rewrite parseStar_eq.
      destruct (parseBase str f pos) as [x|] eqn:E; [|discriminate].
      intros H. apply CB in E; auto. apply star_loop_cursor in H; lia.
    + intros pos y L. rewrite parseBase_eq.
      destruct (nth_error str pos) as [c|] eqn:Ec.
      * assert (Lt : pos < length str) by (apply nth_error_Some; congruence).
        destruct (Ascii.eqb c "(").
        -- destruct (parseUnion str f (S pos)) as [x|] eqn:E; [|discriminate].
           apply CU in E; auto. intros [= <-]. simpl.
           destruct (at_char str (snd x) ")") eqn:A; [|lia].
           apply at_char_lt in A. lia.
        -- destruct (Ascii.eqb c "0" || Ascii.eqb c "1");
             intros [= <-]; simpl; lia.
      * intros [= <-]. simpl. lia.
Qed.

End ParserCursor.

(** *** The parser returns on every text of the alphabet *)

Lemma returns_some (A : Type) (F : nat -> option A) (a : A) :
  returns F a -> exists f, F f = Some a.
Proof. intros [f0 H]. exists f0. now apply H. Qed.

Section ParserTotal.
Variable str : list ascii.
Hypothesis alphabet : forall c, In c str -> stray c = false.

Lemma star_loop_total k : forall node pos,
  length str - pos <= k ->
  exists y, returns (fun f => star_loop str f node pos) y.
Proof.
  induction k as [|k IH]; intros node pos L.
  - exists (node, pos). apply star_loop_stop.
    destruct (at_char str pos "*") eqn:A; auto.
    apply at_char_lt in A. lia.
  - destruct (at_char str pos "*") eqn:A.
    + pose proof (at_char_lt _ _ _ A) as Lt.
      destruct (IH (NODE_STAR node) (S pos)) as (y & Hy); [lia|].
      exists y. apply (@star_loop_more str node pos (Some y) A Hy).
    + exists (node, pos). now apply star_loop_stop.
Qed.

(** Where the loop of [parseConcat] goes on, [parseStar] moves the cursor. *)
Lemma parseStar_progress f pos y :
  concat_continues str pos = true ->
  parseStar str f pos = Some y -> pos < snd y.
Proof.
  intros Hc H. unfold concat_continues in Hc.
  destruct (nth_error str pos) as [c|] eqn:Ec; [|discriminate].
  assert (Lt : pos < length str) by (apply nth_error_Some; congruence).
  pose proof (alphabet c (nth_error_In _ _ Ec)) as Hs.
  destruct f as [|f]; [discriminate|]. rewrite parseStar_eq in H.
  destruct (parseBase str f pos) as [x|] eqn:Eb; [|discriminate].
  destruct f as [|f]; [discriminate|]. rewrite parseBase_eq, Ec in Eb.
  destruct (Ascii.eqb c "(") eqn:X1.
  - destruct (parseUnion str f (S pos)) as [u|] eqn:Eu; [|discriminate].
    destruct (parser_cursor_at str f) as (CU & _).
    destruct (CU (S pos) u) as [? ?]; auto.
    injection Eb as <-. cbn [fst snd] in H.
    apply star_loop_cursor in H; destruct (at_char str (snd u) ")") eqn:A;
      try (apply at_char_lt in A); lia.
  - destruct (Ascii.eqb c "0" || Ascii.eqb c "1") eqn:Ed.
    + injection Eb as <-. cbn [fst snd] in H.
      apply star_loop_cursor in H; lia.
    + injection Eb as <-. cbn [fst snd star_loop] in H.
      assert (Estar : Ascii.eqb c "*" = true).
      { unfold stray in Hs. apply negb_false_iff in Hs. rewrite X1 in Hs.
        destruct (Ascii.eqb c ")"); [discriminate|].
        destruct (Ascii.eqb c "+"); [discriminate|].
        apply orb_false_iff in Ed as [X5 X6]. rewrite X5, X6 in Hs.
        simpl in Hs. now rewrite !orb_false_r in Hs. }
      unfold at_char in H. rewrite Ec, Estar in H.
      apply star_loop_cursor in H; lia.
Qed.

(** A call returns, at a position of the text not before its start. *)
Definition returns_inside (F : nat -> option (NodePtr * nat)) (pos : nat)
  : Prop :=
  exists node pos',
    (exists f0, forall fuel, f0 <= fuel -> F fuel = Some (node, pos')) /\
    pos <= pos' <= length str.

Definition total_at (pos : nat) : Prop :=
  returns_inside (fun f => parseBase str f pos) pos /\
  returns_inside (fun f => parseStar str f pos) pos /\
  (forall node, returns_inside (fun f => concat_loop str f node pos) pos) /\
  returns_inside (fun f => parseConcat str f pos) pos /\
  (forall node, returns_inside (fun f => union_loop str f node pos) pos) /\
  returns_inside (fun f => parseUnion str f pos) pos.

Lemma returns_inside_intro (F : nat -> option (NodePtr * nat)) pos y :
  returns F y -> pos <= snd y <= length str -> returns_inside F pos.
Proof. intros R B. destruct y as [node pos']. exists node, pos'. auto. Qed.

Lemma parser_total k : forall pos,
  pos <= length str -> length str - pos < k -> total_at pos.
Proof.
  induction k as [|k IH]; intros pos L Lk; [lia|].
  assert (IH' : forall pos', pos < pos' <= length str -> total_at pos')
    by (intros pos' B; apply IH; lia).
  (* parseBase *)
  assert (HB : returns_inside (fun f => parseBase str f pos) pos).
  { destruct (nth_error str pos) as [c|] eqn:Ec.
    - assert (Lt : pos < length str) by (apply nth_error_Some; congruence).
      destruct (Ascii.eqb_spec c "(") as [->|E1].
      + destruct (IH' (S pos)) as (_ & _ & _ & _ & _ & U); [lia|].
        destruct U as (node & pos1 & R & B).
        apply (@returns_inside_intro _ pos
                 (node, if at_char str pos1 ")" then S pos1 else pos1)).
        * now apply parseBase_paren.
        * simpl. destruct (at_char str pos1 ")") eqn:A; [|lia].
          apply at_char_lt in A. lia.
      + destruct (Ascii.eqb c "0" || Ascii.eqb c "1") eqn:Ed.
        * apply (@returns_inside_intro _ pos (NODE_CHAR c, S pos)).
          -- apply parseBase_char; auto.
             apply orb_prop in Ed as [Ed|Ed]; apply Ascii.eqb_eq in Ed; auto.
          -- simpl. lia.
        * apply (@returns_inside_intro _ pos (NULLPTR, pos)); [|simpl; lia].
          apply returns_now. intros f. rewrite parseBase_eq, Ec, Ed.
          now destruct (Ascii.eqb_spec c "(").
    - apply (@returns_inside_intro _ pos (NULLPTR, pos)); [|simpl; lia].
      apply returns_now. intros f. now rewrite parseBase_eq, Ec. }
  (* parseStar *)
  assert (HS : returns_inside (fun f => parseStar str f pos) pos).
  { destruct HB as (node & pos1 & R & B).
    destruct (star_loop_total (k := length str) node pos1) as (y & Hy); [lia|].
    apply (@returns_inside_intro _ pos y).
    - apply (@parseStar_behaves str pos node pos1 (Some y) R Hy).
    - destruct (returns_some Hy) as (f & Ef).
      apply star_loop_cursor in Ef; lia. }
  (* the loop of parseConcat *)
  assert (HCl : forall node,
            returns_inside (fun f => concat_loop str f node pos) pos).
  { intros node. destruct (concat_continues str pos) eqn:Hc.
    - destruct HS as (rhs & pos1 & R & B).
      assert (Lt : pos < pos1).
      { destruct (returns_some R) as (f & Ef).
        apply (parseStar_progress _ _ Hc Ef). }
      destruct (IH' pos1) as (_ & _ & Cl & _); [lia|].
      destruct (Cl (NODE_CONCAT node rhs)) as (n2 & p2 & R2 & B2).
      apply (@returns_inside_intro _ pos (n2, p2)); [|simpl; lia].
      apply (@concat_loop_more str node pos rhs pos1 (Some (n2, p2)) Hc R R2).
    - apply (@returns_inside_intro _ pos (node, pos)); [|simpl; lia].
      now apply concat_loop_stop. }
  (* parseConcat *)
  assert (HC : returns_inside (fun f => parseConcat str f pos) pos).
  { destruct HS as (node & pos1 & R & B).
    assert (Cl : returns_inside (fun f => concat_loop str f node pos1) pos1).
    { destruct (Nat.eq_dec pos1 pos) as [->|Hne]; [apply HCl|].
      destruct (IH' pos1) as (_ & _ & Cl & _); [lia|]. apply Cl. }
    destruct Cl as (n2 & p2 & R2 & B2).
    apply (@returns_inside_intro _ pos (n2, p2)); [|simpl; lia].
    apply (@parseConcat_behaves str pos node pos1 (Some (n2, p2)) R R2). }
  (* the loop of parseUnion *)
  assert (HUl : forall node,
            returns_inside (fun f => union_loop str f node pos) pos).
  { intros node. destruct (at_char str pos "+") eqn:A.
    - pose proof (at_char_lt _ _ _ A) as Lt.
      destruct (IH' (S pos)) as (_ & _ & _ & C & _); [lia|].
      destruct C as (rhs & pos1 & R & B).
      destruct (IH' pos1) as (_ & _ & _ & _ & Ul & _); [lia|].
      destruct (Ul (NODE_UNION node rhs)) as (n2 & p2 & R2 & B2).
      apply (@returns_inside_intro _ pos (n2, p2)); [|simpl; lia].
      apply (@union_loop_more str node pos rhs pos1 (Some (n2, p2)) A R R2).
    - apply (@returns_inside_intro _ pos (node, pos)); [|simpl; lia].
      now apply union_loop_stop. }
  (* parseUnion *)
  assert (HU : returns_inside (fun f => parseUnion str f pos) pos).
  { destruct HC as (node & pos1 & R & B).
    assert (Ul : returns_inside (fun f => union_loop str f node pos1) pos1).
    { destruct (Nat.eq_dec pos1 pos) as [->|Hne]; [apply HUl|].
      destruct (IH' pos1) as (_ & _ & _ & _ & Ul & _); [lia|]. apply Ul. }
    destruct Ul as (n2 & p2 & R2 & B2).
    apply (@returns_inside_intro _ pos (n2, p2)); [|simpl; lia].
    apply (@parseUnion_behaves str pos node pos1 (Some (n2, p2)) R R2). }
  repeat split; assumption.
Qed.

End ParserTotal.

(** X5.  On a text made only of the characters [0 1 ( ) + *] the parser
    always returns: each of its four functions, started at a position of the
    text, returns once the fuel is enough, and the position it returns is
    between its start and the end of the text, so the cursor only moves
    forward and never passes the end. *)
Theorem parser_returns_in_text (str : list ascii) (pos : nat) :
  (forall c, In c str -> stray c = false) ->
  pos <= length str ->
  (exists node pos',
     (exists f0, forall fuel, f0 <= fuel ->
        parseUnion str fuel pos = Some (node, pos')) /\
     pos <= pos' <= length str) /\
  (exists node pos',
     (exists f0, forall fuel, f0 <= fuel ->
        parseConcat str fuel pos = Some (node, pos')) /\
     pos <= pos' <= length str) /\
  (exists node pos',
     (exists f0, forall fuel, f0 <= fuel ->
        parseStar str fuel pos = Some (node, pos')) /\
     pos <= pos' <= length str) /\
  (exists node pos',
     (exists f0, forall fuel, f0 <= fuel ->
        parseBase str fuel pos = Some (node, pos')) /\
     pos <= pos' <= length str).
Proof.
  intros Ha L.
  destruct (@parser_total str Ha (S (length str - pos)) pos L)
    as (B & S & _ & C & _ & U); [lia|].
  split; [exact U|]. split; [exact C|]. split; [exact S|exact B].
Qed.

Lemma parser_returns_in_text_witness :
  (forall c,
     In c ["("%char; "0"%char; "+"%char; "1"%char; ")"%char; "*"%char] ->
     stray c = false) /\
  0 <= length ["("%char; "0"%char; "+"%char; "1"%char; ")"%char; "*"%char] /\
  (exists node pos',
     (exists f0, forall fuel, f0 <= fuel ->
        parseUnion ["("%char; "0"%char; "+"%char; "1"%char; ")"%char; "*"%char]
          fuel 0 = Some (node, pos')) /\
     0 <= pos'
       <= length ["("%char; "0"%char; "+"%char; "1"%char; ")"%char; "*"%char]) /\
  (exists node pos',
     (exists f0, forall fuel, f0 <= fuel ->
        parseConcat ["("%char; "0"%char; "+"%char; "1"%char; ")"%char; "*"%char]
          fuel 0 = Some (node, pos')) /\
     0 <= pos'
       <= length ["("%char; "0"%char; "+"%char; "1"%char; ")"%char; "*"%char]) /\
  (exists node pos',
     (exists f0, forall fuel, f0 <= fuel ->
        parseStar ["("%char; "0"%char; "+"%char; "1"%char; ")"%char; "*"%char]
          fuel 0 = Some (node, pos')) /\
     0 <= pos'
       <= length ["("%char; "0"%char; "+"%char; "1"%char; ")"%char; "*"%char]) /\
  (exists node pos',
     (exists f0, forall fuel, f0 <= fuel ->
        parseBase ["("%char; "0"%char; "+"%char; "1"%char; ")"%char; "*"%char]
          fuel 0 = Some (node, pos')) /\
     0 <= pos'
       <= length ["("%char; "0"%char; "+"%char; "1"%char; ")"%char; "*"%char]).
Proof.
  assert (Ha : forall c,
            In c ["("%char; "0"%char; "+"%char; "1"%char; ")"%char; "*"%char] ->
            stray c = false).
  { intros c [<-|[<-|[<-|[<-|[<-|[<-|[]]]]]]]; reflexivity. }
  split; [exact Ha|]. split; [simpl; lia|].
  apply (@parser_returns_in_text
           ["("%char; "0"%char; "+"%char; "1"%char; ")"%char; "*"%char] 0 Ha).
  simpl; lia.
Defined.

(** X6.  On a text that is empty or begins with a closing parenthesis the
    parser returns the null pointer and reads nothing, so [main] has no tree
    to build an automaton from. *)
Theorem parse_null_root (str : list ascii) (fuel : nat) :
  str = [] \/ (exists rest, str = ")"%char :: rest) ->
  4 <= fuel ->
  parse str fuel = Some (NULLPTR, 0) /\ main_dfa fuel str = None.
Proof.
  intros H L.
  assert (E : parse str fuel = Some (NULLPTR, 0)).
  { destruct fuel as [|[|[|[|f]]]]; try lia.
    destruct H as [-> | (rest & ->)]; reflexivity. }
  split; [exact E|]. unfold main_dfa. now rewrite E.
Qed.

Lemma parse_null_root_witness :
  (@nil ascii = [] \/ (exists rest, @nil ascii = ")"%char :: rest)) /\
  4 <= 4 /\
  parse [] 4 = Some (NULLPTR, 0) /\ main_dfa 4 [] = None.
Proof.
  split; [now left|]. split; [lia|].
  apply (@parse_null_root [] 4); [now left|lia].
Defined.

(** X7.  [main] on the text of a well-formed tree: the parser returns, the
    stages produce an automaton, and the automaton accepts exactly the
    language of the tree. *)
Theorem main_dfa_language (r : RegexNode) :
  wf_regex r ->
  exists f0, forall fuel, f0 <= fuel ->
    exists d, main_dfa fuel (show 0 r) = Some d /\
      forall w, d_accepts d w = true <-> lang r (map bit_char w).
Proof.
  intros Hwf.
  destruct (@union_at_end (show 0 r) r 0 Hwf eq_refl) as (f0 & Hf).
  destruct (pipeline_stages r Hwf) as (md & E & C).
  exists f0. intros fuel L. exists (remove_trap md). split.
  - unfold main_dfa, parse. now rewrite (Hf fuel L), tree_of_ptr_of.
  - intros w.
    rewrite (remove_trap_language (cp_total C) (cp_sink C) (cp_dead C)).
    apply (cp_lang C).
Qed.

Lemma main_dfa_language_witness :
  wf_regex (STAR (UNION (CHAR "0") (CHAR "1"))) /\
  exists f0, forall fuel, f0 <= fuel ->
    exists d, main_dfa fuel (show 0 (STAR (UNION (CHAR "0") (CHAR "1"))))
              = Some d /\
      forall w, d_accepts d w = true <->
                lang (STAR (UNION (CHAR "0") (CHAR "1"))) (map bit_char w).
Proof.
  split; [simpl; auto|].
  apply (main_dfa_language (STAR (UNION (CHAR "0") (CHAR "1")))).
  simpl; auto.
Defined.

(** ** Thompson *)

(** The states [buildFragment] creates for a tree: two for a symbol, a union
    and a star, none for a concatenation. *)
Fixpoint state_count (r : RegexNode) : nat :=
  match r with
  | CHAR _ => 2
  | CONCAT l r' => state_count l + state_count r'
  | UNION l r' => 2 + state_count l + state_count r'
  | STAR l => 2 + state_count l
  end.

Lemma bind_snd (A B : Type) (m : Build A) (k : A -> Build B) X :
  snd (bind m k X) = snd (k (fst (m X)) (snd (m X))).
Proof. unfold bind. now destruct (m X). Qed.

Lemma buildFragment_length r : forall X,
  length (n_states (snd (buildFragment r X))) =
  length (n_states X) + state_count r.
Proof.
  induction r as [ch|l IHl r IHr|l IHl r IHr|l IHl]; intros X;
    cbn [buildFragment state_count];
    rewrite ?bind_snd; unfold ret; cbn [snd];
    rewrite ?add_transition_length, ?IHr, ?IHl, ?new_state_length; lia.
Qed.

(** X8.  The automaton of [Thompson::build] accepts, with its silent
    transitions as free moves, exactly the strings of the expression. *)
Theorem thompson_language (r : RegexNode) (w : list ascii) :
  no_eps r -> (n_accepts (build r) w <-> lang r w).
Proof. intros H. apply (@build_language r H). Qed.

Lemma thompson_language_witness :
  no_eps (UNION (CHAR "0") (STAR (CHAR "1"))) /\
  (n_accepts (build (UNION (CHAR "0") (STAR (CHAR "1")))) ["1"%char; "1"%char]
   <-> lang (UNION (CHAR "0") (STAR (CHAR "1"))) ["1"%char; "1"%char]).
Proof.
  assert (H : no_eps (UNION (CHAR "0") (STAR (CHAR "1"))))
    by (simpl; split; discriminate).
  split; [exact H|].
  exact (@thompson_language (UNION (CHAR "0") (STAR (CHAR "1")))
           ["1"%char; "1"%char] H).
Defined.

(** X9.  The shape of the automaton of [Thompson::build]: two states for
    every symbol, union and star of the expression; the start state and every
    transition target are states; exactly one state accepts, and it has no
    outgoing transition. *)
Theorem thompson_shape (r : RegexNode) :
  no_eps r ->
  length (n_states (build r)) = state_count r /\
  n_start (build r) < length (n_states (build r)) /\
  (forall i c q, In q (n_targets (build r) i c) ->
                 q < length (n_states (build r))) /\
  exists a, a < length (n_states (build r)) /\
    (forall i, n_accept (n_at (build r) i) = true <-> i = a) /\
    (forall c, n_targets (build r) a c = []).
Proof.
  intros H. pose proof (@build_ok r H) as [[Hs Ht] _].
  pose proof (buildFragment_built r H (mkNFA [] 0)) as B.
  split; [|split; [exact Hs|split; [exact Ht|]]].
  - rewrite build_length, buildFragment_length. reflexivity.
  - exists (f_accept (fst (buildFragment r (mkNFA [] 0)))).
    split; [|split].
    + rewrite build_length. apply (bt_exit B).
    + apply (@build_accept r H).
    + intros c. rewrite build_targets. apply (bt_stuck B).
Qed.

Lemma thompson_shape_witness :
  no_eps (CONCAT (CHAR "0") (STAR (CHAR "1"))) /\
  length (n_states (build (CONCAT (CHAR "0") (STAR (CHAR "1")))))
  = state_count (CONCAT (CHAR "0") (STAR (CHAR "1"))) /\
  n_start (build (CONCAT (CHAR "0") (STAR (CHAR "1"))))
  < length (n_states (build (CONCAT (CHAR "0") (STAR (CHAR "1"))))) /\
  (forall i c q,
     In q (n_targets (build (CONCAT (CHAR "0") (STAR (CHAR "1")))) i c) ->
     q < length (n_states (build (CONCAT (CHAR "0") (STAR (CHAR "1")))))) /\
  exists a,
    a < length (n_states (build (CONCAT (CHAR "0") (STAR (CHAR "1"))))) /\
    (forall i,
       n_accept (n_at (build (CONCAT (CHAR "0") (STAR (CHAR "1")))) i) = true
       <-> i = a) /\
    (forall c, n_targets (build (CONCAT (CHAR "0") (STAR (CHAR "1")))) a c = []).
Proof.
  assert (H : no_eps (CONCAT (CHAR "0") (STAR (CHAR "1"))))
    by (simpl; split; discriminate).
  split; [exact H|].
  exact (@thompson_shape (CONCAT (CHAR "0") (STAR (CHAR "1"))) H).
Defined.

(** ** EpsilonRemover and SubsetConstruction *)

Lemma nfa_zero_eps_free : eps_free nfa_zero.
Proof.
  intros p. destruct p as [|[|p]]; try reflexivity.
  apply n_targets_out. simpl. lia.
Qed.

(** X10.  Eliminating the silent transitions keeps the language: the
    automaton [remove] returns accepts the strings its input accepts. *)
Theorem remove_preserves_language (infa : NFA) :
  nfa_ok infa ->
  exists onfa, remove infa = Some onfa /\
    forall w, n_accepts onfa w <-> n_accepts infa w.
Proof.
  intros Hok. destruct (remove_spec Hok) as (onfa & E & Hrem).
  exists onfa. split; auto.
  apply (remove_language (proj1 Hok) Hrem).
Qed.

Lemma remove_preserves_language_witness :
  nfa_ok nfa_zero_star /\
  exists onfa, remove nfa_zero_star = Some onfa /\
    forall w, n_accepts onfa w <-> n_accepts nfa_zero_star w.
Proof.
  split; [exact nfa_zero_star_ok|].
  exact (remove_preserves_language nfa_zero_star_ok).
Defined.

(** X11.  The closures [remove] computes with [compute_epsilon_closure]:
    for every state a strictly increasing list that holds the state itself
    and exactly the states reachable from it by silent transitions. *)
Theorem epsilon_closures_computed (infa : NFA) :
  nfa_wf infa ->
  exists e,
    compute_closures infa (seq 0 (length (n_states infa)))
      (repeat [] (length (n_states infa))) = Some e /\
    length e = length (n_states infa) /\
    forall i, i < length (n_states infa) ->
      StronglySorted lt (nth i e []) /\ In i (nth i e []) /\
      forall x, In x (nth i e []) <-> eps_reach infa i x.
Proof.
  intros Hwf. destruct (compute_closures_spec Hwf) as (e & E & L & H).
  exists e. split; auto. split; auto. intros i Li.
  destruct (H i Li) as [Hs Hm]. split; auto. split; auto.
  apply Hm. constructor.
Qed.

Lemma epsilon_closures_computed_witness :
  nfa_wf nfa_zero_star /\
  exists e,
    compute_closures nfa_zero_star (seq 0 (length (n_states nfa_zero_star)))
      (repeat [] (length (n_states nfa_zero_star))) = Some e /\
    length e = length (n_states nfa_zero_star) /\
    forall i, i < length (n_states nfa_zero_star) ->
      StronglySorted lt (nth i e []) /\ In i (nth i e []) /\
      forall x, In x (nth i e []) <-> eps_reach nfa_zero_star i x.
Proof.
  split; [exact (proj1 nfa_zero_star_ok)|].
  exact (epsilon_closures_computed (proj1 nfa_zero_star_ok)).
Defined.

(** X12.  The subset construction keeps the language of an automaton
    without silent transitions: the DFA of [convert] accepts a string of
    0s and 1s exactly when the NFA does. *)
Theorem convert_preserves_language (infa : NFA) :
  nfa_wf infa -> eps_free infa ->
  exists dfa, convert infa = Some dfa /\
    forall w, d_accepts dfa w = true <-> n_accepts infa (map bit_char w).
Proof.
  intros Hwf Hfree.
  destruct (convert_sets_spec Hwf) as (dfa & sets & E & Hsd).
  exists dfa. split; [unfold convert; now rewrite E|].
  apply (subset_language Hsd Hfree).
Qed.

Lemma convert_preserves_language_witness :
  nfa_wf nfa_zero /\ eps_free nfa_zero /\
  exists dfa, convert nfa_zero = Some dfa /\
    forall w, d_accepts dfa w = true <-> n_accepts nfa_zero (map bit_char w).
Proof.
  split; [exact nfa_zero_wf|]. split; [exact nfa_zero_eps_free|].
  exact (convert_preserves_language nfa_zero_wf nfa_zero_eps_free).
Defined.

(** X13.  The states of the DFA of [convert] stand for pairwise different
    subsets, each a strictly increasing list of NFA states, so there are at
    most 2^n of them; state 0 is the start and stands for the subset of the
    NFA's start state; every state carries its index as id and accepts
    exactly when its subset holds an accepting NFA state. *)
Theorem convert_states_distinct (infa : NFA) :
  nfa_wf infa ->
  exists dfa sets,
    convert_sets infa = Some (dfa, sets) /\
    length (d_states dfa) = length sets /\
    NoDup sets /\
    (forall S, In S sets ->
       StronglySorted lt S /\
       forall x, In x S -> x < length (n_states infa)) /\
    length (d_states dfa) <= 2 ^ length (n_states infa) /\
    d_start dfa = 0%Z /\ nth_error sets 0 = Some [n_start infa] /\
    forall i, i < length sets ->
      d_id (d_at dfa i) = Z.of_nat i /\
      d_accept (d_at dfa i) = has_accept infa (nth i sets []).
Proof.
  intros Hwf.
  destruct (convert_sets_spec Hwf) as (dfa & sets & E & Hsd).
  exists dfa, sets. split; auto.
  split; [apply (sd_len Hsd)|]. split; [apply (sd_nodup Hsd)|].
  split; [apply (sd_cset Hsd)|].
  split; [rewrite (sd_len Hsd);
          apply (csets_bounded (sd_nodup Hsd) (sd_cset Hsd))|].
  split; [apply (sd_start Hsd)|]. split; [apply (sd_start_set Hsd)|].
  intros i Li. split; [apply (sd_id Hsd Li)|apply (sd_accept Hsd Li)].
Qed.

Lemma convert_states_distinct_witness :
  nfa_wf nfa_zero /\
  exists dfa sets,
    convert_sets nfa_zero = Some (dfa, sets) /\
    length (d_states dfa) = length sets /\
    NoDup sets /\
    (forall S, In S sets ->
       StronglySorted lt S /\
       forall x, In x S -> x < length (n_states nfa_zero)) /\
    length (d_states dfa) <= 2 ^ length (n_states nfa_zero) /\
    d_start dfa = 0%Z /\ nth_error sets 0 = Some [n_start nfa_zero] /\
    forall i, i < length sets ->
      d_id (d_at dfa i) = Z.of_nat i /\
      d_accept (d_at dfa i) = has_accept nfa_zero (nth i sets []).
Proof.
  split; [exact nfa_zero_wf|]. exact (convert_states_distinct nfa_zero_wf).
Defined.

(** X14.  [get_state_id] gives a subset one id: asked again for the same
    subset it returns the same id and changes nothing, and registering a
    subset leaves the ids of the other subsets as they were; the empty
    subset gets [-1] and is never registered. *)
Theorem get_state_id_stable (S S' : IntSet) (st : Subsets) :
  get_state_id S (snd (get_state_id S st)) = get_state_id S st /\
  (S' <> S ->
   om_find set_compare S' (sc_map (snd (get_state_id S st)))
   = om_find set_compare S' (sc_map st)) /\
  (S = [] -> get_state_id S st = ((-1)%Z, st)).
Proof.
  split; [|split].
  - destruct S as [|x S]; [reflexivity|]. unfold get_state_id.
    destruct (om_find set_compare (x :: S) (sc_map st)) as [id|] eqn:E.
    + cbn [snd]. now rewrite E.
    + cbn [snd sc_map].
      now rewrite (om_find_set_eq set_compare set_compare_eq).
  - intros Hne. destruct S as [|x S]; [reflexivity|]. unfold get_state_id.
    destruct (om_find set_compare (x :: S) (sc_map st)) as [id|] eqn:E.
    + reflexivity.
    + cbn [snd sc_map].
      apply (om_find_set_ne set_compare set_compare_eq set_compare_trans).
      congruence.
  - intros ->. reflexivity.
Qed.

(** X15.  [move_set] returns the set of the successors of the members of
    [cur] on [c], as a strictly increasing list without duplicates; from the
    empty subset it returns the empty subset. *)
Theorem move_set_members (infa : NFA) (cur : IntSet) (c : ascii) :
  StronglySorted lt (move_set infa cur c) /\
  (forall q, In q (move_set infa cur c) <->
             exists s, In s cur /\ In q (n_targets infa s c)) /\
  move_set infa [] c = [].
Proof.
  split; [apply move_set_sorted|]. split; [apply in_move_set|reflexivity].
Qed.

(** ** DFAMinimizer and TrapRemover *)

(** X16.  Minimization keeps the language and does not add states: the DFA
    [minimize] returns is total, has at least one and at most as many states
    as its input, and accepts the same strings. *)
Theorem minimize_preserves_language (d : DFA) :
  d_total d ->
  exists md, minimize d = Some md /\ d_total md /\
    1 <= length (d_states md) <= length (d_states d) /\
    forall w, d_accepts md w = d_accepts d w.
Proof.
  intros Ht. destruct (minimize_spec Ht) as (md & q & P & k & E & M).
  exists md. split; [unfold minimize; now rewrite E|].
  split; [apply (mz_total M)|]. split.
  - split; [apply (d_total_pos (mz_total M))|].
    rewrite (mz_size M). apply (canon_le (mz_canon M)).
  - intros w. apply (minimize_language w Ht M).
Qed.

Lemma minimize_preserves_language_witness :
  d_total dfa_zero /\
  exists md, minimize dfa_zero = Some md /\ d_total md /\
    1 <= length (d_states md) <= length (d_states dfa_zero) /\
    forall w, d_accepts md w = d_accepts dfa_zero w.
Proof.
  split; [exact dfa_zero_total|].
  exact (minimize_preserves_language dfa_zero_total).
Defined.

(** X17.  The partition the refinement loop stops at is language
    equivalence: two states are in one class exactly when the same strings
    are accepted from both. *)
Theorem final_partition_is_equivalence (d : DFA) :
  d_trans_total d ->
  exists P passes,
    refine_loop (S (S (length (d_states d)))) d (initial_partition d) 0
      = Some (P, passes) /\
    forall i j, i < length (d_states d) -> j < length (d_states d) ->
      (nth i P 0%Z = nth j P 0%Z <->
       forall w, d_accepts_from d (Z.of_nat i) w
                 = d_accepts_from d (Z.of_nat j) w).
Proof.
  intros Htot.
  destruct (final_partition_exists Htot)
    as (P & q & E & F & (A & _ & D) & _ & _ & _).
  exists P, q. split; [exact E|]. intros i j Li Lj. split.
  - intros Eq w. apply (fixpoint_equiv Htot F A w Li Lj Eq).
  - intros H.
    destruct (Z.eq_dec (nth i P 0%Z) (nth j P 0%Z)) as [Eq|Ne]; auto.
    destruct (D i j Li Lj Ne) as (w & Hw). now elim Hw.
Qed.

Lemma dfa_zero_trans_total : d_trans_total dfa_zero.
Proof. exact (proj1 dfa_zero_total). Qed.

Lemma final_partition_is_equivalence_witness :
  d_trans_total dfa_zero /\
  exists P passes,
    refine_loop (S (S (length (d_states dfa_zero)))) dfa_zero
      (initial_partition dfa_zero) 0 = Some (P, passes) /\
    forall i j, i < length (d_states dfa_zero) ->
      j < length (d_states dfa_zero) ->
      (nth i P 0%Z = nth j P 0%Z <->
       forall w, d_accepts_from dfa_zero (Z.of_nat i) w
                 = d_accepts_from dfa_zero (Z.of_nat j) w).
Proof.
  split; [exact dfa_zero_trans_total|].
  exact (final_partition_is_equivalence dfa_zero_trans_total).
Defined.

(** X18.  The class of the trap is the trap of the minimized DFA, and it is
    still a trap: when the trap of the input is non-accepting and loops to
    itself on both symbols, so does the recorded trap of the result. *)
Theorem minimize_keeps_trap (d : DFA) :
  d_total d ->
  d_accepting d (d_trap d) = false ->
  (forall b, d_step d (d_trap d) b = d_trap d) ->
  exists md, minimize d = Some md /\
    in_range md (d_trap md) = true /\
    d_accepting md (d_trap md) = false /\
    forall b, d_step md (d_trap md) b = d_trap md.
Proof.
  intros Ht Hacc Hloop.
  destruct (minimize_spec Ht) as (md & q & P & k & E & M).
  exists md. split; [unfold minimize; now rewrite E|].
  pose proof (proj2 (proj2 Ht)) as Hr. pose proof Hr as Hr'.
  apply in_range_spec in Hr'.
  set (t := Z.to_nat (d_trap d)).
  assert (Lt : t < length (d_states d)) by (unfold t; lia).
  assert (Et : Z.of_nat t = d_trap d) by (unfold t; lia).
  assert (Etm : d_trap md = nth t P 0%Z) by (rewrite (mz_trap M); reflexivity).
  split; [apply (mz_total M)|]. split.
  - rewrite Etm, (mz_accepting M Lt). rewrite <- Hacc.
    unfold d_accepting. now rewrite (d_get_at _ _ Hr).
  - intros b. rewrite Etm, (mz_step M b Lt). f_equal.
    pose proof (d_step_succ (proj1 Ht) b Lt) as S1.
    rewrite Et, Hloop in S1. apply Nat2Z.inj. now rewrite <- S1.
Qed.

Lemma minimize_keeps_trap_witness :
  d_total dfa_zero /\
  d_accepting dfa_zero (d_trap dfa_zero) = false /\
  (forall b, d_step dfa_zero (d_trap dfa_zero) b = d_trap dfa_zero) /\
  exists md, minimize dfa_zero = Some md /\
    in_range md (d_trap md) = true /\
    d_accepting md (d_trap md) = false /\
    forall b, d_step md (d_trap md) b = d_trap md.
Proof.
  assert (H : forall b, d_step dfa_zero (d_trap dfa_zero) b = d_trap dfa_zero)
    by (intros []; reflexivity).
  split; [exact dfa_zero_total|]. split; [reflexivity|]. split; [exact H|].
  exact (minimize_keeps_trap dfa_zero_total eq_refl H).
Defined.

(** X19.  Removing a trap that is a dead end keeps the language: when the
    recorded trap is non-accepting and loops to itself, the DFA without it
    accepts the same strings, and each of its transitions is [-1] or the
    index of a state. *)
Theorem remove_trap_preserves_language (md : DFA) :
  d_total md ->
  d_accepting md (d_trap md) = false ->
  (forall b, d_step md (d_trap md) b = d_trap md) ->
  d_partial (remove_trap md) /\
  forall w, d_accepts (remove_trap md) w = d_accepts md w.
Proof.
  intros Ht Hacc Hloop. split.
  - apply (remove_trap_partial Ht).
  - apply (remove_trap_language Ht Hloop Hacc).
Qed.

Lemma remove_trap_preserves_language_witness :
  d_total dfa_zero /\
  d_accepting dfa_zero (d_trap dfa_zero) = false /\
  (forall b, d_step dfa_zero (d_trap dfa_zero) b = d_trap dfa_zero) /\
  d_partial (remove_trap dfa_zero) /\
  forall w, d_accepts (remove_trap dfa_zero) w = d_accepts dfa_zero w.
Proof.
  assert (H : forall b, d_step dfa_zero (d_trap dfa_zero) b = d_trap dfa_zero)
    by (intros []; reflexivity).
  split; [exact dfa_zero_total|]. split; [reflexivity|]. split; [exact H|].
  exact (remove_trap_preserves_language dfa_zero_total eq_refl H).
Defined.

(** ** DFAPrinter *)

(** X20.  [name_states] names exactly the states reachable from the start:
    a state gets a name [q<k>] when it is reachable, the empty name
    otherwise (every name is empty when the start is no state); different
    states get different names, and the start state is [q0]. *)
Theorem name_states_names_reachable (d : DFA) :
  exists qname,
    name_states d = Some qname /\
    length qname = length (d_states d) /\
    (forall i, i < length (d_states d) ->
       (nth i qname ""%string <> ""%string <->
        in_range d (d_start d) = true /\
        d_reach d (d_start d) (Z.of_nat i))) /\
    (forall i, nth i qname ""%string <> ""%string ->
       exists k, nth i qname ""%string = qn k) /\
    (forall i j, nth i qname ""%string <> ""%string ->
       nth i qname ""%string = nth j qname ""%string -> i = j) /\
    (in_range d (d_start d) = true ->
     nth (Z.to_nat (d_start d)) qname ""%string = "q0"%string).
Proof.
  destruct (name_states_ok d) as (qname & E & [L Q Inj R St]).
  exists qname. split; [exact E|]. split; [exact L|].
  split; [intros i Li; apply (R i Li)|]. split; [exact Q|].
  split; [exact Inj|exact St].
Qed.

(** X21.  For every DFA whose transitions are [-1] or states and whose
    start is a state, the grammar of [print_and_convert_to_RG] derives from
    [q0] exactly the non-empty strings the DFA accepts. *)
Theorem dfa_grammar_equivalence (d : DFA) :
  d_partial d -> in_range d (d_start d) = true ->
  exists G, emit_grammar d = Some G /\
    forall w, derives G "q0" w <-> (w <> [] /\ d_accepts d w = true).
Proof.
  intros Hp Hs. destruct (grammar_matches_dfa Hp Hs) as (G & E & H).
  exists G. split; auto. intros w. split.
  - intros D. pose proof (derives_nonempty D) as Hne. split; auto.
    now apply H.
  - intros [Hne A]. now apply H.
Qed.

Lemma dfa_single_zero_partial : d_partial dfa_single_zero.
Proof.
  intros st [<-|[<-|[<-|[]]]]; simpl; auto.
Qed.

Lemma dfa_grammar_equivalence_witness :
  d_partial dfa_single_zero /\
  in_range dfa_single_zero (d_start dfa_single_zero) = true /\
  exists G, emit_grammar dfa_single_zero = Some G /\
    forall w, derives G "q0" w <->
              (w <> [] /\ d_accepts dfa_single_zero w = true).
Proof.
  split; [exact dfa_single_zero_partial|]. split; [reflexivity|].
  exact (dfa_grammar_equivalence dfa_single_zero_partial eq_refl).
Defined.

(** X22.  The printed table has one row for every state reachable from the
    start and no other row: a row is in the table exactly when it is the
    row of a reachable state. *)
Theorem table_rows_reachable (d : DFA) :
  in_range d (d_start d) = true ->
  exists qname order,
    name_states d = Some qname /\ get_order qname = Some order /\
    forall row, In row (table_of d qname order) <->
      exists i, i < length (d_states d) /\
        d_reach d (d_start d) (Z.of_nat i) /\ row = table_row d qname i.
Proof.
  intros Hs. destruct (name_states_ok d) as (qname & E & N).
  destruct (get_order_ok N) as (order & Eo & Ho).
  exists qname, order. split; auto. split; auto.
  intros row. unfold table_of. rewrite in_map_iff. split.
  - intros ([k i] & <- & Hin). simpl. apply Ho in Hin.
    assert (Hn : named qname i) by (unfold named; rewrite Hin; apply qn_nonempty).
    pose proof (named_lt Hn) as L. rewrite (no_len N) in L.
    exists i. split; auto. split; auto. now apply (no_reach N L).
  - intros (i & L & R & ->).
    assert (Hn : named qname i) by (apply (no_reach N L); auto).
    destruct (no_qn N Hn) as (k & Ek).
    exists (k, i). split; auto. now apply Ho.
Qed.

Lemma table_rows_reachable_witness :
  in_range dfa_single_zero (d_start dfa_single_zero) = true /\
  exists qname order,
    name_states dfa_single_zero = Some qname /\
    get_order qname = Some order /\
    forall row, In row (table_of dfa_single_zero qname order) <->
      exists i, i < length (d_states dfa_single_zero) /\
        d_reach dfa_single_zero (d_start dfa_single_zero) (Z.of_nat i) /\
        row = table_row dfa_single_zero qname i.
Proof.
  split; [reflexivity|].
  exact (@table_rows_reachable dfa_single_zero eq_refl).
Defined.

(** *** The order of the rows *)

Lemma pair_leb_total a b : pair_leb a b = false -> pair_leb b a = true.
Proof.
  unfold pair_leb. destruct a as [a1 a2], b as [b1 b2]. simpl.
  destruct (Nat.ltb_spec a1 b1), (Nat.eqb_spec a1 b1),
    (Nat.leb_spec a2 b2), (Nat.ltb_spec b1 a1), (Nat.eqb_spec b1 a1),
    (Nat.leb_spec b2 a2); simpl; auto; try lia.
Qed.

Lemma pair_leb_fst a b : pair_leb a b = true -> fst a <= fst b.
Proof.
  unfold pair_leb. destruct a as [a1 a2], b as [b1 b2]. simpl.
  destruct (Nat.ltb_spec a1 b1), (Nat.eqb_spec a1 b1); simpl;
    try lia; discriminate.
Qed.

Lemma insert_pair_fst_sorted a l :
  StronglySorted le (map fst l) ->
  StronglySorted le (map fst (insert_pair a l)).
Proof.
  induction l as [|b l IH]; simpl; intros S.
  - repeat constructor.
  - inversion S as [|? ? S' F]; subst.
    destruct (pair_leb a b) eqn:E.
    + apply pair_leb_fst in E. simpl. constructor; [now constructor|].
      constructor; auto. rewrite Forall_forall in *. intros x Hx.
      specialize (F x Hx). lia.
    + apply pair_leb_total, pair_leb_fst in E. simpl.
      constructor; auto. rewrite Forall_forall in *. intros x Hx.
      apply in_map_iff in Hx as (p & <- & Hp).
      apply in_insert_pair in Hp as [->|Hp]; auto.
      apply F. now apply in_map.
Qed.

Lemma sort_pairs_fst_sorted l : StronglySorted le (map fst (sort_pairs l)).
Proof.
  induction l as [|a l IH]; simpl; [constructor|].
  now apply insert_pair_fst_sorted.
Qed.

Lemma insert_pair_perm a l : Permutation (a :: l) (insert_pair a l).
Proof.
  induction l as [|b l IH]; simpl; auto.
  destruct (pair_leb a b); auto.
  apply perm_trans with (b :: a :: l); [apply perm_swap|now constructor].
Qed.

Lemma sort_pairs_perm l : Permutation l (sort_pairs l).
Proof.
  induction l as [|a l IH]; simpl; auto.
  apply perm_trans with (a :: sort_pairs l); [now constructor|].
  apply insert_pair_perm.
Qed.

Lemma collect_order_cons i nm rest :
  collect_order i (nm :: rest) =
  match nm with
  | EmptyString => collect_order (S i) rest
  | String c digits =>
      if Ascii.eqb c "q" then
        match stoi digits, collect_order (S i) rest with
        | Some idx, Some o => Some ((idx, i) :: o)
        | _, _ => None
        end
      else collect_order (S i) rest
  end.
Proof.
  destruct nm as [|c digits]; [reflexivity|].
  destruct c as [[] [] [] [] [] [] [] []]; reflexivity.
Qed.

Lemma collect_order_snd qname : forall i0 o,
  collect_order i0 qname = Some o ->
  StronglySorted lt (map snd o) /\ forall p, In p o -> i0 <= snd p.
Proof.
  induction qname as [|nm rest IH]; intros i0 o H.
  - injection H as <-. split; [constructor|intros p []].
  - rewrite collect_order_cons in H.
    assert (Hskip : collect_order (S i0) rest = Some o ->
              StronglySorted lt (map snd o) /\ forall p, In p o -> i0 <= snd p).
    { intros H'. destruct (IH _ _ H') as [S1 B1]. split; auto.
      intros p Hp. specialize (B1 p Hp). lia. }
    destruct nm as [|c digits]; auto.
    destruct (Ascii.eqb c "q"); auto.
    destruct (stoi digits) as [idx|]; [|discriminate].
    destruct (collect_order (S i0) rest) as [o'|] eqn:E; [|discriminate].
    injection H as <-. destruct (IH _ _ E) as [S1 B1]. split.
    + simpl. constructor; auto. rewrite Forall_forall. intros x Hx.
      apply in_map_iff in Hx as (p & <- & Hp). specialize (B1 p Hp). lia.
    + intros p [<-|Hp]; simpl; auto. specialize (B1 p Hp). lia.
Qed.

Lemma sorted_nat_seq m : forall l a,
  StronglySorted lt l -> (forall x, In x l <-> a <= x < a + m) ->
  l = seq a m.
Proof.
  induction m as [|m IH]; intros l a S H.
  - destruct l as [|x l]; auto. destruct (proj1 (H x)); [now left|lia].
  - destruct l as [|x l].
    + destruct (proj2 (H a)); lia.
    + inversion S as [|? ? S' F]; subst. rewrite Forall_forall in F.
      assert (Ex : x = a).
      { destruct (proj1 (H x)) as [L _]; [now left|].
        destruct (proj2 (H a)) as [E|Hin]; [lia|auto|].
        specialize (F a Hin). lia. }
      subst x. simpl. f_equal. apply IH; auto.
      intros x. split.
      * intros Hx. specialize (F x Hx).
        destruct (proj1 (H x)); [now right|]. lia.
      * intros Hx. destruct (proj2 (H x)) as [E|Hin]; [lia|lia|auto].
Qed.

Lemma sorted_le_nodup_nat l :
  StronglySorted le l -> NoDup l -> StronglySorted lt l.
Proof.
  induction 1 as [|x l S IH F]; intros N; [constructor|].
  inversion N as [|? ? Hx N']; subst. constructor; auto.
  rewrite Forall_forall in *. intros y Hy. specialize (F y Hy).
  assert (x <> y) by (intros ->; contradiction). lia.
Qed.

(** *** The numbers [name_states] hands out *)

Section NameCount.
Variable d : DFA.

(** The names handed out so far are [q0] ... [q(count-1)], and only visited
    states are named. *)
Record count_ok (s : Naming) : Prop := mkCountOk {
  co_len_q : length (nm_qname s) = length (d_states d);
  co_len_v : length (nm_visited s) = length (d_states d);
  co_unvisited : forall i, nth i (nm_visited s) false = false ->
      nth i (nm_qname s) ""%string = ""%string;
  co_names : forall k, k < nm_count s ->
      exists i, nth i (nm_qname s) ""%string = qn k;
  co_bound : forall i, nth i (nm_qname s) ""%string <> ""%string ->
      exists k, k < nm_count s /\ nth i (nm_qname s) ""%string = qn k
}.

Lemma visit_count_ok s v : count_ok s -> count_ok (visit d v s).
Proof.
  intros [Lq Lv U N B]. unfold visit.
  destruct (in_range d v && negb _) eqn:G; [|now constructor].
  apply andb_prop in G as [Hv G]. apply negb_true_iff in G.
  apply in_range_spec in Hv.
  assert (Hvn : Z.to_nat v < length (d_states d)) by lia.
  constructor; cbn [nm_qname nm_visited nm_count].
  - now rewrite length_set_nth.
  - now rewrite length_set_nth.
  - intros i Hi. destruct (Nat.eq_dec (Z.to_nat v) i) as [<-|Hne].
    + rewrite nth_set_nth_eq in Hi by lia. discriminate.
    + rewrite nth_set_nth_ne in Hi by assumption.
      rewrite nth_set_nth_ne by assumption. auto.
  - intros k Hk. destruct (Nat.eq_dec k (nm_count s)) as [->|Hne].
    + exists (Z.to_nat v). apply nth_set_nth_eq. lia.
    + destruct (N k) as (i & Ei); [lia|]. exists i.
      rewrite nth_set_nth_ne; auto. intros <-.
      rewrite (U _ G) in Ei. symmetry in Ei. now apply qn_nonempty in Ei.
  - intros i Hi. destruct (Nat.eq_dec (Z.to_nat v) i) as [<-|Hne].
    + exists (nm_count s). split; [lia|]. apply nth_set_nth_eq. lia.
    + rewrite nth_set_nth_ne in Hi by assumption.
      rewrite nth_set_nth_ne by assumption.
      destruct (B i Hi) as (k & Lk & Ek). exists k. split; auto.
Qed.

Lemma name_loop_count_ok fuel : forall s s',
  count_ok s -> name_loop fuel d s = Some s' -> count_ok s'.
Proof.
  induction fuel as [|fuel IH]; intros s s' C H; [discriminate|].
  simpl in H. destruct (nm_queue s) as [|u rest] eqn:Q.
  - now injection H as <-.
  - apply IH in H; auto. apply visit_count_ok, visit_count_ok.
    destruct C as [Lq Lv U N B]. now constructor.
Qed.

Lemma name_init_count_ok :
  in_range d (d_start d) = true -> count_ok (name_init d).
Proof.
  intros Hs. apply in_range_spec in Hs.
  assert (Hsn : Z.to_nat (d_start d) < length (d_states d)) by lia.
  assert (Hempty : forall i, nth i (repeat ""%string (length (d_states d)))
                               ""%string = ""%string).
  { intros i. destruct (Nat.lt_ge_cases i (length (d_states d))).
    - now apply nth_repeat_lt.
    - apply nth_overflow. now rewrite repeat_length. }
  unfold name_init. constructor; cbn [nm_qname nm_visited nm_count].
  - now rewrite length_set_nth, repeat_length.
  - now rewrite length_set_nth, repeat_length.
  - intros i Hi. destruct (Nat.eq_dec (Z.to_nat (d_start d)) i) as [<-|Hne].
    + rewrite nth_set_nth_eq in Hi by (rewrite repeat_length; lia).
      discriminate.
    + rewrite nth_set_nth_ne by assumption. apply Hempty.
  - intros k Hk. assert (k = 0) by lia. subst k.
    exists (Z.to_nat (d_start d)). apply nth_set_nth_eq.
    rewrite repeat_length. lia.
  - intros i Hi. exists 0. split; [lia|].
    destruct (Nat.eq_dec (Z.to_nat (d_start d)) i) as [<-|Hne].
    + apply nth_set_nth_eq. rewrite repeat_length. lia.
    + rewrite nth_set_nth_ne in Hi by assumption. now rewrite Hempty in Hi.
Qed.

Lemma name_states_count qname :
  in_range d (d_start d) = true -> name_states d = Some qname ->
  exists m,
    (forall k, k < m -> exists i, nth i qname ""%string = qn k) /\
    (forall i k, nth i qname ""%string = qn k -> k < m).
Proof.
  intros Hs H. unfold name_states in H. rewrite Hs in H.
  destruct (name_loop (S (length (d_states d))) d (name_init d))
    as [s'|] eqn:E; [|discriminate].
  injection H as <-.
  pose proof (@name_loop_count_ok _ _ _ (name_init_count_ok Hs) E) as [_ _ _ N B].
  exists (nm_count s'). split; auto.
  intros i k Ek. destruct (B i) as (k' & Lk & Ek').
  - rewrite Ek. apply qn_nonempty.
  - rewrite Ek in Ek'. apply qn_inj in Ek'. now subst.
Qed.

End NameCount.

(** X23.  The rows are in the order of the names: [get_order] returns the
    named states as (number, state) pairs with the numbers 0, 1, 2, ... in
    this order and without a gap, each state under the number of its name,
    and the first pair is the start state. *)
Theorem get_order_consecutive (d : DFA) :
  in_range d (d_start d) = true ->
  exists qname order,
    name_states d = Some qname /\ get_order qname = Some order /\
    map fst order = seq 0 (length order) /\
    (forall k i, In (k, i) order <-> nth i qname ""%string = qn k) /\
    hd_error order = Some (0, Z.to_nat (d_start d)).
Proof.
  intros Hs. destruct (name_states_ok d) as (qname & E & N).
  destruct (@name_states_count d qname Hs E) as (m & Hsur & Hb).
  destruct (@collect_order_ok qname 0 (no_qn N)) as (o & Eo & Ho).
  destruct (@collect_order_snd qname 0 o Eo) as [Ssnd _].
  set (order := sort_pairs o).
  assert (Hmem : forall k i, In (k, i) order <-> nth i qname ""%string = qn k).
  { intros k i. unfold order. rewrite in_sort_pairs, Ho, Nat.sub_0_r.
    intuition lia. }
  assert (Nd : NoDup order).
  { apply (Permutation_NoDup (sort_pairs_perm o)).
    apply (NoDup_map_inv snd). apply sorted_lt_nodup. exact Ssnd. }
  assert (Nf : NoDup (map fst order)).
  { apply NoDup_map_NoDup_ForallPairs; auto.
    intros [k i] [k' i'] H1 H2 Ef. simpl in Ef. subst k'.
    apply Hmem in H1, H2. f_equal.
    apply (no_inj N); [unfold named; rewrite H1; apply qn_nonempty|congruence]. }
  assert (Hseq : map fst order = seq 0 m).
  { apply sorted_nat_seq.
    - apply sorted_le_nodup_nat; auto. apply sort_pairs_fst_sorted.
    - intros k. rewrite in_map_iff. split.
      + intros ([k' i] & <- & Hin). simpl. apply Hmem in Hin.
        apply Hb in Hin. lia.
      + intros [_ Lk]. destruct (Hsur k Lk) as (i & Ei).
        exists (k, i). split; auto. now apply Hmem. }
  assert (Lm : length order = m).
  { rewrite <- (length_map fst), Hseq. apply length_seq. }
  exists qname, order. split; auto.
  split; [unfold get_order; now rewrite Eo|].
  split; [now rewrite Lm|]. split; auto.
  assert (H0 : In (0, Z.to_nat (d_start d)) order).
  { apply Hmem. apply (no_start N Hs). }
  destruct order as [|[k i] rest]; [destruct H0|].
  simpl in Hseq. destruct m as [|m]; [discriminate|].
  injection Hseq as -> _. simpl. f_equal. f_equal.
  assert (Hi : nth i qname ""%string = qn 0) by (apply Hmem; now left).
  apply (no_inj N).
  - unfold named. rewrite Hi. apply qn_nonempty.
  - rewrite Hi. symmetry. apply (no_start N Hs).
Qed.

Lemma get_order_consecutive_witness :
  in_range dfa_single_zero (d_start dfa_single_zero) = true /\
  exists qname order,
    name_states dfa_single_zero = Some qname /\
    get_order qname = Some order /\
    map fst order = seq 0 (length order) /\
    (forall k i, In (k, i) order <-> nth i qname ""%string = qn k) /\
    hd_error order = Some (0, Z.to_nat (d_start dfa_single_zero)).
Proof.
  split; [reflexivity|].
  exact (@get_order_consecutive dfa_single_zero eq_refl).
Defined.
